(** * OCR field extraction and merge: a shallow embedding

  The development follows the Python sources
    - [services/ocr_merge.py]  (the merge engine),
    - [services/parsers.py]    (normaliser, geometry coercer, type
                                detector, label-anchored extraction),
    - [services/extractor.py]  (the field cleaner).

  Python [str] is modelled as [string], a character standing for the
  code point of its number (the 8-bit range); [dict] as an
  insertion-ordered association list; [float] as the kernel's binary64
  floats.  Regular expressions are modelled by a small backtracking
  matcher for the fragment of [re] that the patterns of the sources use.

  Upper-casing and the word characters of [re] are modelled on ASCII
  text, where they are Python's; beyond it [str.upper] leaves the 8-bit
  range and [\w] takes in accented letters.  The parsers and the cleaner
  upper-case and match what [unidecode] returns, which is ASCII.  The
  merge engine tests raw values: a theorem that depends on the answer of
  its pattern test is stated for ASCII values. *)

From Stdlib Require Import String Ascii List Bool Arith ZArith Lia.
From Stdlib Require Import Floats Uint63 Sorted Permutation.
Import ListNotations.
Local Open Scope string_scope.
Local Open Scope list_scope.
Local Open Scope nat_scope.

(* ===================================================================== *)
(** * Python strings *)
(* ===================================================================== *)

Module PyStr.

Definition code (c : ascii) : nat := nat_of_ascii c.

Definition between (lo hi : nat) (c : ascii) : bool :=
  (lo <=? code c) && (code c <=? hi).

(** [str.isspace] on the 8-bit range: TAB..CR, FS..US, SPACE, NEL, NBSP. *)
Definition is_space (c : ascii) : bool :=
  between 9 13 c || between 28 32 c || (code c =? 133) || (code c =? 160).

Definition is_digit (c : ascii) : bool := between 48 57 c.
Definition is_upper (c : ascii) : bool := between 65 90 c.
Definition is_lower (c : ascii) : bool := between 97 122 c.

(** [\w] of [re] on ASCII text: letters, digits and the underscore. *)
Definition is_word (c : ascii) : bool :=
  is_digit c || is_upper c || is_lower c || (code c =? 95).

Definition is_ascii (c : ascii) : bool := code c <? 128.

Fixpoint all (p : ascii -> bool) (s : string) : bool :=
  match s with
  | EmptyString => true
  | String c s' => p c && all p s'
  end.

Definition upper_char (c : ascii) : ascii :=
  if is_lower c then ascii_of_nat (code c - 32) else c.

(** [s.upper()] on ASCII text: the letters [a]..[z] are mapped, every
    other character is kept. *)
Fixpoint upper (s : string) : string :=
  match s with
  | EmptyString => EmptyString
  | String c s' => String (upper_char c) (upper s')
  end.

(** Python truthiness of a string: [if s:] *)
Definition truthy (s : string) : bool :=
  match s with EmptyString => false | _ => true end.

(** [s.lstrip()] *)
Fixpoint lstrip (s : string) : string :=
  match s with
  | EmptyString => EmptyString
  | String c s' => if is_space c then lstrip s' else s
  end.

(** [s.rstrip()] *)
Fixpoint rstrip (s : string) : string :=
  match s with
  | EmptyString => EmptyString
  | String c s' =>
      match rstrip s' with
      | EmptyString => if is_space c then EmptyString else String c EmptyString
      | r => String c r
      end
  end.

(** [s.strip()] *)
Definition strip (s : string) : string := rstrip (lstrip s).

(** [s.startswith(p)] *)
Definition startswith (s p : string) : bool := String.prefix p s.

(** [s[n:]] for [0 <= n] *)
Fixpoint drop (n : nat) (s : string) : string :=
  match n, s with
  | O, _ => s
  | S n', String _ s' => drop n' s'
  | S _, EmptyString => EmptyString
  end.

(** [s[:n]] for [0 <= n] *)
Fixpoint take (n : nat) (s : string) : string :=
  match n, s with
  | S n', String c s' => String c (take n' s')
  | _, _ => EmptyString
  end.

(** [sep.join(l)] *)
Fixpoint join (sep : string) (l : list string) : string :=
  match l with
  | [] => EmptyString
  | [x] => x
  | x :: l' => (x ++ sep ++ join sep l')%string
  end.

(** [s.split()] : the maximal runs of non-whitespace characters. *)
Fixpoint split_ws_aux (cur : string) (s : string) : list string :=
  match s with
  | EmptyString => if truthy cur then [cur] else []
  | String c s' =>
      if is_space c
      then (if truthy cur then cur :: split_ws_aux EmptyString s'
            else split_ws_aux EmptyString s')
      else split_ws_aux (cur ++ String c EmptyString)%string s'
  end.

Definition split_ws (s : string) : list string := split_ws_aux EmptyString s.

End PyStr.

(* ===================================================================== *)
(** * Regular expressions ([re]), the fragment used by the sources *)
(* ===================================================================== *)

Module Re.
Import PyStr.

(** A character class is a list of inclusive code ranges, possibly
    negated ([[^...]]). *)
Definition ranges := list (nat * nat).

Definition in_ranges (rs : ranges) (c : ascii) : bool :=
  existsb (fun r => between (fst r) (snd r) c) rs.

Definition in_class (neg : bool) (rs : ranges) (c : ascii) : bool :=
  xorb neg (in_ranges rs c).

Inductive regex : Type :=
  | Eps                                      (* empty pattern *)
  | Chars (neg : bool) (rs : ranges)         (* [..], [^..], \d, \s, literal *)
  | WordB                                    (* \b *)
  | Bol                                      (* ^ (no MULTILINE flag) *)
  | Seq (r1 r2 : regex)                      (* r1 r2 *)
  | Alt (r1 r2 : regex)                      (* r1 | r2 *)
  | Rep (r : regex) (lo extra : nat)         (* greedy r{lo,lo+extra} *)
  | Many (neg : bool) (rs : ranges).         (* greedy [..]* *)

(** [\b] between the previous character (if any) and the rest. *)
Definition word_before (prev : option ascii) : bool :=
  match prev with Some c => is_word c | None => false end.

Definition word_after (s : string) : bool :=
  match s with String c _ => is_word c | EmptyString => false end.

Definition at_boundary (prev : option ascii) (s : string) : bool :=
  xorb (word_before prev) (word_after s).

Section Matcher.
Context {A : Type}.

(** What remains to be matched: it receives the character just before
  the position reached, and the text from there. *)
Definition cont : Type := option ascii -> string -> option A.

Definition orelse (x y : option A) : option A :=
  match x with Some _ => x | None => y end.

Section Repeat.
Variable step : option ascii -> string -> cont -> option A.
Variable k : cont.

(** Up to [n] further iterations, as many as possible first. *)
Fixpoint more (n : nat) (p : option ascii) (t : string) : option A :=
  match n with
  | O => k p t
  | S n' => orelse (step p t (more n')) (k p t)
  end.

(** [n] mandatory iterations, then up to [extra] more. *)
Fixpoint must (extra n : nat) (p : option ascii) (t : string) : option A :=
  match n with
  | O => more extra p t
  | S n' => step p t (must extra n')
  end.
End Repeat.

(** Any number of characters of a class, as many as possible first. *)
Fixpoint many (neg : bool) (rs : ranges) (k : cont)
         (p : option ascii) (t : string) : option A :=
  match t with
  | String c t' =>
      if in_class neg rs c then orelse (many neg rs k (Some c) t') (k p t)
      else k p t
  | EmptyString => k p t
  end.

(** Backtracking matcher in continuation-passing style: alternatives are
  tried left to right, repetitions are greedy.  [prev] is the character
  just before the current position. *)
Fixpoint rmatch (r : regex) (prev : option ascii) (s : string) (k : cont)
         {struct r} : option A :=
  match r with
  | Eps => k prev s
  | Chars neg rs =>
      match s with
      | String c s' => if in_class neg rs c then k (Some c) s' else None
      | EmptyString => None
      end
  | WordB => if at_boundary prev s then k prev s else None
  | Bol => match prev with None => k prev s | Some _ => None end
  | Seq r1 r2 => rmatch r1 prev s (fun p' s' => rmatch r2 p' s' k)
  | Alt r1 r2 => orelse (rmatch r1 prev s k) (rmatch r2 prev s k)
  | Rep r1 lo extra => must (rmatch r1) k extra lo prev s
  | Many neg rs => many neg rs k prev s
  end.

End Matcher.

(** The match found at the current position, as the text left after it. *)
Definition match_here (r : regex) (prev : option ascii) (s : string)
  : option string :=
  rmatch r prev s (fun _ rest => Some rest).

(** [re.search(r, s)] scanning from a position whose previous character is
    [prev]: the leftmost match, returned as [m.group(0)]. *)
Fixpoint search_from (r : regex) (prev : option ascii) (s : string)
  : option string :=
  match match_here r prev s with
  | Some rest => Some (take (String.length s - String.length rest) s)
  | None =>
      match s with
      | String c s' => search_from r (Some c) s'
      | EmptyString => None
      end
  end.

Definition search (r : regex) (s : string) : option string :=
  search_from r None s.

(** Truthiness of what [re.search] returns: [if re.search(...):] *)
Definition found (m : option string) : bool :=
  match m with Some _ => true | None => false end.

(** The match found at the current position, with the character just
    before the position reached. *)
Definition match_here_ctx (r : regex) (prev : option ascii) (s : string)
  : option (option ascii * string) :=
  rmatch r prev s (fun p rest => Some (p, rest)).

Definition advance (f : option ascii -> string -> string) (s : string)
  : string :=
  match s with
  | EmptyString => EmptyString
  | String c s' => String c (f (Some c) s')
  end.

(** [re.sub(r, repl, s)] with a literal replacement: the non-overlapping
    matches, leftmost first, are replaced.  Every pattern the sources pass
    to [re.sub] consumes at least one character; at a position where the
    pattern would match the empty text the model copies the character. *)
Fixpoint sub_from (fuel : nat) (r : regex) (repl : string)
         (prev : option ascii) (s : string) : string :=
  match fuel with
  | O => s
  | S fuel' =>
      match match_here_ctx r prev s with
      | Some (p, rest) =>
          if String.length rest <? String.length s
          then (repl ++ sub_from fuel' r repl p rest)%string
          else advance (sub_from fuel' r repl) s
      | None => advance (sub_from fuel' r repl) s
      end
  end.

Definition sub (r : regex) (repl : string) (s : string) : string :=
  sub_from (S (String.length s)) r repl None s.

(** ** Pattern combinators *)

Definition lit (c : ascii) : regex := Chars false [(code c, code c)].

Fixpoint word (s : string) : regex :=
  match s with
  | EmptyString => Eps
  | String c EmptyString => lit c
  | String c s' => Seq (lit c) (word s')
  end.

Fixpoint alts (l : list regex) : regex :=
  match l with
  | [] => Chars false []
  | [r] => r
  | r :: l' => Alt r (alts l')
  end.

Fixpoint seqs (l : list regex) : regex :=
  match l with
  | [] => Eps
  | [r] => r
  | r :: l' => Seq r (seqs l')
  end.

Definition digit : regex := Chars false [(48, 57)].            (* \d *)
Definition AZ : regex := Chars false [(65, 90)].               (* [A-Z] *)
Definition AZ09 : regex := Chars false [(65, 90); (48, 57)].   (* [A-Z0-9] *)
Definition exactly (r : regex) (n : nat) : regex := Rep r n 0. (* r{n} *)
Definition opt (r : regex) : regex := Rep r 0 1.               (* r? *)
Definition WS : ranges := [(9, 13); (28, 32); (133, 133); (160, 160)].
Definition space : regex := Chars false WS.                    (* \s *)
Definition spaces : regex := Many false WS.                    (* \s* *)
Definition plus (neg : bool) (rs : ranges) : regex :=          (* [..]+ *)
  Seq (Chars neg rs) (Many neg rs).
Definition bounded (r : regex) : regex := seqs [WordB; r; WordB]. (* \br\b *)

End Re.

(* ===================================================================== *)
(** * Python dictionaries with string keys and string values *)
(* ===================================================================== *)

Module PyDict.

(** Bindings in insertion order; a key is bound at most once in every
    dictionary built by the operations below. *)
Definition dict := list (string * string).

Definition empty : dict := [].

(** [d.get(k)] *)
Fixpoint get (d : dict) (k : string) : option string :=
  match d with
  | [] => None
  | (k', v) :: d' => if String.eqb k' k then Some v else get d' k
  end.

(** [k in d] *)
Definition mem (d : dict) (k : string) : bool :=
  match get d k with Some _ => true | None => false end.

(** [d[k] = v] : overwrite in place, or append a new binding. *)
Fixpoint set (d : dict) (k v : string) : dict :=
  match d with
  | [] => [(k, v)]
  | (k', v') :: d' =>
      if String.eqb k' k then (k', v) :: d' else (k', v') :: set d' k v
  end.

(** [d.update(e)] *)
Definition update (d e : dict) : dict :=
  fold_left (fun acc kv => set acc (fst kv) (snd kv)) e d.

(** [d.setdefault(k, v)] (the returned value is not used by the sources) *)
Definition setdefault (d : dict) (k v : string) : dict :=
  if mem d k then d else set d k v.

(** [list(d.keys())] *)
Definition keys (d : dict) : list string := map fst d.

(** A dictionary proper: no key bound twice. *)
Definition wf (d : dict) : Prop := NoDup (keys d).

End PyDict.

(* ===================================================================== *)
(** * The validation patterns

  [services/ocr_merge.py], [services/extractor.py] and
  [services/parsers.py] each define these constants with the same text
  (the parsers' [VIG_REGEX] omits the optional blanks around the dash).
  The en dash of [[-–]] lies outside the 8-bit characters of [string] and
  is not representable here; all text that reaches the patterns has been
  through [unidecode], which turns it into [-]. *)
(* ===================================================================== *)

Module Patterns.
Import Re.

(** [(AS|BC|BS|...|NE)] *)
Definition STATE_CODES : list string :=
  ["AS"; "BC"; "BS"; "CC"; "CS"; "CH"; "CL"; "CM"; "CO"; "DF"; "DG"; "GJ";
   "GT"; "GR"; "HG"; "JC"; "MC"; "MN"; "MS"; "NT"; "NL"; "OC"; "PL"; "QT";
   "QR"; "SP"; "SL"; "SR"; "TC"; "TS"; "TL"; "VZ"; "YN"; "ZS"; "NE"].

(** [(19|20)] *)
Definition century : regex := Alt (word "19") (word "20").

(** [[A-Z]{4}\d{6}[HM](AS|...|NE)[A-Z]{3}[0-9A-Z]\d] *)
Definition CURP_REGEX : regex :=
  seqs [exactly AZ 4; exactly digit 6; Chars false [(72, 72); (77, 77)];
        alts (map word STATE_CODES); exactly AZ 3;
        Chars false [(48, 57); (65, 90)]; digit].

(** [\b(19|20)\d{2}\b] *)
Definition YEAR_REGEX : regex :=
  seqs [WordB; century; exactly digit 2; WordB].

(** [[\/\-]] *)
Definition date_sep : regex := Chars false [(47, 47); (45, 45)].

(** [\b\d{2}[\/\-]\d{2}[\/\-](19|20)\d{2}\b] *)
Definition DATE_REGEX : regex :=
  seqs [WordB; exactly digit 2; date_sep; exactly digit 2; date_sep;
        century; exactly digit 2; WordB].

(** [\b(19|20)\d{2}(?:\s*[-–]\s*(19|20)\d{2})?\b] *)
Definition VIG_REGEX : regex :=
  seqs [WordB; century; exactly digit 2;
        opt (seqs [spaces; lit "-"; spaces; century; exactly digit 2]);
        WordB].

(** [\b\d{1,5}\b] *)
Definition SECCION_REGEX : regex := seqs [WordB; Rep digit 1 4; WordB].

(** [\b(H|M|HOMBRE|MUJER)\b] *)
Definition SEXO_REGEX : regex :=
  seqs [WordB; alts [word "H"; word "M"; word "HOMBRE"; word "MUJER"]; WordB].

(** [\b[A-Z0-9]{8,20}\b] *)
Definition CLAVE_REGEX : regex := seqs [WordB; Rep AZ09 8 12; WordB].

End Patterns.

(* ===================================================================== *)
(** * services/ocr_merge.py *)
(* ===================================================================== *)

Module OcrMerge.
Import PyStr PyDict Patterns.

(** One entry of the decision log:
    [{"field": name, "chosen_from": src, "value": val}]. *)
Record decision : Type := mkDecision
  { field : string; chosen_from : string; value : string }.

(** The two objects [_choose] mutates: [out_fields] and [decisions]. *)
Definition state : Type := dict * list decision.

(** A command over the merge state, and sequencing of commands. *)
Definition cmd : Type := state -> state.
Definition skip : cmd := fun st => st.
Definition andthen (c1 c2 : cmd) : cmd := fun st => c2 (c1 st).
Notation "c1 ;; c2" := (andthen c1 c2) (at level 61, right associativity).

(** [_ok]: the pattern is searched in [val.upper()].  With [upper] and
    the word boundary of the matcher this is the test of the source on
    ASCII values. *)
Definition _ok (pat : option Re.regex) (val : string) : bool :=
  if negb (truthy val) then false
  else match pat with
       | None => true
       | Some p =>
           match Re.search p (upper val) with Some _ => true | None => false end
       end.

(** [(fields.get(name) or "").strip()] *)
Definition read (fields : dict) (name : string) : string :=
  strip (match get fields name with Some v => v | None => "" end).

Definition _choose (name : string) (pat : option Re.regex)
           (fields_tpl fields_auto fields_text : dict) : cmd :=
  fun st =>
    let t := read fields_tpl name in
    let a := read fields_auto name in
    let x := read fields_text name in
    let init := ("none", "") in
    let '(src, val) :=
      match pat with
      | Some _ =>
          if _ok pat t then ("template", t)
          else if _ok pat a then ("auto", a)
          else if _ok pat x then ("text", x)
          else if truthy t then ("template", t)
          else if truthy a then ("auto", a)
          else if truthy x then ("text", x)
          else init
      | None =>
          if truthy t then ("template", t)
          else if truthy a then ("auto", a) else ("text", x)
      end in
    (set (fst st) name val, snd st ++ [mkDecision name src val]).

Definition expected_keys_map : list (string * list string) :=
  [("ine", ["nombre"; "sexo"; "domicilio"; "clave_elector"; "curp";
            "anio_registro"; "fecha_nacimiento"; "seccion"; "vigencia"]);
   ("curp", ["curp"; "nombre"; "entidad_registro"]);
   ("acta", ["curp"; "entidad_registro"; "municipio_registro"; "nombres";
             "primer_apellido"; "segundo_apellido"; "sexo";
             "fecha_nacimiento"; "lugar_nacimiento"]);
   ("otros", ["titulo"; "fecha_documento"; "rfc_detectado";
              "curp_detectada"; "folio"; "emisor"])].

(** [expected_keys_map.get(tipo_documento, [])] *)
Fixpoint expected_keys (m : list (string * list string)) (tipo : string)
  : list string :=
  match m with
  | [] => []
  | (t, ks) :: m' => if String.eqb t tipo then ks else expected_keys m' tipo
  end.

(** The list the [acta] branch loops over. *)
Definition acta_fields : list (string * option Re.regex) :=
  [("curp", Some CURP_REGEX); ("entidad_registro", None);
   ("municipio_registro", None); ("nombres", None);
   ("primer_apellido", None); ("segundo_apellido", None);
   ("sexo", Some SEXO_REGEX); ("fecha_nacimiento", Some DATE_REGEX);
   ("lugar_nacimiento", None)].

(** [for k, pat in l: _choose(k, pat, ...)] *)
Definition choose_each (l : list (string * option Re.regex))
           (fields_tpl fields_auto fields_text : dict) : cmd :=
  fun st =>
    fold_left
      (fun st kp => _choose (fst kp) (snd kp) fields_tpl fields_auto fields_text st)
      l st.

(** The provenance recorded for a key of the catch-all type. *)
Definition otros_src (fields_tpl fields_auto fields_text : dict) (k : string)
  : string :=
  if mem fields_text k then "text"
  else if mem fields_auto k then "auto"
  else if mem fields_tpl k then "template" else "none".

Definition smart_merge_fields (tipo_documento : string)
           (fields_tpl fields_auto fields_text : dict)
  : dict * list decision :=
  let choose name pat := _choose name pat fields_tpl fields_auto fields_text in
  let body : cmd :=
    if String.eqb tipo_documento "ine" then
      choose "nombre" None ;;
      choose "sexo" (Some SEXO_REGEX) ;;
      choose "domicilio" None ;;
      choose "clave_elector" (Some CLAVE_REGEX) ;;
      choose "curp" (Some CURP_REGEX) ;;
      choose "anio_registro" (Some YEAR_REGEX) ;;
      choose "fecha_nacimiento" (Some DATE_REGEX) ;;
      choose "seccion" (Some SECCION_REGEX) ;;
      choose "vigencia" (Some VIG_REGEX)
    else if String.eqb tipo_documento "curp" then
      choose "curp" (Some CURP_REGEX) ;;
      choose "nombre" None ;;
      choose "entidad_registro" None
    else if String.eqb tipo_documento "acta" then
      choose_each acta_fields fields_tpl fields_auto fields_text
    else if String.eqb tipo_documento "otros" then
      fun st =>
        let merged := update (update (update empty fields_tpl) fields_auto)
                             fields_text in
        fold_left
          (fun st kv =>
             let k := fst kv in
             let v := snd kv in
             let src := otros_src fields_tpl fields_auto fields_text k in
             (set (fst st) k v, snd st ++ [mkDecision k src v]))
          merged st
    else skip in
  let '(fields, decisions) := body (empty, []) in
  let fields :=
    fold_left (fun f k => setdefault f k "")
              (expected_keys expected_keys_map tipo_documento) fields in
  (fields, decisions).

End OcrMerge.

(* ===================================================================== *)
(** * Python floats and the JSON-like values that carry geometry *)
(* ===================================================================== *)

Module PyFloat.

(** A Python [float] is an IEEE 754 binary64 number: the kernel's
    primitive floats, with their comparisons ([nan] compares false with
    everything) and correctly rounded arithmetic. *)
Definition float : Type := PrimFloat.float.

Definition ltb (a b : float) : bool := PrimFloat.ltb a b.    (* a < b  *)
Definition leb (a b : float) : bool := PrimFloat.leb a b.    (* a <= b *)
Definition eqb (a b : float) : bool := PrimFloat.eqb a b.    (* a == b *)
Definition add (a b : float) : float := PrimFloat.add a b.   (* a + b  *)
Definition half (a : float) : float := PrimFloat.div a 2%float. (* a / 2.0 *)

Definition zero : float := 0%float.
Definition one : float := 1%float.
Definition nan : float := PrimFloat.nan.

(** [min(a, b)] : the builtin keeps its first argument unless the second
    is smaller. *)
Definition min2 (a b : float) : float := if ltb b a then b else a.

(** [max(a, b)] : the builtin keeps its first argument unless the second
    is greater. *)
Definition max2 (a b : float) : float := if ltb a b then b else a.

(** [float(n)] for a Python [int]: the magnitude is rounded to 53
    significant bits, ties to even, as [(mantissa, shift)]. *)
Definition round53 (n : Z) : Z * Z :=
  let bits := (Z.log2 n + 1)%Z in
  if (bits <=? 53)%Z then (n, 0%Z)
  else
    let sh := (bits - 53)%Z in
    let q := Z.shiftr n sh in
    let r := Z.land n (Z.ones sh) in
    let mid := Z.shiftl 1 (sh - 1) in
    let q' := if (mid <? r)%Z || ((r =? mid)%Z && Z.odd q) then (q + 1)%Z else q in
    (q', sh).

(** [None] stands for [OverflowError] (the rounded magnitude reaches
    [2**1024]). *)
Definition of_int (z : Z) : option float :=
  let '(m, sh) := round53 (Z.abs z) in
  if (Z.shiftl 1 1024 <=? Z.shiftl m sh)%Z then None
  else
    let f := FloatOps.Z.ldexp (PrimFloat.of_uint63 (Uint63.of_Z m)) sh in
    Some (if (z <? 0)%Z then PrimFloat.opp f else f).

End PyFloat.

Module PyVal.
Import PyFloat.

(** The values an OCR export can hold where a geometry is expected.
    [VSeq] stands for both [list] and [tuple]: the sources test
    [isinstance(x, (list, tuple))] only.  Dictionary keys are strings. *)
#[warnings="-register-all"]
Inductive value : Type :=
  | VNone
  | VBool (b : bool)
  | VInt (z : Z)
  | VFloat (f : float)
  | VStr (s : string)
  | VSeq (l : list value)
  | VDict (d : list (string * value)).

(** [d.get(k)] with the default [None] *)
Fixpoint dict_get (d : list (string * value)) (k : string) : value :=
  match d with
  | [] => VNone
  | (k', v) :: d' => if String.eqb k' k then v else dict_get d' k
  end.

(** [isinstance(v, (int, float))]; [bool] is a subclass of [int]. *)
Definition is_number (v : value) : bool :=
  match v with VBool _ | VInt _ | VFloat _ => true | _ => false end.

Section Float.
  (** [float(s)] for a string is left to the interpreter: [None] stands
      for [ValueError]. *)
Variable float_of_str : string -> option float.

(** [float(x)]; [None] stands for the exception raised. *)
Definition to_float (x : value) : option float :=
  match x with
  | VFloat f => Some f
  | VInt z => of_int z
  | VBool b => Some (if b then one else zero)
  | VStr s => float_of_str s
  | VNone | VSeq _ | VDict _ => None
  end.
End Float.

End PyVal.

(* ===================================================================== *)
(** * services/parsers.py *)
(* ===================================================================== *)

Module Parsers.
Import PyStr PyFloat PyVal Patterns.

(** The result of a call: a returned value or an exception. *)
Inductive outcome (A : Type) : Type :=
  | Returns (a : A)
  | Raises (exn : string).
Arguments Returns {A} a.
Arguments Raises {A} exn.

(** [(xmin, ymin, xmax, ymax)] *)
Definition rect : Type := float * float * float * float.

Definition unit_box : rect := (zero, zero, one, one).

(** [x[i]] on a sequence value, used only under a length guard. *)
Definition items (x : value) : list value :=
  match x with VSeq l => l | _ => [] end.
Definition item (x : value) (i : nat) : value := nth i (items x) VNone.

(** [isinstance(v, (list, tuple)) and len(v) == 2] *)
Definition is_pair (v : value) : bool :=
  match v with VSeq l => length l =? 2 | _ => false end.

(** The local [_flatten]: the leaves of nested lists and tuples, in order. *)
Fixpoint _flatten (x : value) : list value :=
  match x with
  | VSeq l => flat_map _flatten l
  | _ => [x]
  end.

(** The tail of [_coerce_geom]: order the endpoints, then clamp. *)
Definition clamp (v : float) : float := max2 zero (min2 one v).

Definition order_and_clamp (x0 y0 x1 y1 : float) : rect :=
  let '(xmin, xmax) := if leb x0 x1 then (x0, x1) else (x1, x0) in
  let '(ymin, ymax) := if leb y0 y1 then (y0, y1) else (y1, y0) in
  (clamp xmin, clamp ymin, clamp xmax, clamp ymax).

Section Externals.
  (** [unidecode.unidecode] and [float] on strings come from outside the
      repository. *)
Variable unidecode : string -> string.
Variable float_of_str : string -> option float.

Definition _norm (s : string) : string :=
  let s := upper (unidecode s) in
  let s := strip (Re.sub (Re.plus false Re.WS) " " s) in
  s.

Definition _clean_inline (s : string) : string :=
  let s := _norm s in
  let s := Re.sub (Re.Seq Re.space (Re.Seq Re.space Re.spaces)) " " s in
  s.

(** The local [_to_float] called with a float default. *)
Definition _to_float (x : value) (default : float) : float :=
  match to_float float_of_str x with Some f => f | None => default end.

(** [nums]: the leaves [_to_float(z, None)] does not map to [None]. *)
Fixpoint numeric_leaves (flat : list value) : list float :=
  match flat with
  | [] => []
  | z :: flat' =>
      match to_float float_of_str z with
      | Some val => val :: numeric_leaves flat'
      | None => numeric_leaves flat'
      end
  end.

Definition _coerce_geom (geom : value) : outcome rect :=
  match geom with
  | VDict d =>
      let x0 := _to_float (dict_get d "x0") zero in
      let y0 := _to_float (dict_get d "y0") zero in
      let x1 := _to_float (dict_get d "x1") one in
      let y1 := _to_float (dict_get d "y1") one in
      Returns (order_and_clamp x0 y0 x1 y1)
  | VSeq l =>
      if (length l =? 4) && forallb is_number l then
        (* x0, y0, x1, y1 = map(float, geom) *)
        match map (to_float float_of_str) l with
        | [Some x0; Some y0; Some x1; Some y1] =>
            Returns (order_and_clamp x0 y0 x1 y1)
        | _ => Raises "OverflowError"
        end
      else if (length l =? 2) && forallb is_pair l then
        let x0 := _to_float (item (item geom 0) 0) zero in
        let y0 := _to_float (item (item geom 0) 1) zero in
        let x1 := _to_float (item (item geom 1) 0) one in
        let y1 := _to_float (item (item geom 1) 1) one in
        Returns (order_and_clamp x0 y0 x1 y1)
      else
        let flat := _flatten geom in
        let nums := numeric_leaves flat in
        if 4 <=? length nums then
          match firstn 4 nums with
          | [x0; y0; x1; y1] => Returns (order_and_clamp x0 y0 x1 y1)
          | _ => Raises "ValueError"
          end
        else Returns (order_and_clamp zero zero one one)
  | _ => Returns (order_and_clamp zero zero one one)
  end.

Definition detect_type (text : string) : string :=
  let T := _norm text in
  if Re.found (Re.search (Re.bounded (Re.word "ACTA DE NACIMIENTO")) T)
     || Re.found (Re.search (Re.bounded (Re.word "OFICIAL DEL REGISTRO")) T)
  then "acta"
  else if Re.found (Re.search
                   (Re.Alt (Re.bounded (Re.word "INSTITUTO NACIONAL ELECTORAL"))
                           (Re.bounded (Re.word "CREDENCIAL PARA VOTAR"))) T)
  then "ine"
  else if Re.found (Re.search
                   (Re.Alt (Re.bounded (Re.word "CLAVE UNICA DE REGISTRO DE POBLACION"))
                           (Re.seqs [Re.WordB; Re.WordB; Re.word "CURP"; Re.WordB])) T)
  then "curp"
  else "auto".

(** ** The layout model *)

Record Word : Type := mkWord
  { text : string; norm : string; page : nat;
    xmin : float; ymin : float; xmax : float; ymax : float;
    cx : float; cy : float }.

(** [Word.__init__] *)
Definition new_Word (text : string) (page : nat) (geom : value)
  : outcome Word :=
  match _coerce_geom geom with
  | Returns (x0, y0, x1, y1) =>
      Returns (mkWord text (_norm text) page x0 y0 x1 y1
                      (half (add x0 x1)) (half (add y0 y1)))
  | Raises e => Raises e
  end.

(** A [Line] object; [lid] stands for the identity of the object, which
    [_collect_below_until_next_label] tests with [is]. *)
Record Line : Type := mkLine
  { lid : nat; lpage : nat; words : list Word;
    lymin : float; lymax : float }.

Definition new_Line (id page : nat) : Line := mkLine id page [] one zero.

(** [Line.add] *)
Definition Line_add (L : Line) (w : Word) : Line :=
  mkLine (lid L) (lpage L) (words L ++ [w])
         (min2 (lymin L) (ymin w)) (max2 (lymax L) (ymax w)).

(** [list.sort(key=...)]: a stable sort, here by insertion. *)
Fixpoint insert_by {A : Type} (lt : A -> A -> bool) (x : A) (l : list A)
  : list A :=
  match l with
  | [] => [x]
  | y :: l' => if lt x y then x :: l else y :: insert_by lt x l'
  end.

Definition sort_by {A : Type} (lt : A -> A -> bool) (l : list A) : list A :=
  fold_left (fun acc x => insert_by lt x acc) l [].

(** [Line.sort]: key [(w.xmin, w.cx)] *)
Definition Line_sort (L : Line) : Line :=
  let lt (u v : Word) :=
    ltb (xmin u) (xmin v) || (eqb (xmin u) (xmin v) && ltb (cx u) (cx v)) in
  mkLine (lid L) (lpage L) (sort_by lt (words L)) (lymin L) (lymax L).

(** The OCR export: pages, blocks, lines, words.  A missing ["value"] is
    [""], a missing or null ["geometry"] is [VNone]. *)
Record ocr_word : Type := { w_value : string; w_geometry : value }.
Record ocr_line : Type := { l_words : list ocr_word }.
Record ocr_block : Type := { b_lines : list ocr_line }.
Record ocr_page : Type := { p_blocks : list ocr_block }.
Record ocr_export : Type := { pages : list ocr_page }.

Definition is_None (v : value) : bool :=
  match v with VNone => true | _ => false end.

Definition add_words (pidx : nat) (L : Line) (ws : list ocr_word) : Line :=
  fold_left
    (fun L w =>
       let val := w_value w in
       let geom := w_geometry w in
       if negb (truthy val) || is_None geom then L
       else match new_Word val pidx geom with
            | Returns wd => Line_add L wd
            | Raises _ => L
            end)
    ws L.

Definition _build_lines_from_export (export : ocr_export) : list Line :=
  let lines :=
    fold_left
      (fun lines ip =>
         let pidx := fst ip in
         fold_left
           (fun lines block =>
              fold_left
                (fun lines ln =>
                   let L := add_words pidx (new_Line (length lines) pidx)
                                      (l_words ln) in
                   match words L with
                   | [] => lines
                   | _ => lines ++ [Line_sort L]
                   end)
                (b_lines block) lines)
           (p_blocks (snd ip)) lines)
      (combine (seq 0 (length (pages export))) (pages export)) [] in
  let mid (L : Line) := half (add (lymin L) (lymax L)) in
  let lt (L1 L2 : Line) :=
    (lpage L1 <? lpage L2)
    || ((lpage L1 =? lpage L2) && ltb (mid L1) (mid L2)) in
  sort_by lt lines.

(** ** The label-anchor locator *)

(** The inner [while] of [_match_sequence]: [ws] is [line.words[k:]]. *)
Fixpoint scan_token (ws : list Word) (k : nat) (token : string)
  : option nat :=
  match ws with
  | [] => None
  | w :: ws' =>
      if String.eqb (norm w) token then Some (S k)
      else scan_token ws' (S k) token
  end.

(** The [for token in seq] loop: the index after the last match. *)
Fixpoint match_tokens (ws : list Word) (sq : list string) (k : nat)
  : option nat :=
  match sq with
  | [] => Some k
  | token :: sq' =>
      match scan_token (skipn k ws) k token with
      | Some k' => match_tokens ws sq' k'
      | None => None
      end
  end.

(** [min(...)] and [max(...)] over a non-empty generator *)
Definition min_of (l : list float) : float :=
  match l with [] => nan | x :: l' => fold_left min2 l' x end.
Definition max_of (l : list float) : float :=
  match l with [] => nan | x :: l' => fold_left max2 l' x end.

Definition _match_sequence (line : Line) (sq : list string) (start_k : nat)
  : option (nat * nat * float * float) :=
  match match_tokens (words line) sq start_k with
  | None => None
  | Some k =>
      let k_ini := start_k in
      let k_end := k - 1 in
      let span := firstn (k_end + 1 - k_ini) (skipn k_ini (words line)) in
      Some (k_ini, k_end, min_of (map xmin span), max_of (map xmax span))
  end.

Record label_hit : Type := mkHit
  { h_page : nat; h_line : Line; h_line_idx : nat; h_k0 : nat; h_k1 : nat;
    h_xmin : float; h_xmax : float; h_ymin : float; h_ymax : float }.

(** [for seq in aliases] at word [i] of [L]; every configured alias is
    non-empty, so [seq[0]] does not raise. *)
Fixpoint try_aliases (L : Line) (i : nat) (w : Word)
         (aliases : list (list string)) : option label_hit :=
  match aliases with
  | [] => None
  | sq :: aliases' =>
      match sq with
      | tok0 :: _ =>
          if String.eqb (norm w) tok0 then
            match _match_sequence L sq i with
            | Some (k0, k1, x0, x1) =>
                Some (mkHit (lpage L) L i k0 k1 x0 x1 (lymin L) (lymax L))
            | None => try_aliases L i w aliases'
            end
          else try_aliases L i w aliases'
      | [] => try_aliases L i w aliases'
      end
  end.

(** [for i, w in enumerate(L.words)]; [ws] is [L.words[i:]]. *)
Fixpoint try_words (L : Line) (i : nat) (ws : list Word)
         (aliases : list (list string)) : option label_hit :=
  match ws with
  | [] => None
  | w :: ws' =>
      match try_aliases L i w aliases with
      | Some h => Some h
      | None => try_words L (S i) ws' aliases
      end
  end.

Fixpoint _find_label (lines : list Line) (aliases : list (list string))
  : option label_hit :=
  match lines with
  | [] => None
  | L :: lines' =>
      match try_words L 0 (words L) aliases with
      | Some h => Some h
      | None => _find_label lines' aliases
      end
  end.

(** ** The field value collector *)

Definition member (x : string) (l : list string) : bool :=
  existsb (String.eqb x) l.

Definition _line_contains_label (L : Line) (all_label_tokens_first : list string)
  : bool :=
  existsb (fun w => member (norm w) all_label_tokens_first)
          (firstn 3 (words L)).

Fixpoint right_words (ws : list Word) (limit : float) (stop_at : list string)
  : list string :=
  match ws with
  | [] => []
  | w :: ws' =>
      if leb (xmin w) limit then right_words ws' limit stop_at
      else if member (norm w) stop_at then []
      else text w :: right_words ws' limit stop_at
  end.

Definition _collect_right_same_line (hit : label_hit) (stop_at : list string)
  : string :=
  let L := h_line hit in
  let out := right_words (words L) (add (h_xmax hit) 0x1.47ae147ae147bp-7%float) (* + 0.01 *) stop_at in
  _clean_inline (join " " out).

Fixpoint below_words (ls : list Line) (hit : label_hit)
         (all_label_tokens_first : list string) (max_lines : nat)
         (was_found : bool) (current_count : nat) : list string :=
  match ls with
  | [] => []
  | L :: ls' =>
      if negb (lpage L =? h_page hit) then
        below_words ls' hit all_label_tokens_first max_lines was_found current_count
      else if negb was_found then
        below_words ls' hit all_label_tokens_first max_lines
                    (lid L =? lid (h_line hit)) current_count
      else if max_lines <=? current_count then []
      else if _line_contains_label L all_label_tokens_first then []
      else map text (words L)
           ++ below_words ls' hit all_label_tokens_first max_lines true
                          (S current_count)
  end.

Definition _collect_below_until_next_label (lines : list Line)
             (hit : label_hit) (all_label_tokens_first : list string)
             (max_lines : nat) : string :=
    _clean_inline
      (join " " (below_words lines hit all_label_tokens_first max_lines false 0)).

(** ** Label configuration *)

Definition labels_t : Type := list (string * list (list string)).

Definition N_tilde : string := String (ascii_of_nat 209) EmptyString.
Definition O_acute : string := String (ascii_of_nat 211) EmptyString.

Definition INE_LABELS : labels_t :=
  [("nombre", [["NOMBRE"]]);
   ("sexo", [["SEXO"]]);
   ("domicilio", [["DOMICILIO"]]);
   ("clave_elector", [["CLAVE"; "DE"; "ELECTOR"]]);
   ("curp", [["CURP"]]);
   ("anio_registro",
    [[("A" ++ N_tilde ++ "O")%string; "DE"; "REGISTRO"];
     ["ANIO"; "DE"; "REGISTRO"];
     ["ANO"; "DE"; "REGISTRO"];
     ["ANODEREGISTRO"];
     ["ANOI"; "DE"; "REGISTRO"]]);
   ("fecha_nacimiento",
    [["FECHA"; "DE"; "NACIMIENTO"]; ["FECHA"; "DENACIMIENTO"]]);
   ("seccion", [["SECCION"]; [("SECCI" ++ O_acute ++ "N")%string]]);
   ("vigencia", [["VIGENCIA"]])].

Definition CURP_LABELS : labels_t :=
  [("curp", [["CURP"];
             ["CLAVE"; "UNICA"; "DE"; "REGISTRO"; "DE"; "POBLACION"]]);
   ("nombre", [["NOMBRE"]; ["NOMBRES"]]);
   ("entidad_registro",
    [["ENTIDAD"; "DE"; "REGISTRO"]; ["LUGAR"; "DE"; "REGISTRO"]])].

Definition ACTA_LABELS : labels_t :=
  [("curp", [["CLAVE"; "UNICA"; "DE"; "REGISTRO"; "DE"; "POBLACION"];
             ["CURP"]]);
   ("entidad_registro", [["ENTIDAD"; "DE"; "REGISTRO"]]);
   ("municipio_registro", [["MUNICIPIO"; "DE"; "REGISTRO"]]);
   ("nombres", [["NOMBRE"]; ["NOMBRES"]]);
   ("primer_apellido", [["PRIMER"; "APELLIDO"]; ["APELLIDO"; "PATERNO"]]);
   ("segundo_apellido", [["SEGUNDO"; "APELLIDO"]; ["APELLIDO"; "MATERNO"]]);
   ("sexo", [["SEXO"]]);
   ("fecha_nacimiento", [["FECHA"; "DE"; "NACIMIENTO"]]);
   ("lugar_nacimiento", [["LUGAR"; "DE"; "NACIMIENTO"]])].

(** [labels[key]] for a configured key *)
Fixpoint aliases_of (labels : labels_t) (key : string)
  : list (list string) :=
  match labels with
  | [] => []
  | (k, a) :: labels' =>
      if String.eqb k key then a else aliases_of labels' key
  end.

Definition _first_tokens_set (labels : labels_t) : list string :=
  flat_map
    (fun ka => flat_map (fun sq => match sq with t :: _ => [t] | [] => [] end)
                        (snd ka))
    labels.

(** [\b(19|20)\d{2}(?:[-–](19|20)\d{2})?\b], the [VIG_REGEX] of this file *)
Definition VIG_REGEX : Re.regex :=
  Re.seqs [Re.WordB; century; Re.exactly Re.digit 2;
           Re.opt (Re.seqs [Re.lit "-"; century; Re.exactly Re.digit 2]);
           Re.WordB].

(** ** [extract_fields] *)

(** What a call evaluates to: a dictionary, or [None]. *)
Inductive pyresult : Type :=
  | PyNone
  | PyDict (d : PyDict.dict).

(** The block the [ine] branch repeats for its pattern fields: the text
    right of the label, else the lines below it, then the first match. *)
Definition right_else_below (lines : list Line) (first_tokens : list string)
           (hit : option label_hit) (pat : Re.regex) (max_lines : nat)
           (key : string) (out : PyDict.dict) : PyDict.dict :=
  match hit with
  | None => out
  | Some h =>
      let s := _collect_right_same_line h first_tokens in
      let s :=
        if negb (Re.found (Re.search pat (_norm s)))
        then _collect_below_until_next_label lines h first_tokens max_lines
        else s in
      match Re.search pat (_norm s) with
      | Some m => PyDict.set out key m
      | None => out
      end
  end.

(** [if key not in out: m = re.search(pat, T); if m: out[key] = m.group(0)] *)
Definition fallback_search (pat : Re.regex) (T : string) (key : string)
           (out : PyDict.dict) : PyDict.dict :=
  if negb (PyDict.mem out key) then
    match Re.search pat T with
    | Some m => PyDict.set out key m
    | None => out
    end
  else out.

(** [a or b] on strings *)
Definition or_else (a b : string) : string := if truthy a then a else b.

(** The local [grab] of the [acta] branch. *)
Definition grab (lines : list Line) (first : list string) (key : string)
           (max_lines : nat) (regex : option Re.regex)
           (out : PyDict.dict) : PyDict.dict :=
  match _find_label lines (aliases_of ACTA_LABELS key) with
  | None => out
  | Some h =>
      let s := _collect_right_same_line h first in
      let s := if negb (truthy s)
               then _collect_below_until_next_label lines h first max_lines
               else s in
      match regex with
      | Some r =>
          match Re.search r (_norm s) with
          | Some m => PyDict.set out key m
          | None => out
          end
      | None => if truthy s then PyDict.set out key s else out
      end
  end.

Definition extract_fields (tipo_documento : string) (raw_text : string)
           (export : option ocr_export) : pyresult :=
  let T := _norm raw_text in
  let out : PyDict.dict := PyDict.empty in
  match export with
  | None => PyDict out                       (* if not export: return out *)
  | Some export =>
      let lines := _build_lines_from_export export in
      let out :=
        if String.eqb tipo_documento "ine" then
          let labels := INE_LABELS in
          let label_first_tokens := _first_tokens_set labels in
          let field key pat n :=
            right_else_below lines label_first_tokens
                             (_find_label lines (aliases_of labels key))
                             pat n key in
          let out :=
            match _find_label lines (aliases_of labels "nombre") with
            | Some hit_nombre =>
                let nombre := _collect_below_until_next_label
                                lines hit_nombre label_first_tokens 5 in
                if truthy nombre then
                  let nombre :=
                    Re.sub (Re.seqs [Re.WordB; Re.word "SEXO"; Re.WordB;
                                     Re.spaces;
                                     Re.Alt (Re.word "H") (Re.word "M");
                                     Re.WordB])
                           "" (_norm nombre) in
                  PyDict.set out "nombre" (_clean_inline nombre)
                else out
            | None => out
            end in
          let out :=
            match _find_label lines (aliases_of labels "sexo") with
            | Some hit_sexo =>
                let val := _collect_right_same_line hit_sexo label_first_tokens in
                let val :=
                  if negb (Re.found (Re.search SEXO_REGEX (_norm val)))
                  then _collect_below_until_next_label
                         lines hit_sexo label_first_tokens 1
                  else val in
                match Re.search SEXO_REGEX (_norm val) with
                | Some m => PyDict.set out "sexo" m
                | None => out
                end
            | None => out
            end in
          let out :=
            match _find_label lines (aliases_of labels "domicilio") with
            | Some hit_dom =>
                let dom := _collect_below_until_next_label
                             lines hit_dom label_first_tokens 4 in
                if truthy dom then PyDict.set out "domicilio" dom else out
            | None => out
            end in
          let out := field "clave_elector" CLAVE_REGEX 2 out in
          let out := field "curp" CURP_REGEX 2 out in
          let out := fallback_search CURP_REGEX T "curp" out in
          let out := field "anio_registro" YEAR_REGEX 1 out in
          let out := field "fecha_nacimiento" DATE_REGEX 2 out in
          let out := fallback_search DATE_REGEX T "fecha_nacimiento" out in
          let out := field "seccion" SECCION_REGEX 1 out in
          let out := field "vigencia" VIG_REGEX 1 out in
          out
        else if String.eqb tipo_documento "curp" then
          let labels := CURP_LABELS in
          let first := _first_tokens_set labels in
          let collect hit n :=
            or_else (_collect_right_same_line hit first)
                    (_collect_below_until_next_label lines hit first n) in
          let out :=
            match _find_label lines (aliases_of labels "curp") with
            | Some hit =>
                match Re.search CURP_REGEX (_norm (collect hit 1)) with
                | Some m => PyDict.set out "curp" m
                | None => out
                end
            | None => out
            end in
          let out := fallback_search CURP_REGEX T "curp" out in
          let out :=
            match _find_label lines (aliases_of labels "nombre") with
            | Some hit =>
                let s := collect hit 3 in
                if truthy s then PyDict.set out "nombre" s else out
            | None => out
            end in
          let out :=
            match _find_label lines (aliases_of labels "entidad_registro") with
            | Some hit =>
                let s := collect hit 1 in
                if truthy s then PyDict.set out "entidad_registro" s else out
            | None => out
            end in
          out
        else if String.eqb tipo_documento "acta" then
          let first := _first_tokens_set ACTA_LABELS in
          let out := grab lines first "curp" 1 (Some CURP_REGEX) out in
          let out := grab lines first "entidad_registro" 1 None out in
          let out := grab lines first "municipio_registro" 1 None out in
          let out := grab lines first "nombres" 2 None out in
          let out := grab lines first "primer_apellido" 1 None out in
          let out := grab lines first "segundo_apellido" 1 None out in
          let out := grab lines first "sexo" 1 (Some SEXO_REGEX) out in
          let out := grab lines first "fecha_nacimiento" 1 (Some DATE_REGEX) out in
          let out := grab lines first "lugar_nacimiento" 2 None out in
          out
        else out in
      (* the function body ends here: no [return] statement follows *)
      let _ := out in
      PyNone
  end.

End Externals.
End Parsers.

(* ===================================================================== *)
(** * services/extractor.py : the field cleaner *)
(* ===================================================================== *)

Module Extractor.
Import PyStr PyDict Patterns.

Definition ESTADOS : list string :=
  ["AGUASCALIENTES"; "BAJA CALIFORNIA"; "BAJA CALIFORNIA SUR"; "CAMPECHE";
   "COAHUILA"; "COLIMA"; "CHIAPAS"; "CHIHUAHUA"; "CIUDAD DE MEXICO";
   "DURANGO"; "GUANAJUATO"; "GUERRERO"; "HIDALGO"; "JALISCO"; "MEXICO";
   "MICHOACAN"; "MORELOS"; "NAYARIT"; "NUEVO LEON"; "OAXACA"; "PUEBLA";
   "QUERETARO"; "QUINTANA ROO"; "SAN LUIS POTOSI"; "SINALOA"; "SONORA";
   "TABASCO"; "TAMAULIPAS"; "TLAXCALA"; "VERACRUZ"; "YUCATAN"; "ZACATECAS"].

Definition member (x : string) (l : list string) : bool :=
  existsb (String.eqb x) l.

(** [[A-ZÑÁÉÍÓÚÜ ]] by code point *)
Definition LETTERS_SPACE : Re.ranges :=
  [(65, 90); (209, 209); (193, 193); (201, 201); (205, 205); (211, 211);
   (218, 218); (220, 220); (32, 32)].

Definition O_acute : string := String (ascii_of_nat 211) EmptyString.

(** [LABEL_PREFIXES]: per document type, field -> label prefixes *)
Definition LABEL_PREFIXES : list (string * list (string * list string)) :=
  [("acta",
    [("nombres", ["NOMBRE"; "NOMBRE S"; "NOMBRES"]);
     ("primer_apellido", ["PRIMER APELLIDO"; "APELLIDO PATERNO"]);
     ("segundo_apellido", ["SEGUNDO APELLIDO"; "APELLIDO MATERNO"]);
     ("entidad_registro", ["ENTIDAD DE REGISTRO"]);
     ("municipio_registro", ["MUNICIPIO DE REGISTRO"]);
     ("lugar_nacimiento", ["LUGAR DE NACIMIENTO"])]);
   ("curp",
    [("nombre", ["NOMBRE"; "NOMBRE S"; "NOMBRES"]);
     ("entidad_registro", ["ENTIDAD DE REGISTRO"; "LUGAR DE REGISTRO"])]);
   ("ine",
    [("nombre", ["NOMBRE"]);
     ("domicilio", ["DOMICILIO"]);
     ("clave_elector", ["CLAVE DE ELECTOR"; "CLAVE DE  ELECTOR"]);
     ("fecha_nacimiento", ["FECHA DE NACIMIENTO"; "FECHA DENACIMIENTO"]);
     ("vigencia", ["VIGENCIA"]);
     ("seccion", ["SECCION"; ("SECCI" ++ O_acute ++ "N")%string])])].

(** [LABEL_PREFIXES[tipo].get(k, [])] *)
Fixpoint assoc {V : Type} (dflt : V) (m : list (string * V)) (k : string) : V :=
  match m with
  | [] => dflt
  | (k', v) :: m' => if String.eqb k' k then v else assoc dflt m' k
  end.

Definition prefixes_of (tipo k : string) : list string :=
  assoc [] (assoc [] LABEL_PREFIXES tipo) k.

(** [if k in out: out[k] = f(out[k])] *)
Definition adjust (k : string) (f : string -> string) (out : dict) : dict :=
  match get out k with
  | Some v => set out k (f v)
  | None => out
  end.

(** [if k in out and out[k]: out[k] = f(out[k])] *)
Definition adjust_nonempty (k : string) (f : string -> string) (out : dict)
  : dict :=
  match get out k with
  | Some v => if truthy v then set out k (f v) else out
  | None => out
  end.

(** [a or b] on strings *)
Definition or_else (a b : string) : string := if truthy a then a else b.

(** [" ".join(parts[i:i+n])] for [i] in [range(len(parts) - n + 1)], the
    first one found in the catalogue. *)
Fixpoint first_window (parts : list string) (n : nat) (i count : nat)
  : option string :=
  match count with
  | O => None
  | S count' =>
      let cand := join " " (firstn n (skipn i parts)) in
      if member cand ESTADOS then Some cand
      else first_window parts n (S i) count'
  end.

Section Externals.
  (** [unidecode.unidecode] comes from outside the repository. *)
Variable unidecode : string -> string.

Definition _norm_text (s : string) : string :=
  let s := upper (unidecode s) in
  let s := strip (Re.sub (Re.plus false Re.WS) " " s) in
  s.

Definition _clean_ine_sexo (s : string) : string :=
  let t := _norm_text s in
  match Re.search SEXO_REGEX t with
  | None => ""
  | Some val => if startswith val "M" then "M" else "H"
  end.

Definition _pick_first_regex (s : string) (pat : Re.regex) : string :=
  let t := _norm_text s in
  match Re.search pat t with Some m => m | None => "" end.

Definition _only_letters_spaces (s : string) : string :=
  let t := _norm_text s in
  let t := Re.sub (Re.plus true LETTERS_SPACE) " " t in
  strip (Re.sub (Re.plus false Re.WS) " " t).

Definition _strip_any_prefix (s : string) (prefixes : list string) : string :=
  let t := _norm_text s in
  (fix loop (ps : list string) : string :=
     match ps with
     | [] => t
     | p :: ps' =>
         let p_norm := _norm_text p in
         if startswith t p_norm
         then strip (drop (String.length p_norm) t)     (* then [break] *)
         else loop ps'
     end) prefixes.

Definition _pick_first_regex_any (s : string) (pat : Re.regex) : string :=
  match Re.search pat (_norm_text s) with Some m => m | None => "" end.

Definition _pick_first_state_in_text (s : string) : string :=
  let t := _only_letters_spaces s in
  let parts := split_ws t in
  let try n := first_window parts n 0 (length parts + 1 - n) in
  match try 3 with
  | Some cand => cand
  | None =>
      match try 2 with
      | Some cand => cand
      | None => match try 1 with Some cand => cand | None => "" end
      end
  end.

Definition _clean_address_line (s : string) : string :=
  let t := _norm_text s in
  let t := Re.sub (Re.Seq Re.Bol (Re.plus true [(65, 90); (48, 57)])) "" t in
  let t := Re.sub (Re.Seq Re.space (Re.Seq Re.space Re.spaces)) " " t in
  strip t.

(** [for k in ks: if k in out and out[k]:
       out[k] = _strip_any_prefix(out[k], LABEL_PREFIXES[tipo].get(k, []))] *)
Definition strip_prefixes (tipo : string) (ks : list string) (out : dict)
  : dict :=
  fold_left
    (fun out k =>
       adjust_nonempty k (fun v => _strip_any_prefix v (prefixes_of tipo k)) out)
    ks out.

Definition _post_process_document_fields (tipo_documento : string)
           (fields : dict) : dict :=
  let out := fields in                                 (* dict(fields) *)
  if String.eqb tipo_documento "ine" then
    let out := strip_prefixes "ine"
                 ["nombre"; "domicilio"; "clave_elector";
                  "fecha_nacimiento"; "vigencia"; "seccion"] out in
    let out := adjust "sexo" _clean_ine_sexo out in
    let out := adjust "anio_registro"
                      (fun v => _pick_first_regex v YEAR_REGEX) out in
    let out := adjust "seccion"
                      (fun v => _pick_first_regex v SECCION_REGEX) out in
    let out := adjust "vigencia"
                      (fun v => _pick_first_regex v VIG_REGEX) out in
    let out := adjust "fecha_nacimiento"
                      (fun v => _pick_first_regex v DATE_REGEX) out in
    let out := adjust "clave_elector"
                      (fun v =>
                         let cand := _pick_first_regex_any v CLAVE_REGEX in
                         or_else cand
                           (Re.sub (Re.Chars true [(65, 90); (48, 57)]) ""
                                   (_norm_text v))) out in
    let out := adjust "curp"
                      (fun v => _pick_first_regex_any v CURP_REGEX) out in
    let out := adjust "domicilio" _clean_address_line out in
    out
  else if String.eqb tipo_documento "curp" then
    let out := adjust "curp"
                      (fun v => _pick_first_regex_any v CURP_REGEX) out in
    let out := adjust "nombre"
                      (fun v => _only_letters_spaces
                                  (_strip_any_prefix v (prefixes_of "curp" "nombre")))
                      out in
    let out := adjust "entidad_registro"
                      (fun v =>
                         let tmp := _strip_any_prefix
                                      v (prefixes_of "curp" "entidad_registro") in
                         let st := _pick_first_state_in_text tmp in
                         or_else st (_only_letters_spaces tmp)) out in
    out
  else if String.eqb tipo_documento "acta" then
    let out := adjust "curp"
                      (fun v => _pick_first_regex_any v CURP_REGEX) out in
    let out := strip_prefixes "acta"
                 ["nombres"; "primer_apellido"; "segundo_apellido";
                  "entidad_registro"; "municipio_registro"; "sexo";
                  "fecha_nacimiento"; "lugar_nacimiento"] out in
    let out := fold_left (fun out k => adjust k _only_letters_spaces out)
                 ["nombres"; "primer_apellido"; "segundo_apellido";
                  "lugar_nacimiento"; "municipio_registro"] out in
    let out := adjust "sexo"
                      (fun v =>
                         let val := _pick_first_regex_any v SEXO_REGEX in
                         if startswith val "M" then "M"
                         else if truthy val then "H" else "") out in
    let out := adjust "fecha_nacimiento"
                      (fun v => _pick_first_regex_any v DATE_REGEX) out in
    let out := adjust "entidad_registro"
                      (fun v =>
                         let st := _pick_first_state_in_text v in
                         if truthy st then st else v) out in
    out
  else out.

(** [t.find(stop)]: the lowest index at which [stop] occurs in [t];
    [None] stands for [-1]. *)
Fixpoint find (t stop : string) : option nat :=
  if startswith t stop then Some 0
  else match t with
       | EmptyString => None
       | String _ t' =>
           match find t' stop with Some i => Some (S i) | None => None end
       end.

Definition _truncate_on_tokens (s : string) (stops : list string) : string :=
  let t := _norm_text s in
  fold_left
    (fun t stop =>
       match find t stop with
       | Some i => strip (take i t)
       | None => t
       end)
    stops t.

End Externals.
End Extractor.

(* ===================================================================== *)
(** * routers/ocr.py : what the endpoint hands to the merge *)
(* ===================================================================== *)

Module Router.
Import PyDict Parsers.

Section Externals.
Variable unidecode : string -> string.
Variable float_of_str : string -> option PyFloat.float.

(** [fields_auto = extract_fields(detected_type, raw_text, export) or {}] *)
Definition fields_auto (detected_type raw_text : string)
           (export : option ocr_export) : dict :=
  match extract_fields unidecode float_of_str detected_type raw_text export with
  | PyNone => empty
  | PyDict d => match d with [] => empty | _ => d end
  end.

End Externals.
End Router.

(* ===================================================================== *)
(** * Vocabulary of the specification *)
(* ===================================================================== *)

Module MergeSpec.
Import PyStr PyDict Patterns OcrMerge.

(** The fixed-field document types. *)
Definition fixed_types : list string := ["ine"; "curp"; "acta"].

(** The declared fields of a fixed-field type with their validation
    patterns: the [(name, pat)] arguments of the successive [_choose] calls
    of its branch, in call order. *)
Definition declared_fields (tipo : string) : list (string * option Re.regex) :=
  if String.eqb tipo "ine" then
    [("nombre", None); ("sexo", Some SEXO_REGEX); ("domicilio", None);
     ("clave_elector", Some CLAVE_REGEX); ("curp", Some CURP_REGEX);
     ("anio_registro", Some YEAR_REGEX); ("fecha_nacimiento", Some DATE_REGEX);
     ("seccion", Some SECCION_REGEX); ("vigencia", Some VIG_REGEX)]
  else if String.eqb tipo "curp" then
    [("curp", Some CURP_REGEX); ("nombre", None); ("entidad_registro", None)]
  else if String.eqb tipo "acta" then acta_fields
  else [].

(** A value validates against a pattern: it is non-empty and the pattern
    is found in its upper-cased text. *)
Definition validates (pat : Re.regex) (v : string) : Prop :=
  v <> "" /\ exists m, Re.search pat (upper v) = Some m.

(** A map holds nothing for a key: the key is absent or bound to [""]. *)
Definition blank (d : dict) (k : string) : Prop :=
  get d k = None \/ get d k = Some "".

(** The decision [_choose] appends for a field. *)
Definition chosen (name : string) (pat : option Re.regex)
           (fields_tpl fields_auto fields_text : dict) : decision :=
  nth 0 (snd (_choose name pat fields_tpl fields_auto fields_text (empty, [])))
      (mkDecision name "none" "").

(** The decisions of a log that concern a field. *)
Definition decisions_for (k : string) (log : list decision) : list decision :=
  filter (fun d => String.eqb (field d) k) log.

(** [d.setdefault(k, "")] for every key of a list, in order. *)
Definition with_defaults (d : dict) (ks : list string) : dict :=
  fold_left (fun f k => setdefault f k "") ks d.

(** The declared keys of the catch-all type. *)
Definition otros_keys : list string :=
  ["titulo"; "fecha_documento"; "rfc_detectado"; "curp_detectada"; "folio";
   "emisor"].

(** The decisions a run of [_choose] calls appends. *)
Definition field_decisions (l : list (string * option Re.regex))
           (tpl auto text : dict) : list decision :=
  map (fun kp => chosen (fst kp) (snd kp) tpl auto text) l.

(** The [merged] dictionary of the catch-all branch and its decisions. *)
Definition otros_merged (tpl auto text : dict) : dict :=
  update (update (update empty tpl) auto) text.

Definition otros_decisions (tpl auto text : dict) : list decision :=
  map (fun kv => mkDecision (fst kv) (otros_src tpl auto text (fst kv)) (snd kv))
      (otros_merged tpl auto text).

End MergeSpec.

Module FloatOrder.
Local Open Scope Z_scope.

(** A rank that orders the floats other than NaN as [SFcompare] does:
    sign class first, then exponent, then mantissa. *)
Definition rank (x : spec_float) : option (Z * Z * Z) :=
  match x with
  | S754_nan => None
  | S754_infinity true => Some (-2, 0, 0)
  | S754_infinity false => Some (2, 0, 0)
  | S754_zero _ => Some (0, 0, 0)
  | S754_finite true m e => Some (-1, - e, - Z.pos m)
  | S754_finite false m e => Some (1, e, Z.pos m)
  end.

Definition lex_lt (a b : Z * Z * Z) : Prop :=
  let '(a1, a2, a3) := a in
  let '(b1, b2, b3) := b in
  a1 < b1 \/ (a1 = b1 /\ (a2 < b2 \/ (a2 = b2 /\ a3 < b3))).

Definition lex_eq (a b : Z * Z * Z) : Prop :=
  let '(a1, a2, a3) := a in
  let '(b1, b2, b3) := b in
  a1 = b1 /\ a2 = b2 /\ a3 = b3.

Definition frank (f : PyFloat.float) : option (Z * Z * Z) := rank (Prim2SF f).

End FloatOrder.

Module GeomSpec.
Import PyFloat PyVal Parsers.

(** Python's [==] on floats, and on rectangles component by component. *)
Definition feq (a b : float) : Prop := eqb a b = true.

Definition rect_eq (r s : rect) : Prop :=
  let '(a, b, c, d) := r in
  let '(a', b', c', d') := s in
  feq a a' /\ feq b b' /\ feq c c' /\ feq d d'.

(** [0 <= lo <= hi <= 1] *)
Definition within_unit (lo hi : float) : Prop :=
  leb zero lo = true /\ leb lo hi = true /\ leb hi one = true.

(** A canonical rectangle: clamped to the unit square, [min <= max] per
    axis. *)
Definition canonical (r : rect) : Prop :=
  let '(xmin, ymin, xmax, ymax) := r in
  within_unit xmin xmax /\ within_unit ymin ymax.

(** [f != f], the test for NaN. *)
Definition is_nan (f : float) : bool := negb (eqb f f).

(** [v] brought into the unit interval. *)
Definition clip (v : float) : float :=
  if leb v zero then zero else if leb one v then one else v.

Definition smaller (a b : float) : float := if leb a b then a else b.
Definition larger (a b : float) : float := if leb a b then b else a.

(** The rectangle spanned by the corners [(x0, y0)] and [(x1, y1)], given
    in any order, cut to the unit square. *)
Definition box_of (x0 y0 x1 y1 : float) : rect :=
  (clip (smaller x0 x1), clip (smaller y0 y1),
   clip (larger x0 x1), clip (larger y0 y1)).

Section Leaves.
Variable float_of_str : string -> option float.

(** The number [v] denotes the float [f]. *)
Definition number (v : value) (f : float) : Prop :=
  is_number v = true /\ to_float float_of_str v = Some f.

(** A scalar that [float()] does not turn into NaN (one it rejects is
    tame: it is skipped or replaced by a default). *)
Definition tame_leaf (v : value) : Prop :=
  match to_float float_of_str v with
  | Some f => is_nan f = false
  | None => True
  end.

(** The list or tuple is read as four numbers: [len(geom) == 4] and every
    item is an [int] or a [float]. *)
Definition four_numbers (l : list value) : Prop :=
  length l = 4 /\ forallb is_number l = true.

(** The keys of a dictionary that name a coordinate. *)
Definition corner_keys : list string := ["x0"; "y0"; "x1"; "y1"].

(** No scalar the coercer reads converts to NaN: the four corner entries
    of a dictionary, the leaves of a list or tuple; and a list or tuple
    read as four numbers holds no integer that [float()] rejects. *)
Definition tame (geom : value) : Prop :=
  match geom with
  | VDict d => Forall (fun k => tame_leaf (dict_get d k)) corner_keys
  | VSeq l =>
      Forall tame_leaf (_flatten geom)
      /\ (four_numbers l ->
          Forall (fun v => to_float float_of_str v <> None) l)
  | _ => True
  end.

(** The coordinate read from [v]: its float, or the default when [v] is
    missing ([None]) or does not convert. *)
Definition coordinate (v : value) (dflt f : float) : Prop :=
  match to_float float_of_str v with
  | Some g => f = g
  | None => f = dflt
  end.

(** The input goes through the flattening branch: a list or tuple that is
    neither four numbers nor a pair of pairs. *)
Definition flattened_shape (geom : value) : Prop :=
  exists l, geom = VSeq l
            /\ (length l =? 4) && forallb is_number l = false
            /\ (length l =? 2) && forallb is_pair l = false.

(** Neither a dictionary nor a list or tuple. *)
Definition scalar_shape (geom : value) : Prop :=
  match geom with VSeq _ | VDict _ => False | _ => True end.

End Leaves.
End GeomSpec.

Module TextSpec.
Import PyStr.

(** The character before the position reached after reading [s] from a
    position whose previous character is [prev]. *)
Fixpoint last_char (prev : option ascii) (s : string) : option ascii :=
  match s with
  | EmptyString => prev
  | String c s' => last_char (Some c) s'
  end.

(** [s] without its prefix [p], when it has it. *)
Fixpoint after_prefix (p s : string) : option string :=
  match p, s with
  | EmptyString, _ => Some s
  | String a p', String b s' =>
      if Ascii.eqb b a then after_prefix p' s' else None
  | String _ _, EmptyString => None
  end.

(** The text contains the phrase as whole words: an occurrence that is
    neither preceded nor followed by a word character. *)
Definition contains_phrase (phrase text : string) : Prop :=
  exists pre post,
    text = (pre ++ phrase ++ post)%string
    /\ Re.word_before (last_char None pre) = false
    /\ Re.word_after post = false.

(** A phrase that begins and ends with a word character. *)
Definition wordy (w : string) : Prop :=
  w <> "" /\ Re.word_after w = true /\ Re.word_before (last_char None w) = true.

(** ** Normalised text *)

Definition head_is (f : ascii -> bool) (s : string) : bool :=
  match s with String c _ => f c | EmptyString => false end.

Definition last_is (f : ascii -> bool) (s : string) : bool :=
  match last_char None s with Some c => f c | None => false end.

(** Every maximal run of characters satisfying [f] replaced by [repl];
    [in_run] tells whether the character before belonged to a run. *)
Fixpoint squeeze (f : ascii -> bool) (repl : string) (in_run : bool)
         (s : string) : string :=
  match s with
  | EmptyString => EmptyString
  | String c s' =>
      if f c
      then (if in_run then squeeze f repl true s'
            else repl ++ squeeze f repl true s')%string
      else String c (squeeze f repl false s')
  end.

(** The characters satisfying [f], in order. *)
Fixpoint keep (f : ascii -> bool) (s : string) : string :=
  match s with
  | EmptyString => EmptyString
  | String c s' => if f c then String c (keep f s') else keep f s'
  end.

(** The text from its first character that does not satisfy [f]. *)
Fixpoint dropwhile (f : ascii -> bool) (s : string) : string :=
  match s with
  | EmptyString => EmptyString
  | String c s' => if f c then dropwhile f s' else s
  end.

(** An ASCII character that is not a lowercase letter. *)
Definition plain (c : ascii) : bool := is_ascii c && negb (is_lower c).

(** Every whitespace character is a blank, and no two of them are
    adjacent. *)
Fixpoint single (s : string) : bool :=
  match s with
  | EmptyString => true
  | String c s' =>
      (if is_space c
       then Ascii.eqb c " " && negb (head_is is_space s')
       else true)
      && single s'
  end.

(** What [_norm_text] produces: upper-case ASCII, words separated by one
    blank, no blank at either end. *)
Definition normal (s : string) : bool :=
  all plain s && single s
  && negb (head_is is_space s) && negb (last_is is_space s).

End TextSpec.


Module ReSpec.
Import PyStr Re TextSpec.

(** What a pattern can match: [Matches r p s p' s'] says that [r], started
    on the text [s] whose previous character is [p], can consume a prefix
    of [s] and reach the text [s'] with previous character [p'].
    [Iter r n] is [n] matches of [r] in a row. *)
Inductive Matches : regex -> option ascii -> string -> option ascii -> string -> Prop :=
| M_Eps p s : Matches Eps p s p s
| M_Chars neg rs p c s :
    in_class neg rs c = true -> Matches (Chars neg rs) p (String c s) (Some c) s
| M_WordB p s : at_boundary p s = true -> Matches WordB p s p s
| M_Bol s : Matches Bol None s None s
| M_Seq r1 r2 p s p1 s1 p2 s2 :
    Matches r1 p s p1 s1 -> Matches r2 p1 s1 p2 s2 ->
    Matches (Seq r1 r2) p s p2 s2
| M_AltL r1 r2 p s p' s' : Matches r1 p s p' s' -> Matches (Alt r1 r2) p s p' s'
| M_AltR r1 r2 p s p' s' : Matches r2 p s p' s' -> Matches (Alt r1 r2) p s p' s'
| M_Rep r lo extra n p s p' s' :
    lo <= n -> n <= lo + extra -> Iter r n p s p' s' ->
    Matches (Rep r lo extra) p s p' s'
| M_Many neg rs p u s :
    all (in_class neg rs) u = true ->
    Matches (Many neg rs) p (u ++ s)%string (last_char p u) s
with Iter : regex -> nat -> option ascii -> string -> option ascii -> string -> Prop :=
| I_O r p s : Iter r 0 p s p s
| I_S r n p s p1 s1 p2 s2 :
    Matches r p s p1 s1 -> Iter r n p1 s1 p2 s2 -> Iter r (S n) p s p2 s2.

Scheme Matches_mind := Minimality for Matches Sort Prop
  with Iter_mind := Minimality for Iter Sort Prop.

(** ** Static properties of patterns *)

(** No [^] in the pattern. *)
Fixpoint bol_free (r : regex) : bool :=
  match r with
  | Bol => false
  | Seq a b | Alt a b => bol_free a && bol_free b
  | Rep a _ _ => bol_free a
  | _ => true
  end.

(** No [\b] in the pattern. *)
Fixpoint wordb_free (r : regex) : bool :=
  match r with
  | WordB => false
  | Seq a b | Alt a b => wordb_free a && wordb_free b
  | Rep a _ _ => wordb_free a
  | _ => true
  end.

(** The pattern never consumes a character. *)
Fixpoint zero_width (r : regex) : bool :=
  match r with
  | Eps | WordB | Bol => true
  | Seq a b | Alt a b => zero_width a && zero_width b
  | _ => false
  end.

(** Every character of the class is a word character. *)
Definition class_word (neg : bool) (rs : ranges) : bool :=
  forallb (fun n => implb (in_class neg rs (ascii_of_nat n))
                          (is_word (ascii_of_nat n)))
          (seq 0 256).

(** Every match consumes something and begins with a word character. *)
Fixpoint first_word (r : regex) : bool :=
  match r with
  | Chars neg rs => class_word neg rs
  | Seq a b => first_word a || (zero_width a && first_word b)
  | Alt a b => first_word a && first_word b
  | Rep a lo _ => (1 <=? lo) && first_word a
  | _ => false
  end.

(** After every match the previous character is a word character,
    supposing ([before]) that it was one where the match began. *)
Fixpoint ends_word (r : regex) (before : bool) : bool :=
  match r with
  | Eps | WordB | Bol => before
  | Chars neg rs => class_word neg rs
  | Seq a b => ends_word b (ends_word a before)
  | Alt a b => ends_word a before && ends_word b before
  | Rep a lo _ =>
      match lo with
      | O => before && ends_word a false
      | S _ => ends_word a false
      end
  | Many neg rs => before && class_word neg rs
  end.

(** Every match ends with a word character. *)
Definition last_word (r : regex) : bool := ends_word r false.

(** Every match begins, respectively ends, with a [\b] test. *)
Fixpoint starts_with_wordb (r : regex) : bool :=
  match r with
  | WordB => true
  | Seq a _ => starts_with_wordb a
  | Alt a b => starts_with_wordb a && starts_with_wordb b
  | _ => false
  end.

Fixpoint ends_with_wordb (r : regex) : bool :=
  match r with
  | WordB => true
  | Seq _ b => ends_with_wordb b
  | Alt a b => ends_with_wordb a && ends_with_wordb b
  | _ => false
  end.

(** The patterns whose match can be searched again on its own: they take
    no notice of the text around the match, beyond what their own [\b]
    tests at both ends establish. *)
Definition self_contained (r : regex) : bool :=
  bol_free r && first_word r && last_word r
  && (wordb_free r || (starts_with_wordb r && ends_with_wordb r)).

(** ** Running a pattern on a text cut short *)

(** A pattern with no [^]; its [\b] tests are allowed when the cut text
    is known to end as the whole text goes on ([care]). *)
Definition local_pattern (care : bool) (r : regex) : bool :=
  bol_free r && (care || wordb_free r).

Section Cut.
Context {A B : Type}.
Variables (X : A) (Y : B) (post : string) (care : bool).

(** Two previous characters that no [\b] test tells apart. *)
Definition alike (p q : option ascii) : Prop :=
  care = true -> word_before p = word_before q.

(** The run on the cut text fails when the long run fails, and answers
    [Y] when the long run answers [X]. *)
Definition agree (a : option A) (b : option B) : Prop :=
  (a = None -> b = None) /\ (a = Some X -> b = Some Y).

Definition Sim (k : @cont A) (k' : @cont B) : Prop :=
  forall p q v, alike p q -> agree (k p (v ++ post)%string) (k' q v).

(** The long run never answers [X] from inside [post]. *)
Definition Beyond (k : @cont A) : Prop :=
  forall p w, k p w = Some X -> String.length post <= String.length w.

End Cut.

End ReSpec.

Module DetectSpec.
Import TextSpec.

(** The keyword rules of the type detector. *)
Definition acta_rule (T : string) : Prop :=
  contains_phrase "ACTA DE NACIMIENTO" T \/ contains_phrase "OFICIAL DEL REGISTRO" T.

Definition ine_rule (T : string) : Prop :=
  contains_phrase "INSTITUTO NACIONAL ELECTORAL" T
  \/ contains_phrase "CREDENCIAL PARA VOTAR" T.

Definition curp_rule (T : string) : Prop :=
  contains_phrase "CLAVE UNICA DE REGISTRO DE POBLACION" T
  \/ contains_phrase "CURP" T.

(** First match wins, in the order acta, ine, curp; otherwise ["auto"]. *)
Inductive classifies (T : string) : string -> Prop :=
| classifies_acta : acta_rule T -> classifies T "acta"
| classifies_ine : ~ acta_rule T -> ine_rule T -> classifies T "ine"
| classifies_curp :
    ~ acta_rule T -> ~ ine_rule T -> curp_rule T -> classifies T "curp"
| classifies_auto :
    ~ acta_rule T -> ~ ine_rule T -> ~ curp_rule T -> classifies T "auto".

End DetectSpec.

Module CleanSpec.
Import PyStr PyDict Patterns Extractor.

(** ** The Field Cleaner, one value at a time *)

(** One step of the cleaner: the value under [skey] is replaced by
    [sfun] of it; a step marked [nonempty] leaves an empty value alone. *)
Record stage : Type := mkStage {
  skey : string;
  nonempty : bool;
  sfun : string -> string
}.

Definition run_stage (st : stage) (d : dict) : dict :=
  if nonempty st then adjust_nonempty (skey st) (sfun st) d
  else adjust (skey st) (sfun st) d.

(** What the step does to the value [v] bound to the key [k]. *)
Definition value_stage (st : stage) (k v : string) : string :=
  if String.eqb k (skey st)
  then (if nonempty st && negb (truthy v) then v else sfun st v)
  else v.

(** Every character is a capital letter or a blank. *)
Definition lettery (s : string) : bool :=
  all (fun c => is_upper c || Ascii.eqb c " ") s.

(** The state found in a list of words: the first window of three, two
    or one words that is in the catalogue. *)
Definition state_in (parts : list string) : string :=
  let try n := first_window parts n 0 (length parts + 1 - n) in
  match try 3 with
  | Some cand => cand
  | None =>
      match try 2 with
      | Some cand => cand
      | None => match try 1 with Some cand => cand | None => "" end
      end
  end.

(** The same change made to the value of every binding. *)
Definition on_values (g : string -> string -> string) (d : dict) : dict :=
  map (fun kv => (fst kv, g (fst kv) (snd kv))) d.

Section Externals.
Variable unidecode : string -> string.

Definition strip_stage (tipo k : string) : stage :=
  mkStage k true
          (fun v => _strip_any_prefix unidecode v (prefixes_of tipo k)).

(** The steps of the cleaner for a document type, in the order of the
    code. *)
Definition stages (tipo : string) : list stage :=
  if String.eqb tipo "ine" then
    map (strip_stage "ine")
        ["nombre"; "domicilio"; "clave_elector";
         "fecha_nacimiento"; "vigencia"; "seccion"]
    ++ [mkStage "sexo" false (_clean_ine_sexo unidecode);
        mkStage "anio_registro" false
                (fun v => _pick_first_regex unidecode v YEAR_REGEX);
        mkStage "seccion" false
                (fun v => _pick_first_regex unidecode v SECCION_REGEX);
        mkStage "vigencia" false
                (fun v => _pick_first_regex unidecode v VIG_REGEX);
        mkStage "fecha_nacimiento" false
                (fun v => _pick_first_regex unidecode v DATE_REGEX);
        mkStage "clave_elector" false
                (fun v =>
                   let cand := _pick_first_regex_any unidecode v CLAVE_REGEX in
                   or_else cand
                     (Re.sub (Re.Chars true [(65, 90); (48, 57)]) ""
                             (_norm_text unidecode v)));
        mkStage "curp" false
                (fun v => _pick_first_regex_any unidecode v CURP_REGEX);
        mkStage "domicilio" false (_clean_address_line unidecode)]
  else if String.eqb tipo "curp" then
    [mkStage "curp" false
             (fun v => _pick_first_regex_any unidecode v CURP_REGEX);
     mkStage "nombre" false
             (fun v => _only_letters_spaces unidecode
                         (_strip_any_prefix unidecode v
                                            (prefixes_of "curp" "nombre")));
     mkStage "entidad_registro" false
             (fun v =>
                let tmp := _strip_any_prefix
                             unidecode v (prefixes_of "curp" "entidad_registro") in
                let st := _pick_first_state_in_text unidecode tmp in
                or_else st (_only_letters_spaces unidecode tmp))]
  else if String.eqb tipo "acta" then
    [mkStage "curp" false
             (fun v => _pick_first_regex_any unidecode v CURP_REGEX)]
    ++ map (strip_stage "acta")
           ["nombres"; "primer_apellido"; "segundo_apellido";
            "entidad_registro"; "municipio_registro"; "sexo";
            "fecha_nacimiento"; "lugar_nacimiento"]
    ++ map (fun k => mkStage k false (_only_letters_spaces unidecode))
           ["nombres"; "primer_apellido"; "segundo_apellido";
            "lugar_nacimiento"; "municipio_registro"]
    ++ [mkStage "sexo" false
                (fun v =>
                   let val := _pick_first_regex_any unidecode v SEXO_REGEX in
                   if startswith val "M" then "M"
                   else if truthy val then "H" else "");
        mkStage "fecha_nacimiento" false
                (fun v => _pick_first_regex_any unidecode v DATE_REGEX);
        mkStage "entidad_registro" false
                (fun v =>
                   let st := _pick_first_state_in_text unidecode v in
                   if truthy st then st else v)]
  else [].

(** The second halves of the steps that the code writes in line. *)
Definition stripped (tipo k v : string) : string :=
  if truthy v then _strip_any_prefix unidecode v (prefixes_of tipo k) else v.

Definition clave_elector (v : string) : string :=
  let cand := _pick_first_regex_any unidecode v CLAVE_REGEX in
  or_else cand
    (Re.sub (Re.Chars true [(65, 90); (48, 57)]) "" (_norm_text unidecode v)).

Definition sexo_acta (v : string) : string :=
  let val := _pick_first_regex_any unidecode v SEXO_REGEX in
  if startswith val "M" then "M" else if truthy val then "H" else "".

Definition entidad_curp (tmp : string) : string :=
  let st := _pick_first_state_in_text unidecode tmp in
  or_else st (_only_letters_spaces unidecode tmp).

Definition entidad_acta (v : string) : string :=
  let st := _pick_first_state_in_text unidecode v in
  if truthy st then st else v.

(** What a pass of the cleaner makes of the value [v] bound to [k]. *)
Definition clean_value (tipo k v : string) : string :=
  fold_left (fun v st => value_stage st k v) (stages tipo) v.

(** The value still begins with a label configured for its field. *)
Definition leftover (tipo k w : string) : bool :=
  existsb (fun p => startswith w (_norm_text unidecode p))
          (prefixes_of tipo k).

Definition no_leftover_label (tipo : string) (out : dict) : bool :=
  forallb (fun kv => negb (leftover tipo (fst kv) (snd kv))) out.

End Externals.

(** A simple [unidecode] for examples: the characters outside ASCII are
    dropped. *)
Definition ascii_only (s : string) : string := TextSpec.keep is_ascii s.

End CleanSpec.

Module LayoutSpec.
Import PyStr PyFloat Parsers.

(** ** Words and lines of the layout model *)

(** [0 <= v <= 1]; in particular [v] is not NaN. *)
Definition in_unit (v : float) : Prop :=
  leb zero v = true /\ leb v one = true.

(** The box of a word lies in the unit square. *)
Definition boxed (w : Word) : Prop :=
  in_unit (xmin w) /\ in_unit (ymin w) /\ in_unit (xmax w) /\ in_unit (ymax w).

(** The words read from left to right: no word begins left of an earlier
    one. *)
Definition left_to_right (ws : list Word) : Prop :=
  StronglySorted (fun u v => leb (xmin u) (xmin v) = true) ws.

Section Externals.
Variable unidecode : string -> string.

(** A word as [_build_lines_from_export] makes it for the line [L]. *)
Definition word_of_line (L : Line) (w : Word) : Prop :=
  text w <> ""
  /\ norm w = _norm unidecode (text w)
  /\ page w = lpage L
  /\ boxed w
  /\ leb (lymin L) (ymin w) = true
  /\ leb (ymax w) (lymax L) = true.

(** A line as [_build_lines_from_export] returns it, for an export of
    [n] pages. *)
Definition built_line (n : nat) (L : Line) : Prop :=
  words L <> []
  /\ lpage L < n
  /\ in_unit (lymin L) /\ in_unit (lymax L)
  /\ Forall (word_of_line L) (words L)
  /\ left_to_right (words L).

End Externals.

(** The tokens occur in the list in order, not necessarily side by side. *)
Inductive Subseq : list string -> list string -> Prop :=
| Subseq_nil l : Subseq [] l
| Subseq_skip s x l : Subseq s l -> Subseq s (x :: l)
| Subseq_take s x l : Subseq s l -> Subseq (x :: s) (x :: l).

End LayoutSpec.

Module Samples.
Import PyFloat PyVal Parsers.

(** ** Example data *)

(** A word of page 0 with the given text, normal form and left edge. *)
Definition word_at (t n : string) (x : float) : Word :=
  mkWord t n 0 x 0.25%float x 0.5%float x 0.375%float.

(** A line of page 0 holding the given words. *)
Definition line_of (ws : list Word) : Line :=
  mkLine 0 0 ws 0.25%float 0.5%float.

(** A line of the given page and identity. *)
Definition line_on (id page : nat) (ws : list Word) : Line :=
  mkLine id page ws 0.25%float 0.5%float.

(** An export of one page with one line of four words, of which one has
    no text and one no geometry. *)
Definition one_line_export : ocr_export :=
  {| pages :=
       [ {| p_blocks :=
              [ {| b_lines :=
                     [ {| l_words :=
                            [ {| w_value := "elector";
                                 w_geometry :=
                                   VSeq [VSeq [VFloat 0.75%float; VFloat 0.5%float];
                                         VSeq [VFloat 0.5%float; VFloat 0.25%float]] |};
                              {| w_value := "";
                                 w_geometry :=
                                   VSeq [VFloat 0%float; VFloat 0%float;
                                         VFloat 1%float; VFloat 1%float] |};
                              {| w_value := "de"; w_geometry := VNone |};
                              {| w_value := "Clave";
                                 w_geometry :=
                                   VDict [("x0", VFloat 0.125%float);
                                          ("y0", VFloat 0.25%float);
                                          ("x1", VFloat 0.375%float);
                                          ("y1", VInt 2)] |} ] |} ] |} ] |} ] |}.

End Samples.

Module PieceSpec.

(** [x] occurs in [t]: [x in t] for Python strings. *)
Definition occurs (x t : string) : Prop :=
  exists pre post, t = (pre ++ x ++ post)%string.

End PieceSpec.

(* ===================================================================== *)
(** * Facts about dictionaries *)
(* ===================================================================== *)

Module DictFacts.
Import PyDict.

Lemma get_set_same (d : dict) (k v : string) : get (set d k v) k = Some v.
Proof.
  induction d as [|[k' v'] d IH]; simpl.
  - now rewrite String.eqb_refl.
  - destruct (String.eqb k' k) eqn:E; simpl; rewrite E; auto.
Qed.

Lemma get_set_other (d : dict) (k k' v : string) :
  k <> k' -> get (set d k v) k' = get d k'.
Proof.
  intros Hne. induction d as [|[k0 v0] d IH]; simpl.
  - destruct (String.eqb k k') eqn:E; auto.
    apply String.eqb_eq in E. contradiction.
  - destruct (String.eqb k0 k) eqn:E; simpl.
    + apply String.eqb_eq in E. subst k0.
      destruct (String.eqb k k') eqn:E'; auto.
      apply String.eqb_eq in E'. contradiction.
    + now rewrite IH.
Qed.

Lemma get_In_keys (d : dict) (k : string) :
  In k (keys d) <-> exists v, get d k = Some v.
Proof.
  induction d as [|[k' v'] d IH]; simpl.
  - split; [tauto | intros [v H]; discriminate].
  - destruct (String.eqb k' k) eqn:E.
    + apply String.eqb_eq in E. split; eauto.
    + apply String.eqb_neq in E. rewrite IH. split; [intros [?|?]|]; tauto.
Qed.

Lemma mem_In_keys (d : dict) (k : string) : mem d k = true <-> In k (keys d).
Proof.
  rewrite get_In_keys. unfold mem.
  destruct (get d k); split; intros H; eauto; try discriminate.
  now destruct H.
Qed.

Lemma get_None_keys (d : dict) (k : string) :
  get d k = None <-> ~ In k (keys d).
Proof.
  rewrite get_In_keys. destruct (get d k) eqn:E; split; intros H.
  - discriminate.
  - exfalso. eauto.
  - intros [v Hv]. discriminate.
  - reflexivity.
Qed.

Lemma keys_set (d : dict) (k v k' : string) :
  In k' (keys (set d k v)) <-> k' = k \/ In k' (keys d).
Proof.
  induction d as [|[k0 v0] d IH]; simpl.
  - intuition.
  - destruct (String.eqb k0 k) eqn:E; simpl.
    + apply String.eqb_eq in E. subst. intuition.
    + rewrite IH. intuition.
Qed.

Lemma wf_set (d : dict) (k v : string) : wf d -> wf (set d k v).
Proof.
  unfold wf. induction d as [|[k0 v0] d IH]; simpl; intros H.
  - repeat constructor. simpl. tauto.
  - inversion H as [|? ? Hn Hd]; subst.
    destruct (String.eqb k0 k) eqn:E; simpl.
    + now constructor.
    + constructor; auto.
      fold (keys (set d k v)). rewrite keys_set.
      apply String.eqb_neq in E. intros [->|?]; tauto.
Qed.

Lemma get_In (d : dict) (k v : string) : get d k = Some v -> In (k, v) d.
Proof.
  induction d as [|[k' v'] d IH]; simpl; [discriminate|].
  destruct (String.eqb k' k) eqn:E.
  - apply String.eqb_eq in E. intros [= ->]. subst. now left.
  - auto.
Qed.

Lemma In_get (d : dict) (k v : string) : wf d -> In (k, v) d -> get d k = Some v.
Proof.
  unfold wf. induction d as [|[k' v'] d IH]; simpl; [tauto|].
  intros Hwf [H|H].
  - inversion H; subst. now rewrite String.eqb_refl.
  - inversion Hwf as [|? ? Hn Hd]; subst.
    destruct (String.eqb k' k) eqn:E.
    + apply String.eqb_eq in E. subst. exfalso. apply Hn.
      change (In (fst (k, v)) (map fst d)). now apply in_map.
    + auto.
Qed.

(** [d.update(e)] *)

Lemma wf_update (d e : dict) : wf d -> wf (update d e).
Proof.
  unfold update. revert d. induction e as [|[k v] e IH]; simpl; auto.
  intros d H. apply IH. now apply wf_set.
Qed.

Lemma keys_update (d e : dict) (k : string) :
  In k (keys (update d e)) <-> In k (keys d) \/ In k (keys e).
Proof.
  unfold update. revert d. induction e as [|[k0 v0] e IH]; simpl; intros d.
  - tauto.
  - rewrite IH, keys_set. intuition.
Qed.

Lemma get_update_absent (d e : dict) (k : string) :
  get e k = None -> get (update d e) k = get d k.
Proof.
  unfold update. revert d. induction e as [|[k0 v0] e IH]; simpl; intros d; auto.
  destruct (String.eqb k0 k) eqn:E; [discriminate|].
  intros H. rewrite IH by assumption. apply get_set_other.
  now apply String.eqb_neq.
Qed.

Lemma get_update_present (d e : dict) (k v : string) :
  wf e -> get e k = Some v -> get (update d e) k = Some v.
Proof.
  unfold update, wf. revert d. induction e as [|[k0 v0] e IH]; simpl; intros d Hwf.
  - discriminate.
  - inversion Hwf as [|? ? Hn Hd]; subst.
    destruct (String.eqb k0 k) eqn:E.
    + apply String.eqb_eq in E. subst k0. intros [= ->].
      fold (update (set d k v) e). rewrite get_update_absent.
      * apply get_set_same.
      * now apply get_None_keys.
    + intros H. now apply IH.
Qed.

(** [d.setdefault(k, "")] over a list of keys *)

Import MergeSpec.

Lemma get_setdefault_present (d : dict) (k k' v : string) :
  get d k' = Some v -> get (setdefault d k "") k' = Some v.
Proof.
  unfold setdefault, mem. intros H.
  destruct (get d k) eqn:E; auto.
  rewrite get_set_other; auto. intros ->. congruence.
Qed.

Lemma get_with_defaults_present (d : dict) (ks : list string) (k v : string) :
  get d k = Some v -> get (with_defaults d ks) k = Some v.
Proof.
  unfold with_defaults. revert d.
  induction ks as [|k0 ks IH]; simpl; intros d H; auto.
  apply IH. now apply get_setdefault_present.
Qed.

Lemma keys_setdefault (d : dict) (k k' : string) :
  In k' (keys (setdefault d k "")) <-> k' = k \/ In k' (keys d).
Proof.
  unfold setdefault. destruct (mem d k) eqn:E.
  - apply mem_In_keys in E. split; [tauto|]. now intros [->|?].
  - apply keys_set.
Qed.

Lemma keys_with_defaults (d : dict) (ks : list string) (k : string) :
  In k (keys (with_defaults d ks)) <-> In k (keys d) \/ In k ks.
Proof.
  unfold with_defaults. revert d.
  induction ks as [|k0 ks IH]; simpl; intros d.
  - tauto.
  - rewrite IH, keys_setdefault. intuition.
Qed.

Lemma get_with_defaults_absent (d : dict) (ks : list string) (k : string) :
  get d k = None -> In k ks -> get (with_defaults d ks) k = Some "".
Proof.
  unfold with_defaults. revert d.
  induction ks as [|k0 ks IH]; simpl; intros d Hd Hin; [tauto|].
  destruct (string_dec k0 k) as [->|Hne].
  - apply get_with_defaults_present.
    unfold setdefault, mem. rewrite Hd. apply get_set_same.
  - destruct Hin as [?|Hin]; [contradiction|].
    apply IH; auto.
    unfold setdefault. destruct (mem d k0); auto.
    rewrite get_set_other; auto.
Qed.

End DictFacts.

(* ===================================================================== *)
(** * The merge engine *)
(* ===================================================================== *)

Module MergeFacts.
Import PyStr PyDict Patterns OcrMerge MergeSpec DictFacts.

Lemma truthy_false_iff (s : string) : truthy s = false <-> s = "".
Proof. destruct s; simpl; split; congruence. Qed.

Lemma truthy_true_iff (s : string) : truthy s = true <-> s <> "".
Proof. destruct s; simpl; split; congruence. Qed.

Lemma ok_validates (pat : Re.regex) (v : string) :
  _ok (Some pat) v = true <-> validates pat v.
Proof.
  unfold _ok, validates. destruct v as [|c v]; simpl.
  - split; [discriminate | intros [H _]; congruence].
  - destruct (Re.search pat _) as [m|].
    + split; auto. intros _. split; [discriminate | eauto].
    + split; [discriminate | intros [_ [m H]]; discriminate].
Qed.

Lemma ok_not_validates (pat : Re.regex) (v : string) :
  _ok (Some pat) v = false <-> ~ validates pat v.
Proof.
  rewrite <- ok_validates. destruct (_ok (Some pat) v); split; congruence.
Qed.

Lemma read_blank (d : dict) (k : string) : blank d k -> read d k = "".
Proof. unfold blank, read. intros [-> | ->]; reflexivity. Qed.

(** ** One call of [_choose] *)

Lemma choose_eq name pat tpl auto text (st : state) :
  _choose name pat tpl auto text st
  = (set (fst st) name (value (chosen name pat tpl auto text)),
     snd st ++ [chosen name pat tpl auto text]).
Proof.
  unfold chosen, _choose. cbv zeta.
  destruct pat;
    repeat match goal with
           | |- context [if ?b then _ else _] => destruct b
           end; reflexivity.
Qed.

Lemma chosen_field name pat tpl auto text :
  field (chosen name pat tpl auto text) = name.
Proof.
  unfold chosen, _choose. cbv zeta.
  destruct pat;
    repeat match goal with
           | |- context [if ?b then _ else _] => destruct b
           end; reflexivity.
Qed.

(** The pattern branch, first rule: the first source that validates. *)
Lemma chosen_auto_validates name pat tpl auto text :
  _ok (Some pat) (read tpl name) = false ->
  _ok (Some pat) (read auto name) = true ->
  chosen name (Some pat) tpl auto text
  = mkDecision name "auto" (read auto name).
Proof.
  intros Ht Ha. unfold chosen, _choose. cbv zeta. now rewrite Ht, Ha.
Qed.

(** The pattern branch, fallback: the first non-empty source. *)
Lemma chosen_template_fallback name pat tpl auto text :
  _ok (Some pat) (read tpl name) = false ->
  _ok (Some pat) (read auto name) = false ->
  _ok (Some pat) (read text name) = false ->
  read tpl name <> "" ->
  chosen name (Some pat) tpl auto text
  = mkDecision name "template" (read tpl name).
Proof.
  intros Ht Ha Hx Hne. unfold chosen, _choose. cbv zeta.
  rewrite Ht, Ha, Hx.
  apply truthy_true_iff in Hne. now rewrite Hne.
Qed.

(** The branch without a pattern, with nothing to choose from. *)
Lemma chosen_nothing_no_pattern name tpl auto text :
  read tpl name = "" -> read auto name = "" -> read text name = "" ->
  chosen name None tpl auto text = mkDecision name "text" "".
Proof.
  intros Ht Ha Hx. unfold chosen, _choose. cbv zeta.
  now rewrite Ht, Ha, Hx.
Qed.

(** The pattern branch, with nothing to choose from. *)
Lemma chosen_nothing_pattern name pat tpl auto text :
  read tpl name = "" -> read auto name = "" -> read text name = "" ->
  chosen name (Some pat) tpl auto text = mkDecision name "none" "".
Proof.
  intros Ht Ha Hx. unfold chosen, _choose. cbv zeta.
  now rewrite Ht, Ha, Hx.
Qed.

(** ** A run of [_choose] calls *)

Lemma choose_each_decisions l tpl auto text (st : state) :
  snd (choose_each l tpl auto text st)
  = snd st ++ field_decisions l tpl auto text.
Proof.
  unfold choose_each, field_decisions. revert st.
  induction l as [|[k p] l IH]; intros st; simpl.
  - now rewrite app_nil_r.
  - rewrite IH, choose_eq. simpl. now rewrite <- app_assoc.
Qed.

Lemma choose_each_keys l tpl auto text (st : state) (k : string) :
  In k (keys (fst (choose_each l tpl auto text st)))
  <-> In k (keys (fst st)) \/ In k (map fst l).
Proof.
  unfold choose_each. revert st.
  induction l as [|[k0 p] l IH]; intros st; simpl.
  - tauto.
  - rewrite IH, choose_eq. simpl. rewrite keys_set. intuition.
Qed.

Lemma choose_each_get_other l tpl auto text (st : state) (k : string) :
  ~ In k (map fst l) ->
  get (fst (choose_each l tpl auto text st)) k = get (fst st) k.
Proof.
  unfold choose_each. revert st.
  induction l as [|[k0 p] l IH]; intros st Hn; simpl; auto.
  simpl in Hn. rewrite IH by tauto. rewrite choose_eq. simpl.
  apply get_set_other. tauto.
Qed.

Lemma choose_each_get l tpl auto text (st : state) (k : string) p :
  NoDup (map fst l) -> In (k, p) l ->
  get (fst (choose_each l tpl auto text st)) k
  = Some (value (chosen k p tpl auto text)).
Proof.
  unfold choose_each. revert st.
  induction l as [|[k0 p0] l IH]; intros st Hnd Hin; simpl; [destruct Hin|].
  inversion Hnd as [|? ? Hn Hd]; subst.
  destruct Hin as [H|H].
  - inversion H; subst.
    fold (choose_each l tpl auto text (_choose k p tpl auto text st)).
    rewrite choose_each_get_other by assumption.
    rewrite choose_eq. simpl. apply get_set_same.
  - now apply IH.
Qed.

Lemma choose_each_key_list l tpl auto text :
  NoDup (map fst l) ->
  keys (fst (choose_each l tpl auto text (empty, []))) = map fst l.
Proof.
  intros Hnd.
  assert (G : forall st, (forall k, In k (map fst l) -> ~ In k (keys (fst st))) ->
                         keys (fst (choose_each l tpl auto text st))
                         = keys (fst st) ++ map fst l).
  { unfold choose_each. induction l as [|[k0 p0] l IH]; intros st Hfresh; simpl.
    - now rewrite app_nil_r.
    - inversion Hnd as [|? ? Hn Hd]; subst.
      rewrite IH; auto.
      + rewrite choose_eq. simpl.
        assert (E : forall d v, ~ In k0 (keys d) -> keys (set d k0 v) = keys d ++ [k0]).
        { clear. induction d as [|[k v'] d IHd]; simpl; intros v Hn; auto.
          destruct (String.eqb k k0) eqn:E.
          - apply String.eqb_eq in E. tauto.
          - simpl. f_equal. apply IHd. tauto. }
        rewrite E by (apply Hfresh; now left).
        now rewrite <- app_assoc.
      + intros k Hk. rewrite choose_eq. simpl. rewrite keys_set.
        intros [->|H]; [contradiction|].
        apply (Hfresh k); [now right | assumption]. }
  apply (G (empty, [])). intros k _ [].
Qed.

(** ** [smart_merge_fields] on the fixed-field types *)

Lemma declared_NoDup tipo : NoDup (map fst (declared_fields tipo)).
Proof.
  unfold declared_fields.
  destruct (String.eqb tipo "ine"); [|destruct (String.eqb tipo "curp");
                                      [|destruct (String.eqb tipo "acta")]];
    simpl; repeat constructor; simpl; intuition discriminate.
Qed.

Lemma declared_expected tipo :
  In tipo fixed_types ->
  map fst (declared_fields tipo) = expected_keys expected_keys_map tipo.
Proof.
  intros [<-|[<-|[<-|[]]]]; reflexivity.
Qed.

(** Evaluate the comparisons of literal strings in the goal. *)
Ltac eval_string_eqb :=
  repeat match goal with
         | |- context [String.eqb ?a ?b] =>
             let v := eval vm_compute in (String.eqb a b) in
             change (String.eqb a b) with v
         end.

Lemma smart_merge_fixed tipo tpl auto text :
  In tipo fixed_types ->
  smart_merge_fields tipo tpl auto text
  = (with_defaults
       (fst (choose_each (declared_fields tipo) tpl auto text (empty, [])))
       (expected_keys expected_keys_map tipo),
     field_decisions (declared_fields tipo) tpl auto text).
Proof.
  intros [<-|[<-|[<-|[]]]]; unfold smart_merge_fields;
    unfold andthen, choose_each, field_decisions, declared_fields, acta_fields,
      with_defaults;
    eval_string_eqb; cbv beta zeta iota; cbn [fold_left fst snd map];
    rewrite !choose_eq; cbn [fst snd app]; reflexivity.
Qed.

End MergeFacts.

Module MergeTheorems.
Import PyStr PyDict Patterns OcrMerge MergeSpec DictFacts MergeFacts.

(** ** The decision log holds one entry per declared field *)

Lemma decisions_for_fields l tpl auto text k p :
  NoDup (map fst l) -> In (k, p) l ->
  decisions_for k (field_decisions l tpl auto text) = [chosen k p tpl auto text].
Proof.
  unfold decisions_for, field_decisions.
  induction l as [|[k0 p0] l IH]; intros Hnd Hin; simpl; [destruct Hin|].
  inversion Hnd as [|? ? Hn Hd]; subst.
  rewrite chosen_field. simpl in *.
  destruct Hin as [H|H].
  - inversion H; subst. rewrite String.eqb_refl. f_equal.
    clear - Hn. induction l as [|[k1 p1] l IH]; simpl; auto.
    rewrite chosen_field. simpl in Hn.
    destruct (String.eqb k1 k) eqn:E.
    + apply String.eqb_eq in E. tauto.
    + apply IH. tauto.
  - destruct (String.eqb k0 k) eqn:E.
    + apply String.eqb_eq in E. subst. exfalso. apply Hn.
      change (In (fst (k, p)) (map fst l)). now apply in_map.
    + now apply IH.
Qed.

Lemma declared_fixed tipo k p :
  In (k, p) (declared_fields tipo) -> In tipo fixed_types.
Proof.
  unfold declared_fields, fixed_types.
  destruct (String.eqb tipo "ine") eqn:E1;
    [apply String.eqb_eq in E1; subst; simpl; tauto|].
  destruct (String.eqb tipo "curp") eqn:E2;
    [apply String.eqb_eq in E2; subst; simpl; tauto|].
  destruct (String.eqb tipo "acta") eqn:E3;
    [apply String.eqb_eq in E3; subst; simpl; tauto|].
  intros [].
Qed.

(** What the merge records for a declared field of a fixed-field type. *)
Lemma merge_declared_field tipo k p tpl auto text :
  In (k, p) (declared_fields tipo) ->
  get (fst (smart_merge_fields tipo tpl auto text)) k
  = Some (value (chosen k p tpl auto text))
  /\ decisions_for k (snd (smart_merge_fields tipo tpl auto text))
     = [chosen k p tpl auto text].
Proof.
  intros Hin.
  rewrite smart_merge_fixed by (eapply declared_fixed; eauto).
  cbn [fst snd]. split.
  - apply get_with_defaults_present.
    apply choose_each_get; auto using declared_NoDup.
  - apply decisions_for_fields; auto using declared_NoDup.
Qed.

(** A field of a fixed-field type that has no pattern and for which the
    three maps hold nothing resolves to [""], recorded as chosen from
    ["text"]. *)
Lemma merge_blank_field_without_pattern tipo k tpl auto text :
  In (k, None) (declared_fields tipo) ->
  blank tpl k -> blank auto k -> blank text k ->
  get (fst (smart_merge_fields tipo tpl auto text)) k = Some ""
  /\ decisions_for k (snd (smart_merge_fields tipo tpl auto text))
     = [mkDecision k "text" ""].
Proof.
  intros Hin Ht Ha Hx.
  destruct (merge_declared_field tipo k None tpl auto text Hin) as [Hg Hd].
  rewrite Hg, Hd.
  rewrite chosen_nothing_no_pattern by now apply read_blank.
  split; reflexivity.
Qed.

(** C1 (evaluation at the failing input).  For the type [ine] and three
    empty maps, the pattern-less fields [nombre] and [domicilio] resolve to
    [""] but their decisions are recorded as chosen from ["text"], whereas
    the fields that have a pattern are recorded as chosen from ["none"]. *)
Theorem C1_all_empty_field_is_recorded_as_text :
  smart_merge_fields "ine" empty empty empty
  = ([("nombre", ""); ("sexo", ""); ("domicilio", ""); ("clave_elector", "");
      ("curp", ""); ("anio_registro", ""); ("fecha_nacimiento", "");
      ("seccion", ""); ("vigencia", "")],
     [mkDecision "nombre" "text" "";
      mkDecision "sexo" "none" "";
      mkDecision "domicilio" "text" "";
      mkDecision "clave_elector" "none" "";
      mkDecision "curp" "none" "";
      mkDecision "anio_registro" "none" "";
      mkDecision "fecha_nacimiento" "none" "";
      mkDecision "seccion" "none" "";
      mkDecision "vigencia" "none" ""]).
Proof. vm_compute. reflexivity. Qed.

(** ** The catch-all type *)

Lemma otros_loop tpl auto text (l : dict) (st : state) :
  fold_left
    (fun st kv =>
       let k := fst kv in
       let v := snd kv in
       let src := otros_src tpl auto text k in
       (set (fst st) k v, snd st ++ [mkDecision k src v]))
    l st
  = (update (fst st) l,
     snd st ++ map (fun kv => mkDecision (fst kv) (otros_src tpl auto text (fst kv))
                                         (snd kv)) l).
Proof.
  unfold update. revert st. induction l as [|[k v] l IH]; intros [d log]; simpl.
  - now rewrite app_nil_r.
  - rewrite IH. simpl. now rewrite <- app_assoc.
Qed.

Lemma smart_merge_otros tpl auto text :
  smart_merge_fields "otros" tpl auto text
  = (with_defaults (update empty (otros_merged tpl auto text)) otros_keys,
     otros_decisions tpl auto text).
Proof.
  unfold smart_merge_fields. eval_string_eqb. cbv beta zeta iota.
  rewrite otros_loop. reflexivity.
Qed.

Lemma wf_empty : wf empty.
Proof. constructor. Qed.

Lemma wf_otros_merged tpl auto text : wf (otros_merged tpl auto text).
Proof. unfold otros_merged. repeat apply wf_update. apply wf_empty. Qed.

Lemma get_update_empty (d : dict) (k : string) :
  wf d -> get (update empty d) k = get d k.
Proof.
  intros Hwf. destruct (get d k) as [v|] eqn:E.
  - now apply get_update_present.
  - now rewrite get_update_absent.
Qed.

Lemma filter_key_wf (d : dict) (k v : string) :
  wf d -> get d k = Some v ->
  filter (fun kv => String.eqb (fst kv) k) d = [(k, v)].
Proof.
  unfold wf. induction d as [|[k0 v0] d IH]; simpl; [discriminate|].
  intros Hwf. inversion Hwf as [|? ? Hn Hd]; subst.
  destruct (String.eqb k0 k) eqn:E.
  - apply String.eqb_eq in E. subst k0. intros [= ->]. f_equal.
    clear - Hn. induction d as [|[k1 v1] d IH]; simpl; auto.
    simpl in Hn. destruct (String.eqb k1 k) eqn:E.
    + apply String.eqb_eq in E. tauto.
    + apply IH. tauto.
  - auto.
Qed.

Lemma decisions_for_otros tpl auto text k v :
  get (otros_merged tpl auto text) k = Some v ->
  decisions_for k (otros_decisions tpl auto text)
  = [mkDecision k (otros_src tpl auto text k) v].
Proof.
  intros Hg. unfold decisions_for, otros_decisions.
  pose proof (filter_key_wf _ _ _ (wf_otros_merged tpl auto text) Hg) as Hf.
  revert Hf. generalize (otros_merged tpl auto text). intros d.
  induction d as [|[k0 v0] d IH]; simpl; [discriminate|].
  destruct (String.eqb k0 k) eqn:E.
  - apply String.eqb_eq in E. subst k0. intros [= -> Hf]. f_equal.
    clear - Hf. induction d as [|[k1 v1] d IH]; simpl in *; auto.
    destruct (String.eqb k1 k); [discriminate | auto].
  - auto.
Qed.


(** ** The claims about the merge engine *)

(** C3 (counterexample).  With three empty maps the catch-all type still
    returns the six declared keys, none of which is a key of an input map. *)
Lemma C3_otros_defaults_counterexample :
  keys (fst (smart_merge_fields "otros" empty empty empty)) = otros_keys
  /\ keys empty = [].
Proof. split; vm_compute; reflexivity. Qed.

(** C3 (amended).  The declared-field defaults are applied for all four
    types.  For [otros] the keys of the returned map are the keys of the
    three input maps together with the six declared keys of [otros]; for
    [ine], [curp] and [acta] they are exactly the declared fields, in
    order; for any other type the returned map is empty. *)
Theorem C3_keys_of_merged_fields (tpl auto text : dict) :
  (forall k,
      In k (keys (fst (smart_merge_fields "otros" tpl auto text)))
      <-> In k (keys tpl) \/ In k (keys auto) \/ In k (keys text)
          \/ In k otros_keys)
  /\ (forall k,
         In k otros_keys ->
         get tpl k = None -> get auto k = None -> get text k = None ->
         get (fst (smart_merge_fields "otros" tpl auto text)) k = Some "")
  /\ keys (fst (smart_merge_fields "ine" tpl auto text))
     = ["nombre"; "sexo"; "domicilio"; "clave_elector"; "curp";
        "anio_registro"; "fecha_nacimiento"; "seccion"; "vigencia"]
  /\ keys (fst (smart_merge_fields "curp" tpl auto text))
     = ["curp"; "nombre"; "entidad_registro"]
  /\ keys (fst (smart_merge_fields "acta" tpl auto text))
     = ["curp"; "entidad_registro"; "municipio_registro"; "nombres";
        "primer_apellido"; "segundo_apellido"; "sexo"; "fecha_nacimiento";
        "lugar_nacimiento"]
  /\ (forall tipo,
         In tipo ["ine"; "curp"; "acta"; "otros"]
         \/ smart_merge_fields tipo tpl auto text = (empty, [])).
Proof.
  assert (Fixed : forall tipo, In tipo fixed_types ->
            keys (fst (smart_merge_fields tipo tpl auto text))
            = map fst (declared_fields tipo)).
  { intros tipo Hin. rewrite smart_merge_fixed by assumption. cbn [fst].
    rewrite <- declared_expected by assumption.
    pose proof (choose_each_key_list (declared_fields tipo) tpl auto text
                                     (declared_NoDup tipo)) as Hk.
    revert Hk.
    generalize (fst (choose_each (declared_fields tipo) tpl auto text (empty, []))).
    intros d Hk.
    assert (G : forall ks d0, (forall k, In k ks -> In k (keys d0)) ->
                              with_defaults d0 ks = d0).
    { unfold with_defaults. induction ks as [|k0 ks IH]; intros d0 Hall; simpl; auto.
      assert (E : setdefault d0 k0 "" = d0).
      { unfold setdefault.
        assert (Hm : mem d0 k0 = true) by (apply mem_In_keys, Hall; now left).
        now rewrite Hm. }
      rewrite E. apply IH. intros k Hin'. apply Hall. now right. }
    rewrite G; auto. intros k Hin'. now rewrite Hk. }
  repeat split.
  - rewrite smart_merge_otros. cbn [fst].
    rewrite keys_with_defaults, keys_update. unfold otros_merged.
    rewrite !keys_update. simpl. tauto.
  - rewrite smart_merge_otros. cbn [fst].
    rewrite keys_with_defaults, keys_update. unfold otros_merged.
    rewrite !keys_update. simpl. tauto.
  - intros k Hin Ht Ha Hx. rewrite smart_merge_otros. cbn [fst].
    apply get_with_defaults_absent; auto.
    rewrite get_update_empty by apply wf_otros_merged.
    unfold otros_merged. now rewrite !get_update_absent.
  - apply (Fixed "ine"). simpl. tauto.
  - apply (Fixed "curp"). simpl. tauto.
  - apply (Fixed "acta"). simpl. tauto.
  - intros tipo. unfold smart_merge_fields.
    destruct (String.eqb tipo "ine") eqn:E1;
      [apply String.eqb_eq in E1; subst; simpl; tauto|].
    destruct (String.eqb tipo "curp") eqn:E2;
      [apply String.eqb_eq in E2; subst; simpl; tauto|].
    destruct (String.eqb tipo "acta") eqn:E3;
      [apply String.eqb_eq in E3; subst; simpl; tauto|].
    destruct (String.eqb tipo "otros") eqn:E4;
      [apply String.eqb_eq in E4; subst; simpl; tauto|].
    right. cbv beta zeta. unfold skip.
    assert (E : expected_keys expected_keys_map tipo = []).
    { unfold expected_keys, expected_keys_map.
      rewrite String.eqb_sym, E1, String.eqb_sym, E2, String.eqb_sym, E3,
        String.eqb_sym, E4. reflexivity. }
    rewrite E. reflexivity.
Qed.

(** C5 (counterexample).  For [sexo] of an [ine], the template value ["h"]
    does not match the pattern and the auto value ["M"] does, yet the merge
    picks the template: values are upper-cased before they are tested. *)
Lemma C5_lowercase_template_counterexample :
  Re.search SEXO_REGEX "h" = None
  /\ Re.search SEXO_REGEX "M" = Some "M"
  /\ Re.search SEXO_REGEX "" = None
  /\ smart_merge_fields "ine" [("sexo", "h")] [("sexo", "M")] empty
     = ([("nombre", ""); ("sexo", "h"); ("domicilio", ""); ("clave_elector", "");
         ("curp", ""); ("anio_registro", ""); ("fecha_nacimiento", "");
         ("seccion", ""); ("vigencia", "")],
        [mkDecision "nombre" "text" "";
         mkDecision "sexo" "template" "h";
         mkDecision "domicilio" "text" "";
         mkDecision "clave_elector" "none" "";
         mkDecision "curp" "none" "";
         mkDecision "anio_registro" "none" "";
         mkDecision "fecha_nacimiento" "none" "";
         mkDecision "seccion" "none" "";
         mkDecision "vigencia" "none" ""]).
Proof. repeat split; vm_compute; reflexivity. Qed.

(** C5 (amended).  For every field of a fixed-field type that has a
    validation pattern, and template and auto values that are ASCII text
    once trimmed: if the auto value, trimmed and upper-cased, matches the
    pattern while the template value, trimmed and upper-cased, does not
    (even if non-empty), the merged value is the trimmed auto value and the
    one decision recorded for the field has chosen source ["auto"],
    whether the text value matches or not. *)
Theorem C5_merge_picks_validating_auto tipo k pat tpl auto text :
  In (k, Some pat) (declared_fields tipo) ->
  all is_ascii (read tpl k) = true ->
  all is_ascii (read auto k) = true ->
  validates pat (read auto k) ->
  ~ validates pat (read tpl k) ->
  get (fst (smart_merge_fields tipo tpl auto text)) k = Some (read auto k)
  /\ decisions_for k (snd (smart_merge_fields tipo tpl auto text))
     = [mkDecision k "auto" (read auto k)].
Proof.
  intros Hin _ _ Ha Ht.
  destruct (merge_declared_field tipo k (Some pat) tpl auto text Hin) as [Hg Hd].
  rewrite Hg, Hd.
  rewrite chosen_auto_validates;
    [split; reflexivity | now apply ok_not_validates | now apply ok_validates].
Qed.

Lemma C5_witness :
  get (fst (smart_merge_fields "ine" [("sexo", "sexo: x")] [("sexo", " h ")]
                               [("sexo", "zz")])) "sexo"
  = Some (read [("sexo", " h ")] "sexo")
  /\ decisions_for "sexo"
       (snd (smart_merge_fields "ine" [("sexo", "sexo: x")] [("sexo", " h ")]
                                [("sexo", "zz")]))
     = [mkDecision "sexo" "auto" (read [("sexo", " h ")] "sexo")].
Proof.
  apply (C5_merge_picks_validating_auto "ine" "sexo" SEXO_REGEX).
  - simpl. tauto.
  - vm_compute. reflexivity.
  - vm_compute. reflexivity.
  - split; [vm_compute; discriminate | exists "H"; vm_compute; reflexivity].
  - intros [_ [m H]]. vm_compute in H. discriminate.
Defined.

(** C6 (counterexample).  A template value made of one blank is not empty,
    the other two maps are empty, and the merge resolves [sexo] to [""]
    with chosen source ["none"]: values are trimmed before they are
    tested. *)
Lemma C6_blank_template_counterexample :
  smart_merge_fields "ine" [("sexo", " ")] empty empty
  = ([("nombre", ""); ("sexo", ""); ("domicilio", ""); ("clave_elector", "");
      ("curp", ""); ("anio_registro", ""); ("fecha_nacimiento", "");
      ("seccion", ""); ("vigencia", "")],
     [mkDecision "nombre" "text" "";
      mkDecision "sexo" "none" "";
      mkDecision "domicilio" "text" "";
      mkDecision "clave_elector" "none" "";
      mkDecision "curp" "none" "";
      mkDecision "anio_registro" "none" "";
      mkDecision "fecha_nacimiento" "none" "";
      mkDecision "seccion" "none" "";
      mkDecision "vigencia" "none" ""])
  /\ Re.search SEXO_REGEX " " = None.
Proof. split; vm_compute; reflexivity. Qed.

(** C6 (amended).  For every field of a fixed-field type that has a
    validation pattern: if the template value is non-empty after trimming
    and does not match the pattern, while the auto and text values are empty
    or absent, the merged value is the trimmed template value and the one
    decision recorded for the field has chosen source ["template"]. *)
Theorem C6_merge_falls_back_to_template tipo k pat tpl auto text :
  In (k, Some pat) (declared_fields tipo) ->
  read tpl k <> "" ->
  ~ validates pat (read tpl k) ->
  blank auto k -> blank text k ->
  get (fst (smart_merge_fields tipo tpl auto text)) k = Some (read tpl k)
  /\ decisions_for k (snd (smart_merge_fields tipo tpl auto text))
     = [mkDecision k "template" (read tpl k)].
Proof.
  intros Hin Hne Ht Ha Hx.
  destruct (merge_declared_field tipo k (Some pat) tpl auto text Hin) as [Hg Hd].
  rewrite Hg, Hd.
  apply read_blank in Ha, Hx.
  assert (Ot : _ok (Some pat) (read tpl k) = false) by now apply ok_not_validates.
  assert (Oa : _ok (Some pat) (read auto k) = false) by now rewrite Ha.
  assert (Ox : _ok (Some pat) (read text k) = false) by now rewrite Hx.
  rewrite (chosen_template_fallback k pat tpl auto text Ot Oa Ox Hne).
  split; reflexivity.
Qed.

Lemma C6_witness :
  get (fst (smart_merge_fields "acta" [("fecha_nacimiento", " 5 de julio ")]
                               [("fecha_nacimiento", "")] empty))
      "fecha_nacimiento"
  = Some (read [("fecha_nacimiento", " 5 de julio ")] "fecha_nacimiento")
  /\ decisions_for "fecha_nacimiento"
       (snd (smart_merge_fields "acta" [("fecha_nacimiento", " 5 de julio ")]
                                [("fecha_nacimiento", "")] empty))
     = [mkDecision "fecha_nacimiento" "template"
                   (read [("fecha_nacimiento", " 5 de julio ")] "fecha_nacimiento")].
Proof.
  apply (C6_merge_falls_back_to_template "acta" "fecha_nacimiento" DATE_REGEX).
  - simpl. tauto.
  - vm_compute. discriminate.
  - intros [_ [m H]]. vm_compute in H. discriminate.
  - right. reflexivity.
  - left. reflexivity.
Defined.

(** C10.  For the catch-all type the source is selected by key presence
    alone: a key bound to [""] in the text map and to a non-empty value in
    the auto map resolves to [""], and the one decision recorded for it has
    chosen source ["text"]. *)
Theorem C10_otros_text_key_wins_even_if_empty tpl auto text k v :
  wf text ->
  get text k = Some "" ->
  get auto k = Some v -> v <> "" ->
  get (fst (smart_merge_fields "otros" tpl auto text)) k = Some ""
  /\ decisions_for k (snd (smart_merge_fields "otros" tpl auto text))
     = [mkDecision k "text" ""].
Proof.
  intros Hwf Hx _ _.
  assert (Hm : get (otros_merged tpl auto text) k = Some "").
  { unfold otros_merged. now apply get_update_present. }
  rewrite smart_merge_otros. cbn [fst snd]. split.
  - apply get_with_defaults_present.
    rewrite get_update_empty by apply wf_otros_merged. exact Hm.
  - rewrite (decisions_for_otros _ _ _ _ _ Hm).
    unfold otros_src, mem. now rewrite Hx.
Qed.

Lemma C10_witness :
  get (fst (smart_merge_fields "otros" [("folio", "T9")] [("folio", "A1")]
                               [("emisor", "SEP"); ("folio", "")])) "folio"
  = Some ""
  /\ decisions_for "folio"
       (snd (smart_merge_fields "otros" [("folio", "T9")] [("folio", "A1")]
                                [("emisor", "SEP"); ("folio", "")]))
     = [mkDecision "folio" "text" ""].
Proof.
  apply (C10_otros_text_key_wins_even_if_empty _ _ _ "folio" "A1").
  - repeat constructor; simpl; intuition discriminate.
  - reflexivity.
  - reflexivity.
  - discriminate.
Defined.

End MergeTheorems.

(* ===================================================================== *)
(** * The order of binary64 floats *)
(* ===================================================================== *)

Module FloatFacts.
Import PyFloat FloatOrder.
Local Open Scope Z_scope.

Lemma SFcompare_rank (x y : spec_float) :
  match SFcompare x y, rank x, rank y with
  | Some Lt, Some a, Some b => lex_lt a b
  | Some Gt, Some a, Some b => lex_lt b a
  | Some Eq, Some a, Some b => lex_eq a b
  | None, None, _ | None, _, None => True
  | _, _, _ => False
  end.
Proof.
  destruct x as [[]|[]| |[] m1 e1], y as [[]|[]| |[] m2 e2];
    simpl; try tauto; try lia.
  - destruct (Z.compare_spec e1 e2).
    + subst. change (PosDef.Pos.compare_cont Eq m1 m2) with (Pos.compare m1 m2).
      destruct (Pos.compare_spec m1 m2); simpl; subst; auto; lia.
    + lia.
    + lia.
  - destruct (Z.compare_spec e1 e2).
    + subst. change (PosDef.Pos.compare_cont Eq m1 m2) with (Pos.compare m1 m2).
      destruct (Pos.compare_spec m1 m2); simpl; subst; auto; lia.
    + lia.
    + lia.
Qed.

Lemma ltb_rank (x y : float) :
  ltb x y = true <->
  match frank x, frank y with
  | Some a, Some b => lex_lt a b
  | _, _ => False
  end.
Proof.
  unfold ltb, frank. rewrite FloatAxioms.ltb_spec. unfold SFltb.
  pose proof (SFcompare_rank (Prim2SF x) (Prim2SF y)) as H.
  destruct (SFcompare (Prim2SF x) (Prim2SF y)) as [[]|],
    (rank (Prim2SF x)) as [[[a1 a2] a3]|], (rank (Prim2SF y)) as [[[b1 b2] b3]|];
    simpl in *; try tauto; split; try discriminate; try tauto;
      try lia.
Qed.

Lemma leb_rank (x y : float) :
  leb x y = true <->
  match frank x, frank y with
  | Some a, Some b => lex_lt a b \/ lex_eq a b
  | _, _ => False
  end.
Proof.
  unfold leb, frank. rewrite FloatAxioms.leb_spec. unfold SFleb.
  pose proof (SFcompare_rank (Prim2SF x) (Prim2SF y)) as H.
  destruct (SFcompare (Prim2SF x) (Prim2SF y)) as [[]|],
    (rank (Prim2SF x)) as [[[a1 a2] a3]|], (rank (Prim2SF y)) as [[[b1 b2] b3]|];
    simpl in *; try tauto; split; try discriminate; try tauto;
      try lia.
Qed.

Lemma eqb_rank (x y : float) :
  eqb x y = true <->
  match frank x, frank y with
  | Some a, Some b => lex_eq a b
  | _, _ => False
  end.
Proof.
  unfold eqb, frank. rewrite FloatAxioms.eqb_spec. unfold SFeqb.
  pose proof (SFcompare_rank (Prim2SF x) (Prim2SF y)) as H.
  destruct (SFcompare (Prim2SF x) (Prim2SF y)) as [[]|],
    (rank (Prim2SF x)) as [[[a1 a2] a3]|], (rank (Prim2SF y)) as [[[b1 b2] b3]|];
    simpl in *; try tauto; split; try discriminate; try tauto;
      try lia.
Qed.


Lemma not_true_iff (b : bool) (P : Prop) : (b = true <-> P) -> (b = false <-> ~ P).
Proof.
  intros [H1 H2]. destruct b; split; intros H.
  - discriminate.
  - exfalso. apply H. now apply H1.
  - intros HP. apply H2 in HP. discriminate.
  - reflexivity.
Qed.

Lemma ltb_rank_false (x y : float) :
  ltb x y = false <->
  ~ match frank x, frank y with
    | Some a, Some b => lex_lt a b
    | _, _ => False
    end.
Proof. apply not_true_iff, ltb_rank. Qed.

Lemma leb_rank_false (x y : float) :
  leb x y = false <->
  ~ match frank x, frank y with
    | Some a, Some b => lex_lt a b \/ lex_eq a b
    | _, _ => False
    end.
Proof. apply not_true_iff, leb_rank. Qed.

Lemma eqb_rank_false (x y : float) :
  eqb x y = false <->
  ~ match frank x, frank y with
    | Some a, Some b => lex_eq a b
    | _, _ => False
    end.
Proof. apply not_true_iff, eqb_rank. Qed.

Lemma frank_zero : frank zero = Some (0, 0, 0).
Proof. reflexivity. Qed.

Lemma frank_one : frank one = Some (1, -52, 4503599627370496).
Proof. reflexivity. Qed.

(** Decide a goal about comparisons of floats by passing to ranks. *)
Ltac float_order :=
  repeat match goal with
         | H : ltb _ _ = true |- _ => apply ltb_rank in H
         | H : ltb _ _ = false |- _ => apply ltb_rank_false in H
         | H : leb _ _ = true |- _ => apply leb_rank in H
         | H : leb _ _ = false |- _ => apply leb_rank_false in H
         | H : eqb _ _ = true |- _ => apply eqb_rank in H
         | H : eqb _ _ = false |- _ => apply eqb_rank_false in H
         end;
  try match goal with
      | |- ltb _ _ = true => apply ltb_rank
      | |- ltb _ _ = false => apply ltb_rank_false
      | |- leb _ _ = true => apply leb_rank
      | |- leb _ _ = false => apply leb_rank_false
      | |- eqb _ _ = true => apply eqb_rank
      | |- eqb _ _ = false => apply eqb_rank_false
      end;
  rewrite ?frank_zero, ?frank_one in *;
  repeat match goal with
         | H : context [frank ?x] |- _ =>
             destruct (frank x) as [[[? ?] ?]|]
         | |- context [frank ?x] =>
             destruct (frank x) as [[[? ?] ?]|]
         end;
  unfold lex_lt, lex_eq in *; try tauto; try lia.

Lemma leb_trans (x y z : float) :
  leb x y = true -> leb y z = true -> leb x z = true.
Proof. intros H1 H2. float_order. Qed.

Lemma leb_total (x y : float) :
  eqb x x = true -> eqb y y = true -> leb x y = false -> leb y x = true.
Proof. intros H1 H2 H3. float_order. Qed.

Lemma eqb_sym (x y : float) : eqb x y = true -> eqb y x = true.
Proof. intros H. float_order. Qed.

End FloatFacts.

(* ===================================================================== *)
(** * The geometry coercer *)
(* ===================================================================== *)

Module GeomFacts.
Import PyFloat PyVal Parsers GeomSpec FloatFacts.

(** ** Clamping *)

Lemma clamp_in_unit (v : float) :
  leb zero (clamp v) = true /\ leb (clamp v) one = true.
Proof.
  unfold clamp, max2, min2.
  destruct (ltb v one) eqn:E1;
    match goal with |- context [ltb zero ?m] => destruct (ltb zero m) eqn:E2 end;
    split; float_order.
Qed.

Lemma clamp_fix (v : float) :
  leb zero v = true -> leb v one = true -> eqb (clamp v) v = true.
Proof.
  intros H0 H1. unfold clamp, max2, min2.
  destruct (ltb v one) eqn:E1;
    match goal with |- context [ltb zero ?m] => destruct (ltb zero m) eqn:E2 end;
    float_order.
Qed.

Lemma clamp_mono (a b : float) :
  leb a b = true -> leb (clamp a) (clamp b) = true.
Proof.
  intros H. unfold clamp, max2, min2.
  destruct (ltb a one) eqn:A1;
    match goal with |- context [leb (if ltb zero ?m then _ else _) _] =>
                      destruct (ltb zero m) eqn:A2 end;
    destruct (ltb b one) eqn:B1;
    match goal with |- context [leb _ (if ltb zero ?m then _ else _)] =>
                      destruct (ltb zero m) eqn:B2 end;
    float_order.
Qed.

Lemma clamp_unit_box : order_and_clamp zero zero one one = unit_box.
Proof. reflexivity. Qed.

Lemma not_nan_iff (f : float) : is_nan f = false <-> eqb f f = true.
Proof. unfold is_nan. destruct (eqb f f); simpl; split; congruence. Qed.

Lemma within_unit_clamped (a b : float) :
  leb a b = true -> within_unit (clamp a) (clamp b).
Proof.
  intros H. unfold within_unit.
  pose proof (clamp_in_unit a) as [Ha _].
  pose proof (clamp_in_unit b) as [_ Hb].
  auto using clamp_mono.
Qed.

(** Ordering the endpoints and clamping yields a canonical rectangle as
    soon as no endpoint is NaN. *)
Lemma order_and_clamp_canonical (x0 y0 x1 y1 : float) :
  is_nan x0 = false -> is_nan y0 = false ->
  is_nan x1 = false -> is_nan y1 = false ->
  canonical (order_and_clamp x0 y0 x1 y1).
Proof.
  rewrite !not_nan_iff. intros Nx0 Ny0 Nx1 Ny1.
  unfold order_and_clamp, canonical.
  destruct (leb x0 x1) eqn:Ex; destruct (leb y0 y1) eqn:Ey;
    split; apply within_unit_clamped; auto using leb_total.
Qed.

(** On endpoints already in order within the unit interval it changes
    nothing. *)
Lemma order_and_clamp_fix (xmin ymin xmax ymax : float) :
  within_unit xmin xmax -> within_unit ymin ymax ->
  rect_eq (order_and_clamp xmin ymin xmax ymax) (xmin, ymin, xmax, ymax).
Proof.
  intros (Hx0 & Hx & Hx1) (Hy0 & Hy & Hy1).
  unfold order_and_clamp. rewrite Hx, Hy. unfold rect_eq, feq.
  repeat split; apply clamp_fix; eauto using leb_trans.
Qed.


(** ** Clipping *)

(** Away from NaN, the clamp of the source is the clip to the unit
    interval. *)
Lemma clamp_clip (v : float) : is_nan v = false -> clamp v = clip v.
Proof.
  rewrite not_nan_iff. intros N. unfold clamp, clip, max2, min2.
  destruct (ltb v one) eqn:E1.
  - destruct (ltb zero v) eqn:E2; destruct (leb v zero) eqn:E3;
      try destruct (leb one v) eqn:E4; try reflexivity; exfalso; float_order.
  - change (ltb zero one) with true. cbv iota.
    destruct (leb v zero) eqn:E3; try destruct (leb one v) eqn:E4;
      try reflexivity; exfalso; float_order.
Qed.

Lemma smaller_not_nan (a b : float) :
  is_nan a = false -> is_nan b = false -> is_nan (smaller a b) = false.
Proof. unfold smaller. now destruct (leb a b). Qed.

Lemma larger_not_nan (a b : float) :
  is_nan a = false -> is_nan b = false -> is_nan (larger a b) = false.
Proof. unfold larger. now destruct (leb a b). Qed.

(** The tail of the coercer computes the box of the two corners. *)
Lemma order_and_clamp_box (x0 y0 x1 y1 : float) :
  is_nan x0 = false -> is_nan y0 = false ->
  is_nan x1 = false -> is_nan y1 = false ->
  order_and_clamp x0 y0 x1 y1 = box_of x0 y0 x1 y1.
Proof.
  intros Nx0 Ny0 Nx1 Ny1. unfold box_of.
  rewrite <- !clamp_clip by auto using smaller_not_nan, larger_not_nan.
  unfold order_and_clamp, smaller, larger.
  now destruct (leb x0 x1), (leb y0 y1).
Qed.

(** ** Tame inputs *)

Section Tame.
Variable float_of_str : string -> option float.
#[local] Abbreviation tame := (tame float_of_str).
#[local] Abbreviation tame_leaf := (tame_leaf float_of_str).
#[local] Abbreviation to_float := (to_float float_of_str).
#[local] Abbreviation _to_float := (_to_float float_of_str).
#[local] Abbreviation numeric_leaves := (numeric_leaves float_of_str).
#[local] Abbreviation coordinate := (coordinate float_of_str).

Lemma tame_to_float (v : value) (f : float) :
  tame_leaf v -> to_float v = Some f -> is_nan f = false.
Proof. unfold GeomSpec.tame_leaf. intros H E. now rewrite E in H. Qed.

Lemma tame_default (v : value) (dflt : float) :
  tame_leaf v -> is_nan dflt = false -> is_nan (_to_float v dflt) = false.
Proof.
  intros Hv Hd. unfold Parsers._to_float.
  destruct (to_float v) as [f|] eqn:E; eauto using tame_to_float.
Qed.

(** What [_to_float] returns is the coordinate read from the value. *)
Lemma coordinate_to_float (v : value) (dflt : float) :
  coordinate v dflt (_to_float v dflt).
Proof.
  unfold GeomSpec.coordinate, Parsers._to_float. now destruct (to_float v).
Qed.

Lemma tame_dict_corners (d : list (string * value)) :
  tame (VDict d) ->
  tame_leaf (dict_get d "x0") /\ tame_leaf (dict_get d "y0")
  /\ tame_leaf (dict_get d "x1") /\ tame_leaf (dict_get d "y1").
Proof.
  simpl. unfold corner_keys. intros H.
  inversion H as [|? ? H0 Ha]; subst. inversion Ha as [|? ? H1 Hb]; subst.
  inversion Hb as [|? ? H2 Hc]; subst. inversion Hc as [|? ? H3 ?]; subst.
  tauto.
Qed.

(** An item of a list all of whose leaves are tame is itself tame: it is
    one of the leaves, or it is not a scalar and does not convert. *)
Lemma tame_leaf_in (l : list value) (x : value) :
  Forall tame_leaf (flat_map _flatten l) -> In x l -> tame_leaf x.
Proof.
  intros H Hin. rewrite Forall_forall in H.
  destruct x as [| b | z | f | s | l' | d];
    try (apply H; apply in_flat_map; eexists; split; [exact Hin | now left]).
  exact I.
Qed.

Lemma tame_pair_items (a b c d : value) :
  tame (VSeq [VSeq [a; b]; VSeq [c; d]]) ->
  tame_leaf a /\ tame_leaf b /\ tame_leaf c /\ tame_leaf d.
Proof.
  intros [H _].
  assert (E : _flatten (VSeq [VSeq [a; b]; VSeq [c; d]])
              = flat_map _flatten [a; b; c; d]).
  { simpl. now rewrite !app_nil_r, <- !app_assoc. }
  rewrite E in H.
  repeat split; apply (tame_leaf_in [a; b; c; d]); auto; simpl; tauto.
Qed.

Lemma numeric_leaves_app (l1 l2 : list value) :
  numeric_leaves (l1 ++ l2) = numeric_leaves l1 ++ numeric_leaves l2.
Proof.
  induction l1 as [|z l1 IH]; simpl; auto.
  destruct (to_float z); simpl; now rewrite IH.
Qed.

(** The leaves that convert are not NaN. *)
Lemma tame_numeric_leaves (flat : list value) :
  Forall tame_leaf flat ->
  Forall (fun f => is_nan f = false) (numeric_leaves flat).
Proof.
  induction 1 as [|x flat Hx _ IH]; simpl; [constructor|].
  destruct (to_float x) as [f|] eqn:E; auto.
  constructor; eauto using tame_to_float.
Qed.

Lemma tame_numbers (l : list value) :
  Forall tame_leaf l -> Forall (fun v => to_float v <> None) l ->
  exists fs, map to_float l = map Some fs
             /\ Forall (fun f => is_nan f = false) fs.
Proof.
  induction l as [|v l IH]; simpl; intros Ht Hn.
  - exists []. split; constructor.
  - inversion Ht as [|? ? Hv Hl]; subst.
    inversion Hn as [|? ? Hv' Hl']; subst.
    destruct (IH Hl Hl') as (fs & E & F).
    destruct (to_float v) as [f|] eqn:Ef; [|congruence].
    exists (f :: fs). simpl. rewrite E. split; auto.
    constructor; eauto using tame_to_float.
Qed.

Lemma flatten_numbers (l : list value) :
  forallb is_number l = true -> flat_map _flatten l = l.
Proof.
  induction l as [|v l IH]; simpl; auto.
  intros H. apply andb_true_iff in H. destruct H as [Hv Hl].
  rewrite IH by exact Hl. now destruct v.
Qed.

Lemma Forall4 (P : float -> Prop) (a b c d : float) (rest : list float) :
  Forall P (a :: b :: c :: d :: rest) -> P a /\ P b /\ P c /\ P d.
Proof.
  intros H. inversion H as [|? ? Ha H1]; subst.
  inversion H1 as [|? ? Hb H2]; subst.
  inversion H2 as [|? ? Hc H3]; subst.
  inversion H3; subst. tauto.
Qed.

(** The inputs that pass the two-by-two guard. *)
Lemma pair_shape (l : list value) :
  (length l =? 2) && forallb is_pair l = true ->
  exists a b c d, l = [VSeq [a; b]; VSeq [c; d]].
Proof.
  intros H. apply andb_true_iff in H. destruct H as [L P].
  apply Nat.eqb_eq in L.
  destruct l as [|p [|q [|? ?]]]; try discriminate.
  simpl in P. rewrite andb_true_r in P. apply andb_true_iff in P.
  destruct P as [Pp Pq].
  destruct p as [| | | | | lp |]; try discriminate.
  destruct q as [| | | | | lq |]; try discriminate.
  simpl in Pp, Pq. apply Nat.eqb_eq in Pp, Pq.
  destruct lp as [|a [|b [|? ?]]]; try discriminate.
  destruct lq as [|c [|d [|? ?]]]; try discriminate.
  now exists a, b, c, d.
Qed.

(** Tame inputs are coerced to a canonical rectangle. *)
Lemma coerce_geom_tame (geom : value) :
  tame geom ->
  exists r, _coerce_geom float_of_str geom = Returns r /\ canonical r.
Proof.
  intros Ht.
  assert (N0 : is_nan zero = false) by reflexivity.
  assert (N1 : is_nan one = false) by reflexivity.
  assert (U : canonical (order_and_clamp zero zero one one)).
  { now apply order_and_clamp_canonical. }
  destruct geom as [| b | z | f | s | l | d]; simpl _coerce_geom; eauto.
  - (* VSeq *)
    destruct ((length l =? 4) && forallb is_number l) eqn:E4.
    + apply andb_true_iff in E4. destruct E4 as [El En].
      apply Nat.eqb_eq in El.
      destruct Ht as [Hl Hc].
      change (_flatten (VSeq l)) with (flat_map _flatten l) in Hl.
      rewrite (flatten_numbers l En) in Hl.
      destruct (tame_numbers l Hl (Hc (conj El En))) as (fs & E & F).
      assert (length fs = 4) as Lf.
      { rewrite <- El, <- (length_map to_float l), E. symmetry. apply length_map. }
      destruct fs as [|x0 [|y0 [|x1 [|y1 [|? ?]]]]]; try discriminate.
      rewrite E. simpl.
      apply Forall4 in F. destruct F as (F0 & F1 & F2 & F3).
      eexists. split; [reflexivity|]. now apply order_and_clamp_canonical.
    + destruct ((length l =? 2) && forallb is_pair l) eqn:E2.
      * destruct (pair_shape l E2) as (a & b & c & d' & ->).
        destruct (tame_pair_items a b c d' Ht) as (Ha & Hb & Hc & Hd).
        eexists. split; [reflexivity|].
        apply order_and_clamp_canonical; apply tame_default; auto.
      * destruct Ht as [Hl _].
        pose proof (tame_numeric_leaves _ Hl) as F.
        change (_flatten (VSeq l)) with (flat_map _flatten l) in F.
        destruct (numeric_leaves (flat_map _flatten l))
          as [|x0 [|y0 [|x1 [|y1 rest]]]]; simpl; eauto.
        apply Forall4 in F. destruct F as (F0 & F1 & F2 & F3).
        eexists. split; [reflexivity|]. now apply order_and_clamp_canonical.
  - (* VDict *)
    destruct (tame_dict_corners d Ht) as (H0 & H1 & H2 & H3).
    eexists. split; [reflexivity|].
    apply order_and_clamp_canonical; apply tame_default; auto.
Qed.

(** In a dictionary each corner is read on its own, with its own
    default. *)
Lemma coerce_dict_corners (d : list (string * value)) :
  tame (VDict d) ->
  exists x0 y0 x1 y1,
    coordinate (dict_get d "x0") zero x0
    /\ coordinate (dict_get d "y0") zero y0
    /\ coordinate (dict_get d "x1") one x1
    /\ coordinate (dict_get d "y1") one y1
    /\ _coerce_geom float_of_str (VDict d) = Returns (box_of x0 y0 x1 y1).
Proof.
  intros Ht. destruct (tame_dict_corners d Ht) as (H0 & H1 & H2 & H3).
  exists (_to_float (dict_get d "x0") zero), (_to_float (dict_get d "y0") zero),
         (_to_float (dict_get d "x1") one), (_to_float (dict_get d "y1") one).
  repeat (split; [apply coordinate_to_float|]).
  simpl _coerce_geom. f_equal.
  apply order_and_clamp_box; apply tame_default; auto.
Qed.

(** So is each coordinate of a pair of points. *)
Lemma coerce_pair_corners (a b c d : value) :
  tame (VSeq [VSeq [a; b]; VSeq [c; d]]) ->
  exists x0 y0 x1 y1,
    coordinate a zero x0 /\ coordinate b zero y0
    /\ coordinate c one x1 /\ coordinate d one y1
    /\ _coerce_geom float_of_str (VSeq [VSeq [a; b]; VSeq [c; d]])
       = Returns (box_of x0 y0 x1 y1).
Proof.
  intros Ht. destruct (tame_pair_items a b c d Ht) as (Ha & Hb & Hc & Hd).
  exists (_to_float a zero), (_to_float b zero),
         (_to_float c one), (_to_float d one).
  repeat (split; [apply coordinate_to_float|]).
  simpl _coerce_geom. f_equal.
  apply order_and_clamp_box; apply tame_default; auto.
Qed.

End Tame.
End GeomFacts.

Module GeomTheorems.
Import PyFloat PyVal Parsers GeomSpec FloatFacts GeomFacts.

Section Shapes.
Variable float_of_str : string -> option float.
#[local] Abbreviation to_float := (to_float float_of_str).
#[local] Abbreviation coerce := (_coerce_geom float_of_str).

Lemma coerce_scalar (geom : value) :
  scalar_shape geom -> coerce geom = Returns unit_box.
Proof. destruct geom; simpl; tauto. Qed.

Lemma coerce_flattened_few (geom : value) :
  flattened_shape geom ->
  length (numeric_leaves float_of_str (_flatten geom)) < 4 ->
  coerce geom = Returns unit_box.
Proof.
  intros (l & -> & E4 & E2) Hlen.
  apply Nat.leb_gt in Hlen.
  unfold _coerce_geom. rewrite E4, E2. cbv zeta. now rewrite Hlen.
Qed.

Lemma coerce_dict_no_coordinate (d : list (string * value)) :
  to_float (dict_get d "x0") = None -> to_float (dict_get d "y0") = None ->
  to_float (dict_get d "x1") = None -> to_float (dict_get d "y1") = None ->
  coerce (VDict d) = Returns unit_box.
Proof.
  intros E0 E1 E2 E3. simpl. unfold _to_float. now rewrite E0, E1, E2, E3.
Qed.

Lemma coerce_four_numbers (a b c d : value) (x0 y0 x1 y1 : float) :
  number float_of_str a x0 -> number float_of_str b y0 ->
  number float_of_str c x1 -> number float_of_str d y1 ->
  coerce (VSeq [a; b; c; d]) = Returns (order_and_clamp x0 y0 x1 y1).
Proof.
  intros [Na Ea] [Nb Eb] [Nc Ec] [Nd Ed].
  simpl. rewrite Na, Nb, Nc, Nd. simpl. now rewrite Ea, Eb, Ec, Ed.
Qed.

Lemma coerce_named_corners (d : list (string * value)) (x0 y0 x1 y1 : float) :
  to_float (dict_get d "x0") = Some x0 -> to_float (dict_get d "y0") = Some y0 ->
  to_float (dict_get d "x1") = Some x1 -> to_float (dict_get d "y1") = Some y1 ->
  coerce (VDict d) = Returns (order_and_clamp x0 y0 x1 y1).
Proof.
  intros E0 E1 E2 E3. simpl. unfold _to_float. now rewrite E0, E1, E2, E3.
Qed.

End Shapes.

(** C8.  Geometry round-trip: a well-formed rectangle with
    [0 <= xmin <= xmax <= 1] and [0 <= ymin <= ymax <= 1], given as a flat
    sequence of four numbers or as the named corners [x0, y0, x1, y1] of a
    dictionary, is coerced to [(xmin, ymin, xmax, ymax)] (equal in the
    sense of [==]). *)
Theorem C8_geometry_round_trip float_of_str (xmin ymin xmax ymax : float) :
  within_unit xmin xmax -> within_unit ymin ymax ->
  (forall a b c d,
      number float_of_str a xmin -> number float_of_str b ymin ->
      number float_of_str c xmax -> number float_of_str d ymax ->
      exists r, _coerce_geom float_of_str (VSeq [a; b; c; d]) = Returns r
                /\ rect_eq r (xmin, ymin, xmax, ymax))
  /\ (forall d,
         number float_of_str (dict_get d "x0") xmin ->
         number float_of_str (dict_get d "y0") ymin ->
         number float_of_str (dict_get d "x1") xmax ->
         number float_of_str (dict_get d "y1") ymax ->
         exists r, _coerce_geom float_of_str (VDict d) = Returns r
                   /\ rect_eq r (xmin, ymin, xmax, ymax)).
Proof.
  intros Hx Hy. split.
  - intros a b c d Ha Hb Hc Hd. eexists. split.
    + eapply coerce_four_numbers; eauto.
    + now apply order_and_clamp_fix.
  - intros d [_ E0] [_ E1] [_ E2] [_ E3]. eexists. split.
    + eapply coerce_named_corners; eauto.
    + now apply order_and_clamp_fix.
Qed.

Lemma C8_witness :
  (exists r,
      _coerce_geom (fun _ => None)
                   (VSeq [VFloat 0.25%float; VInt 0; VFloat 0.75%float; VBool true])
      = Returns r
      /\ rect_eq r (0.25%float, 0%float, 0.75%float, 1%float))
  /\ (exists r,
         _coerce_geom (fun _ => None)
                      (VDict [("y1", VInt 1); ("x1", VFloat 0.75%float);
                              ("x0", VFloat 0.25%float); ("y0", VFloat 0%float)])
         = Returns r
         /\ rect_eq r (0.25%float, 0%float, 0.75%float, 1%float)).
Proof.
  destruct (C8_geometry_round_trip (fun _ => None)
              0.25%float 0%float 0.75%float 1%float) as [Hflat Hdict].
  - repeat split; reflexivity.
  - repeat split; reflexivity.
  - split.
    + apply Hflat; split; reflexivity.
    + apply Hdict; split; reflexivity.
Defined.




End GeomTheorems.

(* ===================================================================== *)
(** * Strings *)
(* ===================================================================== *)

Module StrFacts.
Import PyStr TextSpec.

Lemma str_app_empty_r (s : string) : (s ++ "")%string = s.
Proof. induction s; simpl; congruence. Qed.

Lemma str_app_assoc (a b c : string) : ((a ++ b) ++ c = a ++ (b ++ c))%string.
Proof. induction a; simpl; congruence. Qed.

Lemma str_length_app (a b : string) :
  String.length (a ++ b) = String.length a + String.length b.
Proof. induction a; simpl; auto. Qed.

Lemma str_app_inv_length (a b c d : string) :
  (a ++ b = c ++ d)%string -> String.length b = String.length d ->
  a = c /\ b = d.
Proof.
  revert c. induction a as [|x a IH]; intros [|y c] E L; simpl in *.
  - auto.
  - subst b. simpl in L. rewrite str_length_app in L. lia.
  - subst d. simpl in L. rewrite str_length_app in L. lia.
  - inversion E; subst. destruct (IH c H1 L). subst. auto.
Qed.

Lemma take_app_length (m rest : string) :
  take (String.length (m ++ rest) - String.length rest) (m ++ rest) = m.
Proof.
  rewrite str_length_app, Nat.add_sub.
  induction m as [|c m IH]; simpl.
  - destruct rest; reflexivity.
  - now rewrite IH.
Qed.

Lemma last_char_app (p : option ascii) (a b : string) :
  last_char p (a ++ b) = last_char (last_char p a) b.
Proof. revert p. induction a; simpl; auto. Qed.

Lemma all_app (f : ascii -> bool) (a b : string) :
  all f (a ++ b) = all f a && all f b.
Proof. induction a; simpl; auto. rewrite IHa. now rewrite andb_assoc. Qed.

Lemma after_prefix_app (p s : string) : after_prefix p (p ++ s) = Some s.
Proof. induction p; simpl; auto. now rewrite Ascii.eqb_refl. Qed.

Lemma after_prefix_inv (p s rest : string) :
  after_prefix p s = Some rest -> s = (p ++ rest)%string.
Proof.
  revert s. induction p as [|a p IH]; intros [|b s]; simpl; try congruence.
  destruct (Ascii.eqb b a) eqn:E; [|discriminate].
  apply Ascii.eqb_eq in E. subst. intros H. f_equal. auto.
Qed.

Lemma code_inj (a b : ascii) : code a = code b -> a = b.
Proof.
  unfold code. intros H.
  rewrite <- (ascii_nat_embedding a), <- (ascii_nat_embedding b). now rewrite H.
Qed.

End StrFacts.

(* ===================================================================== *)
(** * The matcher against the meaning of patterns *)
(* ===================================================================== *)

Module ReFacts.
Import PyStr Re TextSpec ReSpec StrFacts.

(** Every match leaves a suffix of the text, and the previous character
    is the last one consumed. *)
Lemma Matches_consumed r p s p' s' :
  Matches r p s p' s' ->
  exists u, s = (u ++ s')%string /\ p' = last_char p u.
Proof.
  revert r p s p' s'.
  apply (Matches_mind
           (fun r p s p' s' => exists u, s = (u ++ s')%string /\ p' = last_char p u)
           (fun r n p s p' s' => exists u, s = (u ++ s')%string /\ p' = last_char p u)).
  - intros. now exists "".
  - intros. now exists (String c "").
  - intros. now exists "".
  - intros. now exists "".
  - intros r1 r2 p s p1 s1 p2 s2 _ (u & -> & ->) _ (v & -> & ->).
    exists (u ++ v)%string. now rewrite str_app_assoc, last_char_app.
  - auto.
  - auto.
  - auto.
  - intros. now exists u.
  - intros. now exists "".
  - intros r n p s p1 s1 p2 s2 _ (u & -> & ->) _ (v & -> & ->).
    exists (u ++ v)%string. now rewrite str_app_assoc, last_char_app.
Qed.

Section Soundness.
Context {A : Type}.
Implicit Types (k : @cont A) (x : A).

Lemma many_sound neg rs k p s x :
  many neg rs k p s = Some x ->
  exists p' s', Matches (Many neg rs) p s p' s' /\ k p' s' = Some x.
Proof.
  revert p. induction s as [|c s IH]; intros p; simpl.
  - intros H. exists p, "". split; auto.
    apply (M_Many neg rs p "" ""). reflexivity.
  - destruct (in_class neg rs c) eqn:E.
    + destruct (many neg rs k (Some c) s) as [y|] eqn:M; simpl.
      * intros [= <-]. destruct (IH _ M) as (p' & s' & HM & Hk).
        exists p', s'. split; auto.
        inversion HM; subst.
        apply (M_Many neg rs p (String c u) s'). simpl. now rewrite E.
      * intros H. exists p, (String c s). split; auto.
        apply (M_Many neg rs p "" (String c s)). reflexivity.
    + intros H. exists p, (String c s). split; auto.
      apply (M_Many neg rs p "" (String c s)). reflexivity.
Qed.

Section Step.
Variable r : regex.
Hypothesis step_sound :
  forall k p s x, rmatch r p s k = Some x ->
                  exists p' s', Matches r p s p' s' /\ k p' s' = Some x.

Lemma more_sound k n p s x :
  more (rmatch r) k n p s = Some x ->
  exists m p' s', m <= n /\ Iter r m p s p' s' /\ k p' s' = Some x.
Proof.
  revert p s. induction n as [|n IH]; intros p s; simpl.
  - intros H. exists 0, p, s. repeat split; auto. constructor.
  - destruct (rmatch r p s (more (rmatch r) k n)) as [y|] eqn:E; simpl.
    + intros [= <-].
      destruct (step_sound _ _ _ _ E) as (p1 & s1 & HM & Hk).
      destruct (IH _ _ Hk) as (m & p' & s' & Hm & HI & Hk').
      exists (S m), p', s'. repeat split; auto; [lia | econstructor; eauto].
    + intros H. exists 0, p, s. repeat split; auto; [lia | constructor].
Qed.

Lemma must_sound k extra lo p s x :
  must (rmatch r) k extra lo p s = Some x ->
  exists m p' s', lo <= m /\ m <= lo + extra /\ Iter r m p s p' s'
                  /\ k p' s' = Some x.
Proof.
  revert p s. induction lo as [|lo IH]; intros p s; simpl.
  - intros H. destruct (more_sound _ _ _ _ _ H) as (m & p' & s' & Hm & HI & Hk).
    exists m, p', s'. repeat split; auto; lia.
  - intros H.
    destruct (step_sound _ _ _ _ H) as (p1 & s1 & HM & Hk).
    destruct (IH _ _ Hk) as (m & p' & s' & Hlo & Hhi & HI & Hk').
    exists (S m), p', s'. repeat split; auto; [lia | lia | econstructor; eauto].
Qed.
End Step.
End Soundness.

(** Whatever the matcher finds is a match. *)
Lemma rmatch_sound r : forall A (k : @cont A) p s x,
  rmatch r p s k = Some x ->
  exists p' s', Matches r p s p' s' /\ k p' s' = Some x.
Proof.
  induction r as [| neg rs | | | r1 IH1 r2 IH2 | r1 IH1 r2 IH2 | r IH lo extra | neg rs];
    intros A k p s x; simpl.
  - intros H. exists p, s. split; auto. constructor.
  - destruct s as [|c s]; [discriminate|].
    destruct (in_class neg rs c) eqn:E; [|discriminate].
    intros H. exists (Some c), s. split; auto. now constructor.
  - destruct (at_boundary p s) eqn:E; [|discriminate].
    intros H. exists p, s. split; auto. now constructor.
  - destruct p; [discriminate|].
    intros H. exists None, s. split; auto. constructor.
  - intros H. destruct (IH1 _ _ _ _ _ H) as (p1 & s1 & H1 & Hk).
    destruct (IH2 _ _ _ _ _ Hk) as (p2 & s2 & H2 & Hk').
    exists p2, s2. split; auto. econstructor; eauto.
  - destruct (rmatch r1 p s k) as [y|] eqn:E; simpl.
    + intros [= <-]. destruct (IH1 _ _ _ _ _ E) as (p' & s' & H1 & Hk).
      exists p', s'. split; auto. now apply M_AltL.
    + intros H. destruct (IH2 _ _ _ _ _ H) as (p' & s' & H2 & Hk).
      exists p', s'. split; auto. now apply M_AltR.
  - intros H.
    destruct (must_sound r (IH A) _ _ _ _ _ _ H)
      as (m & p' & s' & Hlo & Hhi & HI & Hk).
    exists p', s'. split; auto. econstructor; eauto.
  - apply many_sound.
Qed.


Section Completeness.
Context {A : Type}.
Implicit Types (k : @cont A) (x : A).

Lemma orelse_some (a b : option A) :
  (exists y, a = Some y) \/ (exists y, b = Some y) ->
  exists y, orelse a b = Some y.
Proof. destruct a; simpl; intros [[y H]|[y H]]; eauto; discriminate. Qed.

Lemma many_complete neg rs k u : forall p s x,
  all (in_class neg rs) u = true ->
  k (last_char p u) s = Some x ->
  exists y, many neg rs k p (u ++ s) = Some y.
Proof.
  induction u as [|c u IH]; intros p s x Hall Hk; simpl in *.
  - destruct s as [|c s]; simpl; eauto.
    destruct (in_class neg rs c); eauto.
    apply orelse_some. eauto.
  - apply andb_true_iff in Hall. destruct Hall as [Hc Hu]. rewrite Hc.
    apply orelse_some. left. eauto.
Qed.

End Completeness.

(** Whatever a pattern can match, with something that remains to be matched
    succeeding after it, the matcher does not miss: it finds that match or
    one it tries before it. *)
Lemma rmatch_complete r p s p' s' :
  Matches r p s p' s' ->
  forall A (k : @cont A) x, k p' s' = Some x -> exists y, rmatch r p s k = Some y.
Proof.
  revert r p s p' s'.
  apply (Matches_mind
           (fun r p s p' s' =>
              forall A (k : @cont A) x, k p' s' = Some x ->
                                        exists y, rmatch r p s k = Some y)
           (fun r n p s p' s' =>
              forall A (k : @cont A) x,
                k p' s' = Some x ->
                (forall j, n <= j -> exists y, more (rmatch r) k j p s = Some y)
                /\ (forall lo extra, lo <= n -> n <= lo + extra ->
                                     exists y, must (rmatch r) k extra lo p s = Some y))).
  - intros p s A k x H. simpl. eauto.
  - intros neg rs p c s E A k x H. simpl. rewrite E. eauto.
  - intros p s E A k x H. simpl. rewrite E. eauto.
  - intros s A k x H. simpl. eauto.
  - intros r1 r2 p s p1 s1 p2 s2 _ IH1 _ IH2 A k x H. simpl.
    destruct (IH2 A k x H) as [y Hy]. eapply IH1; eauto.
  - intros r1 r2 p s p' s' _ IH A k x H. simpl.
    apply orelse_some. left. eauto.
  - intros r1 r2 p s p' s' _ IH A k x H. simpl.
    apply orelse_some. right. eauto.
  - intros r lo extra n p s p' s' Hlo Hhi _ IH A k x H. simpl.
    destruct (IH A k x H) as [_ Hmust]. auto.
  - intros neg rs p u s Hall A k x H. simpl. eapply many_complete; eauto.
  - intros r p s A k x H. split.
    + intros [|j] _; simpl; eauto. apply orelse_some. eauto.
    + intros lo extra Hlo _. assert (lo = 0) by lia. subst. simpl.
      destruct extra; simpl; eauto. apply orelse_some. eauto.
  - intros r n p s p1 s1 p2 s2 _ IHM _ IHI A k x H.
    destruct (IHI A k x H) as [Hmore Hmust]. split.
    + intros [|j] Hj; [lia|]. simpl. apply orelse_some. left.
      destruct (Hmore j ltac:(lia)) as [y Hy]. eapply IHM; eauto.
    + intros [|lo] extra Hlo Hhi; simpl.
      * destruct extra as [|extra]; [lia|]. simpl. apply orelse_some. left.
        destruct (Hmore extra ltac:(lia)) as [y Hy]. eapply IHM; eauto.
      * destruct (Hmust lo extra ltac:(lia) ltac:(lia)) as [y Hy].
        eapply IHM; eauto.
Qed.

(** ** [re.search] *)

Lemma match_here_sound r p s rest :
  match_here r p s = Some rest ->
  exists m p', s = (m ++ rest)%string /\ Matches r p s p' rest.
Proof.
  unfold match_here. intros H.
  destruct (rmatch_sound r _ _ _ _ _ H) as (p' & s' & HM & [= <-]).
  destruct (Matches_consumed _ _ _ _ _ HM) as (u & E & _).
  exists u, p'. split; auto.
Qed.

Lemma search_from_eq r prev s :
  search_from r prev s
  = match match_here r prev s with
    | Some rest => Some (take (String.length s - String.length rest) s)
    | None =>
        match s with
        | String c s' => search_from r (Some c) s'
        | EmptyString => None
        end
    end.
Proof. destruct s; reflexivity. Qed.

(** What [re.search] returns is a piece of the text that the pattern
    matches where it stands, and the matcher run on the text from that
    place stops right after it. *)
Lemma search_from_sound r : forall s prev m,
  search_from r prev s = Some m ->
  exists pre post p',
    s = (pre ++ m ++ post)%string
    /\ Matches r (last_char prev pre) (m ++ post) p' post
    /\ match_here r (last_char prev pre) (m ++ post) = Some post.
Proof.
  induction s as [|c s IH]; intros prev m; rewrite search_from_eq.
  - destruct (match_here r prev "") as [rest|] eqn:E; [|discriminate].
    destruct (match_here_sound _ _ _ _ E) as (u & p' & Hs & HM).
    destruct u; [|discriminate]. simpl in Hs. subst rest.
    intros [= <-]. exists "", "", p'. simpl. auto.
  - destruct (match_here r prev (String c s)) as [rest|] eqn:E.
    + destruct (match_here_sound _ _ _ _ E) as (u & p' & Hs & HM).
      rewrite Hs, take_app_length. rewrite Hs in HM, E.
      intros [= <-]. exists "", rest, p'. simpl. auto.
    + intros H. destruct (IH _ _ H) as (pre & post & p' & Hs & HM & Hh).
      exists (String c pre), post, p'. simpl. rewrite Hs. auto.
Qed.

(** [re.search] finds something as soon as the pattern matches somewhere. *)
Lemma search_from_complete r : forall pre prev u post p',
  Matches r (last_char prev pre) (u ++ post) p' post ->
  exists m, search_from r prev (pre ++ u ++ post) = Some m.
Proof.
  induction pre as [|c pre IH]; intros prev u post p' HM; simpl in *.
  - assert (exists y, match_here r prev (u ++ post) = Some y) as [y Hy].
    { unfold match_here. eapply rmatch_complete; eauto. }
    destruct (u ++ post)%string; simpl; rewrite Hy; eauto.
  - destruct (match_here r prev (String c (pre ++ u ++ post))); eauto.
Qed.

Lemma found_search_iff r s :
  found (search r s) = true <->
  exists pre u post p',
    s = (pre ++ u ++ post)%string
    /\ Matches r (last_char None pre) (u ++ post) p' post.
Proof.
  unfold search. split.
  - destruct (search_from r None s) as [m|] eqn:E; [|discriminate]. intros _.
    destruct (search_from_sound _ _ _ _ E) as (pre & post & p' & Hs & HM & _).
    eauto 6.
  - intros (pre & u & post & p' & -> & HM).
    destruct (search_from_complete r pre None u post p' HM) as [m Hm].
    now rewrite Hm.
Qed.


(** ** Literal words and phrases *)

Lemma in_class_lit (c c' : ascii) :
  in_class false [(code c, code c)] c' = Ascii.eqb c' c.
Proof.
  unfold in_class, in_ranges, between. simpl.
  destruct (Ascii.eqb c' c) eqn:E.
  - apply Ascii.eqb_eq in E. subst. now rewrite Nat.leb_refl.
  - rewrite orb_false_r.
    destruct (code c <=? code c') eqn:E1; destruct (code c' <=? code c) eqn:E2;
      simpl; auto.
    apply Nat.leb_le in E1, E2. apply Ascii.eqb_neq in E. exfalso. apply E.
    apply code_inj. lia.
Qed.

Lemma Matches_lit c p s p' s' :
  Matches (lit c) p s p' s' <-> s = String c s' /\ p' = Some c.
Proof.
  unfold lit. split.
  - intros H. inversion H; subst.
    rewrite in_class_lit in *.
    match goal with E : Ascii.eqb _ _ = true |- _ => apply Ascii.eqb_eq in E; subst end.
    auto.
  - intros [-> ->]. constructor. rewrite in_class_lit. apply Ascii.eqb_refl.
Qed.

Lemma Matches_word w : forall p s p' s',
  Matches (word w) p s p' s' <-> s = (w ++ s')%string /\ p' = last_char p w.
Proof.
  induction w as [|c w IH]; intros p s p' s'.
  - simpl. split.
    + intros H. inversion H; subst. auto.
    + intros [-> ->]. constructor.
  - destruct w as [|d w].
    + simpl. apply Matches_lit.
    + change (word (String c (String d w)))
        with (Seq (lit c) (word (String d w))).
      split.
      * intros H.
        inversion H as [ | | | | r1 r2 p0 s0 p1 s1 p2 s2 H1 H2 | | | | ]; subst.
        apply Matches_lit in H1. destruct H1 as [-> ->].
        apply IH in H2. destruct H2 as [-> ->].
        auto.
      * intros [-> ->]. econstructor.
        -- apply Matches_lit. split; reflexivity.
        -- apply IH. split; reflexivity.
Qed.

Lemma Matches_bounded r p s p' s' :
  Matches (bounded r) p s p' s'
  <-> at_boundary p s = true /\ Matches r p s p' s' /\ at_boundary p' s' = true.
Proof.
  unfold bounded. simpl. split.
  - intros H.
    inversion H as [ | | | | ? ? ? ? ? ? ? ? H1 H2 | | | | ]; subst.
    inversion H1; subst.
    inversion H2 as [ | | | | ? ? ? ? ? ? ? ? H3 H4 | | | | ]; subst.
    inversion H4; subst.
    auto.
  - intros (B1 & HM & B2).
    econstructor; [now constructor|]. econstructor; [eassumption|now constructor].
Qed.

Lemma word_after_app (w s : string) :
  w <> "" -> word_after (w ++ s) = word_after w.
Proof. destruct w; simpl; congruence. Qed.

Lemma last_char_nonempty (p q : option ascii) (w : string) :
  w <> "" -> last_char p w = last_char q w.
Proof. destruct w; simpl; congruence. Qed.

Lemma found_phrase_iff (w T : string) :
  wordy w ->
  found (search (bounded (word w)) T) = true <-> contains_phrase w T.
Proof.
  intros (Hne & Hfirst & Hlast). rewrite found_search_iff. unfold contains_phrase.
  split.
  - intros (pre & u & post & p' & -> & HM).
    apply Matches_bounded in HM. destruct HM as (B1 & HM & B2).
    apply Matches_word in HM. destruct HM as [E ->].
    assert (u = w) as ->.
    { apply (str_app_inv_length u post w post E eq_refl). }
    exists pre, post. split; [reflexivity|].
    unfold at_boundary in *.
    rewrite word_after_app, Hfirst in B1 by assumption.
    rewrite (last_char_nonempty _ None) , Hlast in B2 by assumption.
    destruct (word_before (last_char None pre)); destruct (word_after post);
      simpl in *; auto; discriminate.
  - intros (pre & post & -> & Hb & Ha).
    exists pre, w, post, (last_char (last_char None pre) w).
    split; [reflexivity|].
    apply Matches_bounded. repeat split.
    + unfold at_boundary. rewrite word_after_app, Hfirst, Hb by assumption.
      reflexivity.
    + apply Matches_word. split; reflexivity.
    + unfold at_boundary.
      rewrite (last_char_nonempty _ None), Hlast, Ha by assumption. reflexivity.
Qed.

Lemma found_alt_iff (r1 r2 : regex) (T : string) :
  found (search (Alt r1 r2) T) = true
  <-> found (search r1 T) = true \/ found (search r2 T) = true.
Proof.
  rewrite !found_search_iff. split.
  - intros (pre & u & post & p' & E & HM). inversion HM; subst; eauto 8.
  - intros [(pre & u & post & p' & E & HM)|(pre & u & post & p' & E & HM)];
      exists pre, u, post, p'; split; auto; [now apply M_AltL | now apply M_AltR].
Qed.

Lemma found_extra_boundary_iff (r : regex) (T : string) :
  found (search (Seq WordB (bounded r)) T) = true
  <-> found (search (bounded r) T) = true.
Proof.
  rewrite !found_search_iff. split.
  - intros (pre & u & post & p' & E & HM).
    inversion HM as [ | | | | ? ? ? ? ? ? ? ? H1 H2 | | | | ]; subst.
    inversion H1; subst.
    eauto 8.
  - intros (pre & u & post & p' & E & HM).
    exists pre, u, post, p'. split; auto.
    pose proof HM as HM'. apply Matches_bounded in HM'. destruct HM' as (B & _).
    econstructor; [constructor; eassumption | eassumption].
Qed.

End ReFacts.

(* ===================================================================== *)
(** * The document type detector and the label-anchored extractor *)
(* ===================================================================== *)

Module DetectTheorems.
Import PyStr Re TextSpec ReSpec DetectSpec StrFacts ReFacts Parsers.

Lemma wordy_phrases :
  wordy "ACTA DE NACIMIENTO" /\ wordy "OFICIAL DEL REGISTRO"
  /\ wordy "INSTITUTO NACIONAL ELECTORAL" /\ wordy "CREDENCIAL PARA VOTAR"
  /\ wordy "CLAVE UNICA DE REGISTRO DE POBLACION" /\ wordy "CURP".
Proof. unfold wordy. repeat split; try discriminate; reflexivity. Qed.

Lemma orb_prop_iff (a b : bool) (P Q : Prop) :
  (a = true <-> P) -> (b = true <-> Q) -> (a || b = true <-> P \/ Q).
Proof. intros Ha Hb. rewrite orb_true_iff, Ha, Hb. tauto. Qed.

Lemma not_prop_iff (a : bool) (P : Prop) : (a = true <-> P) -> (a = false <-> ~ P).
Proof.
  intros H. destruct a; split; intros H'; try discriminate; try reflexivity.
  - exfalso. apply H'. now apply H.
  - intros HP. apply H in HP. discriminate.
Qed.

(** The three tests of [detect_type], read as rules. *)
Lemma acta_test (T : string) :
  found (search (bounded (word "ACTA DE NACIMIENTO")) T)
  || found (search (bounded (word "OFICIAL DEL REGISTRO")) T) = true
  <-> acta_rule T.
Proof.
  destruct wordy_phrases as (W1 & W2 & _).
  apply orb_prop_iff; now apply found_phrase_iff.
Qed.

Lemma ine_test (T : string) :
  found (search (Alt (bounded (word "INSTITUTO NACIONAL ELECTORAL"))
                     (bounded (word "CREDENCIAL PARA VOTAR"))) T) = true
  <-> ine_rule T.
Proof.
  destruct wordy_phrases as (_ & _ & W3 & W4 & _).
  rewrite found_alt_iff. unfold ine_rule.
  rewrite (found_phrase_iff _ T W3), (found_phrase_iff _ T W4). tauto.
Qed.

Lemma curp_test (T : string) :
  found (search (Alt (bounded (word "CLAVE UNICA DE REGISTRO DE POBLACION"))
                     (seqs [WordB; WordB; word "CURP"; WordB])) T) = true
  <-> curp_rule T.
Proof.
  destruct wordy_phrases as (_ & _ & _ & _ & W5 & W6).
  rewrite found_alt_iff. unfold curp_rule.
  change (seqs [WordB; WordB; word "CURP"; WordB])
    with (Seq WordB (bounded (word "CURP"))).
  rewrite found_extra_boundary_iff.
  rewrite (found_phrase_iff _ T W5), (found_phrase_iff _ T W6). tauto.
Qed.

(** [detect_type] applies the rules in the order acta, ine, curp; the
    first that holds decides, and ["auto"] is returned when none does. *)
Lemma detect_type_first_match unidecode (text : string) :
  classifies (_norm unidecode text) (detect_type unidecode text).
Proof.
  unfold detect_type. cbv zeta.
  set (T := _norm unidecode text).
  pose proof (acta_test T) as Ha.
  pose proof (ine_test T) as Hi.
  pose proof (curp_test T) as Hc.
  destruct (found (search (bounded (word "ACTA DE NACIMIENTO")) T)
            || found (search (bounded (word "OFICIAL DEL REGISTRO")) T)) eqn:Ea.
  - apply classifies_acta. now apply Ha.
  - apply not_prop_iff in Ha.
    destruct (found (search (Alt (bounded (word "INSTITUTO NACIONAL ELECTORAL"))
                                 (bounded (word "CREDENCIAL PARA VOTAR"))) T)) eqn:Ei.
    + apply classifies_ine; [now apply Ha | now apply Hi].
    + apply not_prop_iff in Hi.
      destruct (found (search
                         (Alt (bounded (word "CLAVE UNICA DE REGISTRO DE POBLACION"))
                              (seqs [WordB; WordB; word "CURP"; WordB])) T)) eqn:Ec.
      * apply classifies_curp; [now apply Ha | now apply Hi | now apply Hc].
      * apply not_prop_iff in Hc.
        apply classifies_auto; [now apply Ha | now apply Hi | now apply Hc].
Qed.

Lemma classifies_acta_only (T ty : string) :
  acta_rule T -> classifies T ty -> ty = "acta".
Proof. intros Ha H. inversion H; subst; tauto. Qed.

(** C7.  A text whose normal form contains both the phrase
    [ACTA DE NACIMIENTO] and the token [CURP] is classified as ["acta"]:
    the acta rule is tried before the ine and curp rules, the first rule
    that holds decides, and a text that satisfies no rule gives ["auto"]. *)
Theorem C7_detect_type_acta_before_curp unidecode (text : string) :
  contains_phrase "ACTA DE NACIMIENTO" (_norm unidecode text) ->
  contains_phrase "CURP" (_norm unidecode text) ->
  detect_type unidecode text = "acta"
  /\ (forall t, classifies (_norm unidecode t) (detect_type unidecode t)).
Proof.
  intros Hacta _. split.
  - apply (classifies_acta_only (_norm unidecode text)).
    + now left.
    + apply detect_type_first_match.
  - intros t. apply detect_type_first_match.
Qed.

Lemma C7_witness :
  detect_type (fun s => s) "Acta  de nacimiento
clave: CURP abcd800101hdfrrl09" = "acta"
  /\ (forall t, classifies (_norm (fun s => s) t) (detect_type (fun s => s) t)).
Proof.
  apply C7_detect_type_acta_before_curp.
  - exists "", " CLAVE: CURP ABCD800101HDFRRL09". repeat split; reflexivity.
  - exists "ACTA DE NACIMIENTO CLAVE: ", " ABCD800101HDFRRL09".
    repeat split; reflexivity.
Defined.

(** [extract_fields] returns its (empty) dictionary only when it is given
    no export. *)
Lemma extract_fields_without_export unidecode float_of_str (tipo raw_text : string) :
  extract_fields unidecode float_of_str tipo raw_text None = PyDict PyDict.empty.
Proof. reflexivity. Qed.

(** C2 (what the code does).  Given an export, even one without pages,
    [extract_fields] builds its field map and then falls off the end of its
    body: the call evaluates to [None], not to the map. *)
Theorem C2_extract_fields_returns_none_given_an_export
        unidecode float_of_str (tipo raw_text : string) (export : ocr_export) :
  extract_fields unidecode float_of_str tipo raw_text (Some export) = PyNone.
Proof. reflexivity. Qed.

End DetectTheorems.

(* ===================================================================== *)
(** * Searching a match again *)
(* ===================================================================== *)

Module PatternFacts.
Import PyStr Re TextSpec ReSpec StrFacts ReFacts.

(** ** What the static properties of a pattern say about its matches *)

Lemma Iter_consumed r n p s p' s' :
  Iter r n p s p' s' ->
  exists u, s = (u ++ s')%string /\ p' = last_char p u.
Proof.
  revert r n p s p' s'.
  apply (Iter_mind
           (fun r p s p' s' => exists u, s = (u ++ s')%string /\ p' = last_char p u)
           (fun r n p s p' s' => exists u, s = (u ++ s')%string /\ p' = last_char p u)).
  - intros. now exists "".
  - intros. now exists (String c "").
  - intros. now exists "".
  - intros. now exists "".
  - intros r1 r2 p s p1 s1 p2 s2 _ (u & -> & ->) _ (v & -> & ->).
    exists (u ++ v)%string. now rewrite str_app_assoc, last_char_app.
  - auto.
  - auto.
  - auto.
  - intros. now exists u.
  - intros. now exists "".
  - intros r n p s p1 s1 p2 s2 _ (u & -> & ->) _ (v & -> & ->).
    exists (u ++ v)%string. now rewrite str_app_assoc, last_char_app.
Qed.

Lemma zero_width_sound r p s p' s' :
  Matches r p s p' s' -> zero_width r = true -> p' = p /\ s' = s.
Proof.
  revert r p s p' s'.
  apply (Matches_mind
           (fun r p s p' s' => zero_width r = true -> p' = p /\ s' = s)
           (fun r n p s p' s' => True)); simpl; auto; try discriminate.
  - intros r1 r2 p s p1 s1 p2 s2 _ IH1 _ IH2 H.
    apply andb_true_iff in H. destruct H as [H1 H2].
    destruct (IH1 H1) as [-> ->]. now apply IH2.
  - intros r1 r2 p s p' s' _ IH H. apply andb_true_iff in H. tauto.
  - intros r1 r2 p s p' s' _ IH H. apply andb_true_iff in H. tauto.
Qed.

Lemma class_word_sound neg rs c :
  class_word neg rs = true -> in_class neg rs c = true -> is_word c = true.
Proof.
  unfold class_word. intros H Hc.
  rewrite forallb_forall in H.
  assert (Hin : In (nat_of_ascii c) (seq 0 256)).
  { apply in_seq. pose proof (nat_ascii_bounded c). lia. }
  apply H in Hin.
  rewrite ascii_nat_embedding, Hc in Hin. exact Hin.
Qed.

Lemma first_word_sound r p s p' s' :
  Matches r p s p' s' -> first_word r = true ->
  exists c u, s = String c (u ++ s') /\ is_word c = true.
Proof.
  revert r p s p' s'.
  apply (Matches_mind
           (fun r p s p' s' =>
              first_word r = true ->
              exists c u, s = String c (u ++ s') /\ is_word c = true)
           (fun r n p s p' s' =>
              first_word r = true -> 1 <= n ->
              exists c u, s = String c (u ++ s') /\ is_word c = true));
    simpl; try discriminate.
  - intros neg rs p c s Hc H. exists c, "". split; auto.
    eapply class_word_sound; eauto.
  - intros r1 r2 p s p1 s1 p2 s2 H1 IH1 H2 IH2 H.
    apply orb_true_iff in H. destruct H as [H|H].
    + destruct (IH1 H) as (c & u & -> & Hc).
      destruct (Matches_consumed _ _ _ _ _ H2) as (v & -> & _).
      exists c, (u ++ v)%string. now rewrite str_app_assoc.
    + apply andb_true_iff in H. destruct H as [Hz Hf].
      destruct (zero_width_sound _ _ _ _ _ H1 Hz) as [-> ->]. auto.
  - intros r1 r2 p s p' s' _ IH H. apply andb_true_iff in H.
    destruct H. auto.
  - intros r1 r2 p s p' s' _ IH H. apply andb_true_iff in H.
    destruct H. auto.
  - intros r lo extra n p s p' s' Hlo Hhi _ IH H.
    apply andb_true_iff in H. destruct H as [H1 H2].
    destruct lo; [discriminate|]. apply IH; auto. lia.
  - intros r p s _ H. lia.
  - intros r n p s p1 s1 p2 s2 H1 IH1 H2 _ H _.
    destruct (IH1 H) as (c & u & -> & Hc).
    destruct (Iter_consumed _ _ _ _ _ _ H2) as (v & -> & _).
    exists c, (u ++ v)%string. now rewrite str_app_assoc.
Qed.

Lemma last_char_all (f : ascii -> bool) (u : string) : forall p,
  all f u = true -> u <> "" -> exists c, last_char p u = Some c /\ f c = true.
Proof.
  induction u as [|c u IH]; intros p Hall Hne; [congruence|].
  simpl in *. apply andb_true_iff in Hall. destruct Hall as [Hc Hu].
  destruct u as [|d u].
  - simpl. eauto.
  - apply IH; auto. discriminate.
Qed.

Lemma ends_word_sound r p s p' s' :
  Matches r p s p' s' ->
  forall b, ends_word r b = true -> (b = true -> word_before p = true) ->
            word_before p' = true.
Proof.
  revert r p s p' s'.
  apply (Matches_mind
           (fun r p s p' s' =>
              forall b, ends_word r b = true ->
                        (b = true -> word_before p = true) ->
                        word_before p' = true)
           (fun r n p s p' s' =>
              ends_word r false = true -> 1 <= n -> word_before p' = true));
    simpl; auto.
  - intros neg rs p c s Hc b H _. eapply class_word_sound; eauto.
  - intros r1 r2 p s p1 s1 p2 s2 _ IH1 _ IH2 b H Hb.
    apply (IH2 _ H). intros Hb1. apply (IH1 _ Hb1 Hb).
  - intros r1 r2 p s p' s' _ IH b H Hb. apply andb_true_iff in H.
    destruct H. eauto.
  - intros r1 r2 p s p' s' _ IH b H Hb. apply andb_true_iff in H.
    destruct H. eauto.
  - intros r lo extra n p s p' s' Hlo Hhi HI IH b H Hb.
    destruct lo as [|lo].
    + apply andb_true_iff in H. destruct H as [H1 H2].
      destruct n as [|n].
      * inversion HI; subst. auto.
      * apply IH; auto. lia.
    + apply IH; auto. lia.
  - intros neg rs p u s Hall b H Hb.
    apply andb_true_iff in H. destruct H as [H1 H2].
    destruct u as [|c u]; [simpl; auto|].
    destruct (last_char_all _ (String c u) p Hall ltac:(discriminate))
      as (d & -> & Hd).
    simpl. eapply class_word_sound; eauto.
  - intros r p s _ H. lia.
  - intros r n p s p1 s1 p2 s2 H1 IH1 H2 IH2 H _.
    destruct n as [|n].
    + inversion H2; subst. apply (IH1 false H). discriminate.
    + apply IH2; auto. lia.
Qed.

Lemma starts_with_wordb_sound r p s p' s' :
  Matches r p s p' s' -> starts_with_wordb r = true -> at_boundary p s = true.
Proof.
  revert r p s p' s'.
  apply (Matches_mind
           (fun r p s p' s' => starts_with_wordb r = true -> at_boundary p s = true)
           (fun r n p s p' s' => True)); simpl; auto; try discriminate.
  - intros r1 r2 p s p' s' _ IH H. apply andb_true_iff in H. tauto.
  - intros r1 r2 p s p' s' _ IH H. apply andb_true_iff in H. tauto.
Qed.

Lemma ends_with_wordb_sound r p s p' s' :
  Matches r p s p' s' -> ends_with_wordb r = true -> at_boundary p' s' = true.
Proof.
  revert r p s p' s'.
  apply (Matches_mind
           (fun r p s p' s' => ends_with_wordb r = true -> at_boundary p' s' = true)
           (fun r n p s p' s' => True)); simpl; auto; try discriminate.
  - intros r1 r2 p s p' s' _ IH H. apply andb_true_iff in H. tauto.
  - intros r1 r2 p s p' s' _ IH H. apply andb_true_iff in H. tauto.
Qed.

(** ** The matcher on a text cut right after a match *)

Section Truncate.
Context {A B : Type}.
Variables (X : A) (Y : B) (post : string) (care : bool).
Hypothesis post_end : care = true -> word_after post = false.

#[local] Abbreviation agree := (@agree A B X Y).
#[local] Abbreviation Sim := (@Sim A B X Y post care).
#[local] Abbreviation Beyond := (@Beyond A X post).
#[local] Abbreviation alike := (alike care).

Lemma alike_refl p : alike p p.
Proof. intros _. reflexivity. Qed.

Lemma agree_orelse a a' b b' :
  agree a a' -> agree b b' -> agree (orelse a b) (orelse a' b').
Proof.
  intros [Ha1 Ha2] [Hb1 Hb2]. destruct a as [x|]; simpl.
  - split; [discriminate|]. intros H. rewrite (Ha2 H). reflexivity.
  - rewrite (Ha1 eq_refl). simpl. split; auto.
Qed.

Lemma agree_none b : agree None b -> b = None.
Proof. intros [H _]. auto. Qed.

(** A first alternative that can only answer from inside [post] does not
    count. *)
Lemma agree_orelse_beyond a b b' :
  a <> Some X -> agree b b' -> agree (orelse a b) b'.
Proof.
  intros Ha [Hb1 Hb2]. destruct a as [x|]; simpl.
  - split; [discriminate | contradiction].
  - split; auto.
Qed.

Lemma beyond_rmatch r (k : @cont A) :
  Beyond k -> Beyond (fun p s => rmatch r p s k).
Proof.
  intros Hk p w H.
  destruct (rmatch_sound r _ _ _ _ _ H) as (p' & s' & HM & Hx).
  destruct (Matches_consumed _ _ _ _ _ HM) as (u & -> & _).
  apply Hk in Hx. rewrite str_length_app. lia.
Qed.

Lemma beyond_many neg rs (k : @cont A) :
  Beyond k -> Beyond (many neg rs k).
Proof. intros Hk. apply (beyond_rmatch (Many neg rs) k Hk). Qed.

Lemma beyond_more r (k : @cont A) n :
  Beyond k -> Beyond (more (rmatch r) k n).
Proof. intros Hk. apply (beyond_rmatch (Rep r 0 n) k Hk). Qed.

Lemma sim_many neg rs (k : @cont A) (k' : @cont B) :
  Sim k k' -> Beyond k -> Sim (many neg rs k) (many neg rs k').
Proof.
  intros Hs Hb p q v. revert p q.
  induction v as [|c v IH]; intros p q Hpq.
  - simpl (many neg rs k' q ""). change ("" ++ post)%string with post.
    assert (G : forall t, t = post -> agree (many neg rs k p t) (k' q "")).
    { intros t E. pose proof (Hs p q "" Hpq) as H0.
      simpl in H0. rewrite <- E in H0.
      destruct t as [|c t]; simpl; auto.
      destruct (in_class neg rs c); auto.
      apply agree_orelse_beyond; auto.
      intros H. apply (beyond_many neg rs k Hb) in H.
      rewrite <- E in H. simpl in H. lia. }
    apply G. reflexivity.
  - simpl. destruct (in_class neg rs c).
    + apply agree_orelse.
      * apply IH, alike_refl.
      * apply (Hs p q (String c v) Hpq).
    + apply (Hs p q (String c v) Hpq).
Qed.

Section Step.
Variables (step : option ascii -> string -> @cont A -> option A)
          (step' : option ascii -> string -> @cont B -> option B).
Hypothesis step_beyond :
  forall k, Beyond k -> Beyond (fun p s => step p s k).
Hypothesis step_sim :
  forall k k', Sim k k' -> Beyond k ->
               Sim (fun p s => step p s k) (fun p s => step' p s k').

Lemma beyond_more_step (k : @cont A) n : Beyond k -> Beyond (more step k n).
Proof.
  intros Hk. induction n as [|n IH]; simpl; auto.
  intros p w. destruct (step p w (more step k n)) eqn:E; simpl.
  - intros [= ->]. apply (step_beyond _ IH p w E).
  - apply Hk.
Qed.

Lemma sim_more (k : @cont A) (k' : @cont B) n :
  Sim k k' -> Beyond k -> Sim (more step k n) (more step' k' n).
Proof.
  intros Hs Hb. induction n as [|n IH]; simpl; auto.
  intros p q v Hpq. apply agree_orelse.
  - apply (step_sim _ _ IH (beyond_more_step k n Hb) p q v Hpq).
  - apply (Hs p q v Hpq).
Qed.

Lemma beyond_must_step (k : @cont A) extra n :
  Beyond k -> Beyond (must step k extra n).
Proof.
  intros Hk. induction n as [|n IH]; simpl.
  - apply beyond_more_step, Hk.
  - apply (step_beyond _ IH).
Qed.

Lemma sim_must (k : @cont A) (k' : @cont B) extra n :
  Sim k k' -> Beyond k -> Sim (must step k extra n) (must step' k' extra n).
Proof.
  intros Hs Hb. induction n as [|n IH]; simpl.
  - apply sim_more; auto.
  - apply (step_sim _ _ IH (beyond_must_step k extra n Hb)).
Qed.
End Step.

Lemma word_after_cut c v : word_after (String c v ++ post) = word_after (String c v).
Proof. reflexivity. Qed.

(** The pattern behaves on the cut text as on the whole one. *)
Lemma sim_rmatch r :
  local_pattern care r = true ->
  forall k k', Sim k k' -> Beyond k ->
               Sim (fun p s => rmatch r p s k) (fun p s => rmatch r p s k').
Proof.
  unfold local_pattern.
  induction r as [| neg rs | | | r1 IH1 r2 IH2 | r1 IH1 r2 IH2 | r IH lo extra | neg rs];
    intros Hr k k' Hs Hb; simpl in Hr.
  - intros p q v Hpq. apply (Hs p q v Hpq).
  - intros p q v Hpq. destruct v as [|c v]; simpl.
    + split; [reflexivity|].
      assert (G : forall t, t = post ->
                  rmatch (Chars neg rs) p t k = Some X -> False).
      { intros [|c t] E; simpl; [discriminate|].
        destruct (in_class neg rs c); [|discriminate].
        intros H. apply Hb in H. rewrite <- E in H. simpl in H. lia. }
      intros H. exfalso. apply (G post eq_refl H).
    + destruct (in_class neg rs c).
      * apply (Hs (Some c) (Some c) v), alike_refl.
      * split; [reflexivity | discriminate].
  - destruct care eqn:Ec; [|discriminate].
    intros p q v Hpq. simpl.
    assert (E : at_boundary p (v ++ post) = at_boundary q v).
    { unfold at_boundary. rewrite (Hpq eq_refl). f_equal.
      destruct v; [|reflexivity]. simpl. apply post_end. reflexivity. }
    rewrite E. destruct (at_boundary q v).
    + apply (Hs p q v Hpq).
    + split; [reflexivity | discriminate].
  - discriminate.
  - apply andb_true_iff in Hr. destruct Hr as [Hbol Hw].
    apply andb_true_iff in Hbol. destruct Hbol as [Hb1 Hb2].
    assert (Hr1 : bol_free r1 && (care || wordb_free r1) = true).
    { rewrite Hb1. simpl. apply orb_true_iff in Hw.
      destruct Hw as [->|Hw]; [reflexivity|].
      apply andb_true_iff in Hw. destruct Hw as [-> _]. apply orb_true_r. }
    assert (Hr2 : bol_free r2 && (care || wordb_free r2) = true).
    { rewrite Hb2. simpl. apply orb_true_iff in Hw.
      destruct Hw as [->|Hw]; [reflexivity|].
      apply andb_true_iff in Hw. destruct Hw as [_ ->]. apply orb_true_r. }
    apply (IH1 Hr1).
    + apply (IH2 Hr2); auto.
    + apply beyond_rmatch, Hb.
  - apply andb_true_iff in Hr. destruct Hr as [Hbol Hw].
    apply andb_true_iff in Hbol. destruct Hbol as [Hb1 Hb2].
    assert (Hr1 : bol_free r1 && (care || wordb_free r1) = true).
    { rewrite Hb1. simpl. apply orb_true_iff in Hw.
      destruct Hw as [->|Hw]; [reflexivity|].
      apply andb_true_iff in Hw. destruct Hw as [-> _]. apply orb_true_r. }
    assert (Hr2 : bol_free r2 && (care || wordb_free r2) = true).
    { rewrite Hb2. simpl. apply orb_true_iff in Hw.
      destruct Hw as [->|Hw]; [reflexivity|].
      apply andb_true_iff in Hw. destruct Hw as [_ ->]. apply orb_true_r. }
    intros p q v Hpq. simpl. apply agree_orelse.
    + apply (IH1 Hr1 k k' Hs Hb p q v Hpq).
    + apply (IH2 Hr2 k k' Hs Hb p q v Hpq).
  - simpl.
    apply (sim_must (rmatch r) (rmatch r)); auto.
    intros k0 Hk0. apply beyond_rmatch, Hk0.
  - simpl. apply sim_many; auto.
Qed.

End Truncate.

(** A match followed by [post] is still a match, and a whole one, of the
    text cut after it. *)
Lemma match_here_cut r care p q m post :
  local_pattern care r = true ->
  (care = true -> word_after post = false) ->
  (care = true -> word_before p = word_before q) ->
  match_here r p (m ++ post) = Some post ->
  match_here r q m = Some "".
Proof.
  intros Hr Hpost Hpq H. unfold match_here in *.
  pose proof (sim_rmatch post "" post care Hpost r Hr
                (fun _ rest => Some rest) (fun _ rest => Some rest)) as HS.
  assert (Hsim : Sim post "" post care (fun _ rest => Some rest)
                     (fun _ rest => Some rest)).
  { intros p0 q0 v _. split; [discriminate|].
    intros [= E]. f_equal.
    assert (L : String.length (v ++ post) = String.length post) by now rewrite E.
    rewrite str_length_app in L. destruct v; [reflexivity | simpl in L; lia]. }
  assert (Hbey : Beyond post post (fun (_ : option ascii) rest => Some rest)).
  { intros p0 w [= ->]. lia. }
  destruct (HS Hsim Hbey p q m Hpq) as [_ HX]. apply HX, H.
Qed.

(** ** What [re.search] returns can be searched again *)

Lemma take_all (m : string) : take (String.length m) m = m.
Proof. induction m; simpl; congruence. Qed.

(** A pattern that matches the whole text is what [re.search] returns. *)
Lemma search_whole r m :
  match_here r None m = Some "" -> search r m = Some m.
Proof.
  intros H. unfold search. rewrite search_from_eq, H.
  simpl. now rewrite Nat.sub_0_r, take_all.
Qed.

Theorem search_stable r t m :
  self_contained r = true ->
  search r t = Some m ->
  search r m = Some m
  /\ word_after m = true
  /\ word_before (last_char None m) = true
  /\ exists pre post, t = (pre ++ m ++ post)%string.
Proof.
  unfold self_contained. intros Hr Hs.
  apply andb_true_iff in Hr. destruct Hr as [Hr Hwb].
  apply andb_true_iff in Hr. destruct Hr as [Hr Hlast].
  apply andb_true_iff in Hr. destruct Hr as [Hbol Hfirst].
  destruct (search_from_sound _ _ _ _ Hs) as (pre & post & p' & Ht & HM & Hh).
  set (p0 := last_char None pre) in *.
  destruct (first_word_sound _ _ _ _ _ HM Hfirst) as (c & u & E & Hc).
  assert (Em : m = String c u).
  { change (String c (u ++ post)) with (String c u ++ post)%string in E.
    now destruct (str_app_inv_length _ _ _ _ E eq_refl). }
  destruct (Matches_consumed _ _ _ _ _ HM) as (u' & Eu & Ep).
  assert (u' = m) as ->.
  { symmetry. now destruct (str_app_inv_length _ _ _ _ Eu eq_refl). }
  assert (Hend : word_before (last_char None m) = true).
  { rewrite (last_char_nonempty None p0 m) by (rewrite Em; discriminate).
    rewrite <- Ep.
    apply (ends_word_sound _ _ _ _ _ HM false Hlast). discriminate. }
  assert (Hbeg : word_after m = true) by (rewrite Em; exact Hc).
  repeat split; auto; [|eauto].
  apply search_whole.
  apply (match_here_cut r (negb (wordb_free r)) p0 None m post); auto.
  - unfold local_pattern. rewrite Hbol. simpl. apply orb_negb_l.
  - intros Hcare. apply negb_true_iff in Hcare.
    rewrite Hcare in Hwb. simpl in Hwb.
    apply andb_true_iff in Hwb. destruct Hwb as [_ He].
    pose proof (ends_with_wordb_sound _ _ _ _ _ HM He) as Hb.
    unfold at_boundary in Hb.
    rewrite Ep, (last_char_nonempty p0 None m), Hend in Hb
      by (rewrite Em; discriminate).
    now destruct (word_after post).
  - intros Hcare. apply negb_true_iff in Hcare.
    rewrite Hcare in Hwb. simpl in Hwb.
    apply andb_true_iff in Hwb. destruct Hwb as [Hb _].
    pose proof (starts_with_wordb_sound _ _ _ _ _ HM Hb) as Hbd.
    unfold at_boundary in Hbd.
    rewrite word_after_app, Hbeg in Hbd by (rewrite Em; discriminate).
    simpl. now destruct (word_before p0).
Qed.

End PatternFacts.

(* ===================================================================== *)
(** * Normalised text *)
(* ===================================================================== *)

Module TextFacts.
Import PyStr Re TextSpec StrFacts ReFacts.

(** ** Characters *)

(** A property of characters checked on the 256 of them. *)
Lemma forall_ascii (P : ascii -> bool) :
  forallb (fun n => P (ascii_of_nat n)) (seq 0 256) = true ->
  forall c, P c = true.
Proof.
  intros H c. rewrite forallb_forall in H.
  rewrite <- (ascii_nat_embedding c). apply H.
  apply in_seq. pose proof (nat_ascii_bounded c). lia.
Qed.

Ltac by_cases_on_ascii c :=
  revert c;
  match goal with
  | |- forall c, @?P c = true => apply (forall_ascii P); vm_compute; reflexivity
  end.

Lemma ws_class c : Bool.eqb (in_class false WS c) (is_space c) = true.
Proof. by_cases_on_ascii c. Qed.

Lemma in_WS c : in_class false WS c = is_space c.
Proof. apply eqb_prop, ws_class. Qed.

Lemma word_not_space c : implb (is_word c) (negb (is_space c)) = true.
Proof. by_cases_on_ascii c. Qed.

Lemma is_word_not_space c : is_word c = true -> is_space c = false.
Proof.
  intros H. pose proof (word_not_space c) as W. rewrite H in W.
  simpl in W. now apply negb_true_iff.
Qed.

Lemma upper_char_plain c : implb (is_ascii c) (plain (upper_char c)) = true.
Proof. by_cases_on_ascii c. Qed.

Lemma plain_upper_char c : implb (plain c) (Ascii.eqb (upper_char c) c) = true.
Proof. by_cases_on_ascii c. Qed.

Lemma plain_is_ascii c : plain c = true -> is_ascii c = true.
Proof. unfold plain. intros H. apply andb_true_iff in H. tauto. Qed.

(** ** Heads and tails *)

Lemma head_is_app f a b : a <> "" -> head_is f (a ++ b) = head_is f a.
Proof. destruct a; simpl; congruence. Qed.

Lemma last_is_app f a b : b <> "" -> last_is f (a ++ b) = last_is f b.
Proof.
  intros H. unfold last_is. rewrite last_char_app.
  now rewrite (last_char_nonempty _ None b H).
Qed.

Lemma last_is_cons f c s : s <> "" -> last_is f (String c s) = last_is f s.
Proof. intros H. apply (last_is_app f (String c "") s H). Qed.

Lemma all_impl (f g : ascii -> bool) s :
  (forall c, f c = true -> g c = true) -> all f s = true -> all g s = true.
Proof.
  intros H. induction s as [|c s IH]; simpl; auto.
  intros E. apply andb_true_iff in E. destruct E as [E1 E2].
  now rewrite (H _ E1), IH.
Qed.

(** ** [strip] *)

Lemma lstrip_head s : head_is is_space (lstrip s) = false.
Proof.
  induction s as [|c s IH]; simpl; auto.
  destruct (is_space c) eqn:E; auto.
Qed.

Lemma lstrip_suffix s : exists pre, s = (pre ++ lstrip s)%string.
Proof.
  induction s as [|c s [pre IH]]; simpl.
  - now exists "".
  - destruct (is_space c).
    + exists (String c pre). simpl. now rewrite <- IH.
    + now exists "".
Qed.

Lemma lstrip_id s : head_is is_space s = false -> lstrip s = s.
Proof. destruct s as [|c s]; simpl; auto. now intros ->. Qed.

Lemma rstrip_prefix s : exists tail, s = (rstrip s ++ tail)%string.
Proof.
  induction s as [|c s [tail IH]]; simpl.
  - now exists "".
  - destruct (rstrip s) as [|d r] eqn:E.
    + destruct (is_space c).
      * exists (String c s). reflexivity.
      * exists tail. simpl in *. now rewrite <- IH.
    + exists tail. simpl in *. now rewrite <- IH.
Qed.

Lemma rstrip_last s : last_is is_space (rstrip s) = false.
Proof.
  induction s as [|c s IH]; simpl; auto.
  destruct (rstrip s) as [|d r] eqn:E.
  - destruct (is_space c) eqn:Ec; auto.
  - rewrite last_is_cons; [exact IH | discriminate].
Qed.

Lemma rstrip_id s : last_is is_space s = false -> rstrip s = s.
Proof.
  induction s as [|c s IH]; simpl; auto.
  intros H. destruct s as [|d s].
  - simpl. unfold last_is in H. simpl in H. now rewrite H.
  - rewrite last_is_cons in H by discriminate.
    rewrite (IH H). reflexivity.
Qed.

Lemma rstrip_head s :
  head_is is_space s = false -> head_is is_space (rstrip s) = false.
Proof.
  destruct s as [|c s]; simpl; auto.
  intros H. destruct (rstrip s); [rewrite H|]; simpl; auto.
Qed.

Lemma strip_id s :
  head_is is_space s = false -> last_is is_space s = false -> strip s = s.
Proof. intros H1 H2. unfold strip. now rewrite (lstrip_id s H1), rstrip_id. Qed.

(** What [strip] returns is a piece of the text. *)
Lemma strip_piece s : exists pre tail, s = (pre ++ strip s ++ tail)%string.
Proof.
  unfold strip. destruct (lstrip_suffix s) as [pre H].
  destruct (rstrip_prefix (lstrip s)) as [tail H'].
  exists pre, tail. now rewrite <- H', <- H.
Qed.

(** ** Single blanks *)

Lemma single_app_r a b : single (a ++ b) = true -> single b = true.
Proof.
  induction a as [|c a IH]; simpl; auto.
  intros H. apply andb_true_iff in H. destruct H as [_ H]. auto.
Qed.

Lemma single_app_l a b : single (a ++ b) = true -> single a = true.
Proof.
  induction a as [|c a IH]; simpl; auto.
  intros H. apply andb_true_iff in H. destruct H as [H1 H2].
  rewrite (IH H2), andb_true_r.
  destruct (is_space c); auto.
  apply andb_true_iff in H1. destruct H1 as [-> H1]. simpl.
  destruct a; simpl in *; auto.
Qed.

Lemma all_app_l f a b : all f (a ++ b) = true -> all f a = true.
Proof. rewrite all_app. intros H. apply andb_true_iff in H. tauto. Qed.

Lemma all_app_r f a b : all f (a ++ b) = true -> all f b = true.
Proof. rewrite all_app. intros H. apply andb_true_iff in H. tauto. Qed.

Lemma normal_intro s :
  all plain s = true -> single s = true ->
  head_is is_space s = false -> last_is is_space s = false ->
  normal s = true.
Proof. unfold normal. now intros -> -> -> ->. Qed.

Lemma normal_elim s :
  normal s = true ->
  all plain s = true /\ single s = true
  /\ head_is is_space s = false /\ last_is is_space s = false.
Proof.
  unfold normal. intros H.
  apply andb_true_iff in H. destruct H as [H H4].
  apply andb_true_iff in H. destruct H as [H H3].
  apply andb_true_iff in H. destruct H as [H1 H2].
  apply negb_true_iff in H3, H4. auto.
Qed.

(** A piece of a normalised text with no blank at either end is
    normalised. *)
Lemma normal_piece pre m post :
  all plain (pre ++ m ++ post) = true -> single (pre ++ m ++ post) = true ->
  head_is is_space m = false -> last_is is_space m = false ->
  normal m = true.
Proof.
  intros Hp Hs Hh Hl. apply normal_intro; auto.
  - eapply all_app_l, all_app_r, Hp.
  - eapply single_app_l, single_app_r, Hs.
Qed.

Lemma normal_strip q :
  all plain q = true -> single q = true -> normal (strip q) = true.
Proof.
  intros Hp Hs. destruct (strip_piece q) as (pre & tail & E).
  rewrite E in Hp, Hs. apply (normal_piece pre _ tail Hp Hs).
  - apply rstrip_head, lstrip_head.
  - apply rstrip_last.
Qed.

Lemma strip_normal t : normal t = true -> strip t = t.
Proof.
  intros H. destruct (normal_elim _ H) as (_ & _ & H1 & H2).
  now apply strip_id.
Qed.

(** ** Runs of characters *)

Lemma squeeze_run f r s :
  squeeze f r true s = squeeze f r false (dropwhile f s).
Proof.
  induction s as [|c s IH]; simpl; auto.
  destruct (f c) eqn:E; auto. simpl. now rewrite E.
Qed.

Lemma squeeze_head f r s :
  head_is f s = false -> squeeze f r true s = squeeze f r false s.
Proof. destruct s as [|c s]; simpl; auto. now intros ->. Qed.

Lemma squeeze_none f r s :
  all (fun c => negb (f c)) s = true -> squeeze f r false s = s.
Proof.
  induction s as [|c s IH]; simpl; auto.
  intros H. apply andb_true_iff in H. destruct H as [H1 H2].
  apply negb_true_iff in H1. now rewrite H1, IH.
Qed.

Lemma squeeze_single s :
  single s = true -> squeeze is_space " " false s = s.
Proof.
  induction s as [|c s IH]; simpl; auto.
  intros H. apply andb_true_iff in H. destruct H as [H1 H2].
  destruct (is_space c) eqn:E.
  - apply andb_true_iff in H1. destruct H1 as [Hc Hh].
    apply Ascii.eqb_eq in Hc. apply negb_true_iff in Hh. subst c.
    rewrite (squeeze_head _ _ _ Hh), (IH H2). reflexivity.
  - now rewrite (IH H2).
Qed.

Lemma all_squeeze g f r b s :
  all g r = true -> all g s = true -> all g (squeeze f r b s) = true.
Proof.
  intros Hr. revert b. induction s as [|c s IH]; intros b; simpl; auto.
  intros H. apply andb_true_iff in H. destruct H as [H1 H2].
  destruct (f c).
  - destruct b; auto. rewrite all_app, Hr. simpl. auto.
  - simpl. rewrite H1. simpl. auto.
Qed.

Lemma squeeze_true_head s :
  head_is is_space (squeeze is_space " " true s) = false.
Proof.
  induction s as [|c s IH]; simpl; auto.
  destruct (is_space c) eqn:E; auto.
Qed.

Lemma single_squeeze b s : single (squeeze is_space " " b s) = true.
Proof.
  revert b. induction s as [|c s IH]; intros b; simpl; auto.
  destruct (is_space c) eqn:E.
  - destruct b; auto. simpl.
    rewrite squeeze_true_head. simpl. apply IH.
  - simpl. rewrite E. simpl. apply IH.
Qed.

Lemma dropwhile_suffix f s : exists pre, s = (pre ++ dropwhile f s)%string.
Proof.
  induction s as [|c s [pre IH]]; simpl.
  - now exists "".
  - destruct (f c).
    + exists (String c pre). simpl. now rewrite <- IH.
    + now exists "".
Qed.

Lemma dropwhile_head f s : head_is f (dropwhile f s) = false.
Proof.
  induction s as [|c s IH]; simpl; auto.
  destruct (f c) eqn:E; auto.
Qed.

Lemma dropwhile_id f s : head_is f s = false -> dropwhile f s = s.
Proof. destruct s as [|c s]; simpl; auto. now intros ->. Qed.

Lemma dropwhile_length f s : String.length (dropwhile f s) <= String.length s.
Proof.
  induction s as [|c s IH]; simpl; auto.
  destruct (f c); simpl; lia.
Qed.

Lemma all_keep f s : all f (keep f s) = true.
Proof.
  induction s as [|c s IH]; simpl; auto.
  destruct (f c) eqn:E; simpl; auto. now rewrite E.
Qed.

Lemma keep_all f s : all f s = true -> keep f s = s.
Proof.
  induction s as [|c s IH]; simpl; auto.
  intros H. apply andb_true_iff in H. destruct H as [H1 H2].
  now rewrite H1, IH.
Qed.

Lemma all_keep_other g f s : all g s = true -> all g (keep f s) = true.
Proof.
  induction s as [|c s IH]; simpl; auto.
  intros H. apply andb_true_iff in H. destruct H as [H1 H2].
  destruct (f c); simpl; auto. now rewrite H1, IH.
Qed.

(** ** [re.sub] with the patterns of the cleaner *)

Lemma sub_from_S fuel r repl prev s :
  sub_from (S fuel) r repl prev s
  = match match_here_ctx r prev s with
    | Some (p, rest) =>
        if String.length rest <? String.length s
        then (repl ++ sub_from fuel r repl p rest)%string
        else advance (sub_from fuel r repl) s
    | None => advance (sub_from fuel r repl) s
    end.
Proof. reflexivity. Qed.

(** A greedy run never fails when what follows cannot. *)
Lemma many_total neg rs p t :
  exists u,
    many neg rs (fun p' rest => Some (p', rest)) p t
    = Some (last_char p u, dropwhile (in_class neg rs) t).
Proof.
  revert p. induction t as [|c t IH]; intros p; simpl.
  - now exists "".
  - destruct (in_class neg rs c).
    + destruct (IH (Some c)) as [u ->]. simpl. now exists (String c u).
    + now exists "".
Qed.

Lemma last_char_some c u : exists d, last_char (Some c) u = Some d.
Proof. revert c. induction u as [|e u IH]; intros c; simpl; eauto. Qed.

Lemma match_plus neg rs p s :
  match_here_ctx (plus neg rs) p s
  = match s with
    | String c s' =>
        if in_class neg rs c
        then many neg rs (fun p' rest => Some (p', rest)) (Some c) s'
        else None
    | EmptyString => None
    end.
Proof. destruct s; reflexivity. Qed.

(** [re.sub(r"[..]+", repl, s)] *)
Lemma sub_from_plus neg rs repl : forall fuel s prev,
  String.length s < fuel ->
  sub_from fuel (plus neg rs) repl prev s
  = squeeze (in_class neg rs) repl false s.
Proof.
  induction fuel as [|fuel IH]; intros s prev L; [lia|].
  rewrite sub_from_S, match_plus.
  destruct s as [|c s]; [reflexivity|].
  simpl in L. simpl squeeze.
  destruct (in_class neg rs c) eqn:E.
  - destruct (many_total neg rs (Some c) s) as [u ->].
    pose proof (dropwhile_length (in_class neg rs) s) as D.
    assert (T : (String.length (dropwhile (in_class neg rs) s)
                 <? String.length (String c s)) = true).
    { apply Nat.ltb_lt. simpl. lia. }
    rewrite T, IH by lia. now rewrite squeeze_run.
  - simpl. rewrite IH by lia. reflexivity.
Qed.

Lemma sub_plus neg rs repl s :
  sub (plus neg rs) repl s = squeeze (in_class neg rs) repl false s.
Proof. unfold sub. apply sub_from_plus. lia. Qed.

Lemma squeeze_ext f g r b s :
  (forall c, f c = g c) -> squeeze f r b s = squeeze g r b s.
Proof.
  intros H. revert b. induction s as [|c s IH]; intros b; simpl; auto.
  now rewrite H, !IH.
Qed.

(** [re.sub(r"\s+", " ", s)] *)
Lemma sub_spaces s :
  sub (plus false WS) " " s = squeeze is_space " " false s.
Proof. rewrite sub_plus. apply squeeze_ext, in_WS. Qed.

(** [re.sub(r"\s{2,}", " ", s)] finds nothing in a text whose blanks are
    single. *)
Lemma sub_from_double_space fuel : forall s prev,
  single s = true ->
  sub_from fuel (Seq space (Seq space spaces)) " " prev s = s.
Proof.
  induction fuel as [|fuel IH]; intros s prev H; [reflexivity|].
  rewrite sub_from_S.
  assert (N : match_here_ctx (Seq space (Seq space spaces)) prev s = None).
  { destruct s as [|c s]; [reflexivity|].
    unfold match_here_ctx, space. cbn -[in_class WS]. rewrite in_WS.
    simpl in H. apply andb_true_iff in H. destruct H as [H1 _].
    destruct (is_space c); auto.
    apply andb_true_iff in H1. destruct H1 as [_ H1].
    apply negb_true_iff in H1.
    destruct s as [|d s]; auto. simpl in H1.
    cbn -[in_class WS]. now rewrite in_WS, H1. }
  rewrite N. destruct s as [|c s]; [reflexivity|].
  simpl. rewrite IH; auto.
  simpl in H. apply andb_true_iff in H. tauto.
Qed.

(** [re.sub(r"^[..]+", "", s)] *)
Lemma sub_from_bol_later neg rs fuel : forall s c,
  sub_from fuel (Seq Bol (plus neg rs)) "" (Some c) s = s.
Proof.
  induction fuel as [|fuel IH]; intros s c; [reflexivity|].
  rewrite sub_from_S. unfold match_here_ctx. simpl rmatch.
  destruct s as [|d s]; [reflexivity|]. simpl. now rewrite IH.
Qed.

Lemma sub_bol_plus neg rs s :
  sub (Seq Bol (plus neg rs)) "" s = dropwhile (in_class neg rs) s.
Proof.
  unfold sub. rewrite sub_from_S.
  change (match_here_ctx (Seq Bol (plus neg rs)) None s)
    with (match_here_ctx (plus neg rs) None s).
  rewrite match_plus.
  destruct s as [|c s]; [reflexivity|]. simpl dropwhile.
  destruct (in_class neg rs c) eqn:E.
  - destruct (many_total neg rs (Some c) s) as [u ->].
    pose proof (dropwhile_length (in_class neg rs) s) as D.
    assert (T : (String.length (dropwhile (in_class neg rs) s)
                 <? String.length (String c s)) = true).
    { apply Nat.ltb_lt. simpl. lia. }
    rewrite T. destruct (last_char_some c u) as [d ->].
    now rewrite sub_from_bol_later.
  - cbn [advance]. now rewrite sub_from_bol_later.
Qed.

(** [re.sub(r"[..]", "", s)] *)
Lemma sub_from_chars neg rs : forall fuel s prev,
  String.length s <= fuel ->
  sub_from fuel (Chars neg rs) "" prev s
  = keep (fun c => negb (in_class neg rs c)) s.
Proof.
  induction fuel as [|fuel IH]; intros s prev L.
  - destruct s; [reflexivity | simpl in L; lia].
  - rewrite sub_from_S. destruct s as [|c s]; [reflexivity|].
    simpl in L. unfold match_here_ctx. simpl.
    destruct (in_class neg rs c); simpl.
    + assert (T : (String.length s <? S (String.length s)) = true)
        by (apply Nat.ltb_lt; lia).
      rewrite T. apply IH. lia.
    + rewrite IH by lia. reflexivity.
Qed.

Lemma sub_chars neg rs s :
  sub (Chars neg rs) "" s = keep (fun c => negb (in_class neg rs c)) s.
Proof. unfold sub. apply sub_from_chars. lia. Qed.

End TextFacts.

(* ===================================================================== *)
(** * The Field Cleaner *)
(* ===================================================================== *)

Module CleanFacts.
Import PyStr PyDict Re Patterns Extractor.
Import TextSpec ReSpec CleanSpec StrFacts ReFacts PatternFacts TextFacts.

Lemma head_word_not_space m : word_after m = true -> head_is is_space m = false.
Proof. destruct m as [|c m]; simpl; [discriminate|]. apply is_word_not_space. Qed.

Lemma last_word_not_space m :
  word_before (last_char None m) = true -> last_is is_space m = false.
Proof.
  unfold last_is. destruct (last_char None m) as [c|]; simpl; auto.
  apply is_word_not_space.
Qed.

Lemma upper_plain s : all is_ascii s = true -> all plain (upper s) = true.
Proof.
  induction s as [|c s IH]; simpl; auto.
  intros H. apply andb_true_iff in H. destruct H as [H1 H2].
  pose proof (upper_char_plain c) as P. rewrite H1 in P. simpl in P.
  now rewrite P, IH.
Qed.

Lemma upper_id s : all plain s = true -> upper s = s.
Proof.
  induction s as [|c s IH]; simpl; auto.
  intros H. apply andb_true_iff in H. destruct H as [H1 H2].
  pose proof (plain_upper_char c) as P. rewrite H1 in P. simpl in P.
  apply Ascii.eqb_eq in P. now rewrite P, IH.
Qed.

Lemma self_contained_patterns :
  forallb self_contained
          [CURP_REGEX; YEAR_REGEX; DATE_REGEX; VIG_REGEX; SECCION_REGEX;
           SEXO_REGEX; CLAVE_REGEX] = true.
Proof. vm_compute. reflexivity. Qed.

Lemma search_empty r : self_contained r = true -> search r "" = None.
Proof.
  intros Hr. destruct (search r "") as [m|] eqn:E; auto.
  destruct (search_stable r "" m Hr E) as (_ & Hw & _ & pre & post & Ht).
  destruct pre; [|discriminate]. destruct m; [discriminate|discriminate].
Qed.

(** ** A step of the cleaner changes values, not bindings *)

Lemma keys_on_values g d : keys (on_values g d) = keys d.
Proof. unfold keys, on_values. rewrite map_map. reflexivity. Qed.

Lemma wf_on_values g d : wf d -> wf (on_values g d).
Proof. unfold wf. now rewrite keys_on_values. Qed.

Lemma on_values_cons g k v d :
  on_values g ((k, v) :: d) = (k, g k v) :: on_values g d.
Proof. reflexivity. Qed.

Lemma on_values_fixed g d :
  (forall k v, In (k, v) d -> g k v = v) -> on_values g d = d.
Proof.
  induction d as [|[k v] d IH]; simpl; auto.
  intros H. rewrite (H k v) by now left. f_equal. apply IH.
  intros k' v' Hin. apply H. now right.
Qed.

Lemma on_values_ext g h d :
  (forall k v, In (k, v) d -> g k v = h k v) -> on_values g d = on_values h d.
Proof.
  induction d as [|[k v] d IH]; simpl; auto.
  intros H. rewrite (H k v) by now left. f_equal. apply IH.
  intros k' v' Hin. apply H. now right.
Qed.

Lemma on_values_twice g h d :
  on_values h (on_values g d) = on_values (fun k v => h k (g k v)) d.
Proof. unfold on_values. rewrite map_map. reflexivity. Qed.

Lemma In_on_values g d k w :
  In (k, w) (on_values g d) -> exists v, In (k, v) d /\ w = g k v.
Proof.
  unfold on_values. rewrite in_map_iff. intros ([k' v] & [= <- <-] & Hin).
  now exists v.
Qed.

Lemma adjust_on_values k f d :
  wf d ->
  adjust k f d = on_values (fun k' v => if String.eqb k' k then f v else v) d.
Proof.
  unfold wf, adjust. induction d as [|[k' v] d IH]; simpl; auto.
  intros H. inversion H as [|? ? Hn Hd]; subst.
  destruct (String.eqb k' k) eqn:E.
  - apply String.eqb_eq in E. subst k'. f_equal. symmetry.
    apply on_values_fixed. intros k0 v0 Hin.
    destruct (String.eqb k0 k) eqn:E0; auto.
    apply String.eqb_eq in E0. subst k0. exfalso. apply Hn.
    change k with (fst (k, v0)). now apply in_map.
  - rewrite <- (IH Hd). destruct (get d k); reflexivity.
Qed.

Lemma adjust_nonempty_on_values k f d :
  wf d ->
  adjust_nonempty k f d
  = on_values (fun k' v => if String.eqb k' k
                           then (if truthy v then f v else v) else v) d.
Proof.
  unfold wf, adjust_nonempty. induction d as [|[k' v] d IH]; [reflexivity|].
  intros H. inversion H as [|? ? Hn Hd]; subst.
  rewrite on_values_cons. cbn [get].
  destruct (String.eqb k' k) eqn:E.
  - apply String.eqb_eq in E. subst k'.
    rewrite on_values_fixed.
    + destruct (truthy v); cbn [set]; now rewrite ?String.eqb_refl.
    + intros k0 v0 Hin. destruct (String.eqb k0 k) eqn:E0; auto.
      apply String.eqb_eq in E0. subst k0. exfalso. apply Hn.
      change k with (fst (k, v0)). now apply in_map.
  - rewrite <- (IH Hd). destruct (get d k) as [v0|]; [|reflexivity].
    destruct (truthy v0); cbn [set]; now rewrite ?E.
Qed.

Lemma run_stage_on_values st d :
  wf d -> run_stage st d = on_values (value_stage st) d.
Proof.
  intros H. unfold run_stage, value_stage.
  destruct (nonempty st).
  - rewrite (adjust_nonempty_on_values _ _ _ H). apply on_values_ext.
    intros k v _. destruct (String.eqb k (skey st)); auto.
    destruct (truthy v); reflexivity.
  - rewrite (adjust_on_values _ _ _ H). reflexivity.
Qed.

Lemma run_stages_on_values l : forall d,
  wf d ->
  fold_left (fun d st => run_stage st d) l d
  = on_values (fun k v => fold_left (fun v st => value_stage st k v) l v) d.
Proof.
  induction l as [|st l IH]; intros d H; simpl.
  - symmetry. now apply on_values_fixed.
  - rewrite (run_stage_on_values st d H), IH by now apply wf_on_values.
    apply on_values_twice.
Qed.

(** A key that no step names keeps its value. *)
Lemma value_stages_other l k : forall v,
  ~ In k (map skey l) ->
  fold_left (fun v st => value_stage st k v) l v = v.
Proof.
  induction l as [|st l IH]; intros v H; simpl; auto.
  simpl in H. unfold value_stage at 2.
  destruct (String.eqb k (skey st)) eqn:E.
  - apply String.eqb_eq in E. exfalso. apply H. now left.
  - apply IH. intros Hin. apply H. now right.
Qed.

Section Cleaner.
Variable unidecode : string -> string.
Hypothesis unidecode_ascii : forall s, all is_ascii (unidecode s) = true.
Hypothesis unidecode_id : forall s, all is_ascii s = true -> unidecode s = s.

#[local] Abbreviation norm := (_norm_text unidecode).
#[local] Abbreviation pick := (_pick_first_regex unidecode).
#[local] Abbreviation clave_elector := (clave_elector unidecode).
#[local] Abbreviation sexo_acta := (sexo_acta unidecode).

(** ** [_norm_text] *)

Lemma norm_eq s :
  norm s = strip (squeeze is_space " " false (upper (unidecode s))).
Proof. unfold _norm_text. now rewrite sub_spaces. Qed.

Lemma normal_norm s : normal (norm s) = true.
Proof.
  rewrite norm_eq. apply normal_strip.
  - apply all_squeeze; [reflexivity|]. apply upper_plain, unidecode_ascii.
  - apply single_squeeze.
Qed.

Lemma norm_normal t : normal t = true -> norm t = t.
Proof.
  intros H. destruct (normal_elim _ H) as (Hp & Hs & _ & _).
  rewrite norm_eq, unidecode_id, (upper_id _ Hp), (squeeze_single _ Hs).
  - now apply strip_normal.
  - revert Hp. apply all_impl, plain_is_ascii.
Qed.

(** ** The fields picked with a pattern *)

Lemma pick_eq s r :
  pick s r = match search r (norm s) with Some m => m | None => "" end.
Proof. reflexivity. Qed.

Lemma pick_any_eq s r : _pick_first_regex_any unidecode s r = pick s r.
Proof. reflexivity. Qed.

Lemma normal_match r t m :
  self_contained r = true -> normal t = true -> search r t = Some m ->
  normal m = true.
Proof.
  intros Hr Ht Hs.
  destruct (search_stable r t m Hr Hs) as (_ & Hw & Hl & pre & post & E).
  destruct (normal_elim _ Ht) as (Hp & Hsg & _ & _). rewrite E in Hp, Hsg.
  apply (normal_piece pre m post Hp Hsg).
  - now apply head_word_not_space.
  - now apply last_word_not_space.
Qed.

Lemma normal_pick r s : self_contained r = true -> normal (pick s r) = true.
Proof.
  intros Hr. rewrite pick_eq.
  destruct (search r (norm s)) as [m|] eqn:E; [|reflexivity].
  apply (normal_match r _ m Hr (normal_norm s) E).
Qed.

Lemma pick_idem r s :
  self_contained r = true -> pick (pick s r) r = pick s r.
Proof.
  intros Hr. rewrite (pick_eq s).
  destruct (search r (norm s)) as [m|] eqn:E.
  - rewrite pick_eq, (norm_normal m).
    + destruct (search_stable r _ m Hr E) as (-> & _). reflexivity.
    + apply (normal_match r _ m Hr (normal_norm s) E).
  - rewrite pick_eq, (norm_normal "" eq_refl), (search_empty r Hr).
    reflexivity.
Qed.

(** ** Label prefixes *)

Lemma drop_suffix n : forall t, exists pre, t = (pre ++ drop n t)%string.
Proof.
  induction n as [|n IH]; intros t; simpl.
  - now exists "".
  - destruct t as [|c t]; [now exists ""|].
    destruct (IH t) as [pre E]. exists (String c pre). simpl. now rewrite <- E.
Qed.

Lemma normal_strip_drop n t :
  normal t = true -> normal (strip (drop n t)) = true.
Proof.
  intros H. destruct (normal_elim _ H) as (Hp & Hs & _ & _).
  destruct (drop_suffix n t) as [pre E]. rewrite E in Hp, Hs.
  apply normal_strip.
  - apply (all_app_r _ _ _ Hp).
  - apply (single_app_r _ _ Hs).
Qed.

Lemma normal_strip_any_prefix s ps :
  normal (_strip_any_prefix unidecode s ps) = true.
Proof.
  unfold _strip_any_prefix. cbv zeta.
  induction ps as [|p ps IH].
  - apply normal_norm.
  - destruct (startswith (norm s) (norm p)); [|exact IH].
    apply normal_strip_drop, normal_norm.
Qed.

(** A normalised value that begins with none of the prefixes is left
    alone. *)
Lemma strip_any_prefix_fixed w ps :
  normal w = true ->
  existsb (fun p => startswith w (norm p)) ps = false ->
  _strip_any_prefix unidecode w ps = w.
Proof.
  intros Hw. unfold _strip_any_prefix. cbv zeta. rewrite (norm_normal w Hw).
  induction ps as [|p ps IH]; simpl; auto.
  intros H. apply orb_false_iff in H. destruct H as [-> H]. auto.
Qed.

(** ** [_only_letters_spaces] *)

Lemma letter_class c :
  implb (plain c && negb (in_class true LETTERS_SPACE c))
        (is_upper c || Ascii.eqb c " ") = true.
Proof. by_cases_on_ascii c. Qed.

Lemma letter_in_class c :
  implb (is_upper c || Ascii.eqb c " ")
        (negb (in_class true LETTERS_SPACE c)) = true.
Proof. by_cases_on_ascii c. Qed.

Lemma all_squeeze_compl (g h f : ascii -> bool) r b s :
  all g r = true -> all h s = true ->
  (forall c, h c = true -> f c = false -> g c = true) ->
  all g (squeeze f r b s) = true.
Proof.
  intros Hr Hs Hc. revert b Hs.
  induction s as [|c s IH]; intros b Hs; simpl; auto.
  simpl in Hs. apply andb_true_iff in Hs. destruct Hs as [H1 H2].
  destruct (f c) eqn:E.
  - destruct b; auto. rewrite all_app, Hr. simpl. auto.
  - simpl. rewrite (Hc c H1 E). simpl. auto.
Qed.

Lemma only_letters_eq s :
  _only_letters_spaces unidecode s
  = strip (squeeze is_space " " false
             (squeeze (in_class true LETTERS_SPACE) " " false (norm s))).
Proof. unfold _only_letters_spaces. cbv zeta. now rewrite sub_spaces, sub_plus. Qed.

Lemma normal_only_letters s :
  normal (_only_letters_spaces unidecode s) = true.
Proof.
  rewrite only_letters_eq. apply normal_strip.
  - apply all_squeeze; [reflexivity|]. apply all_squeeze; [reflexivity|].
    now destruct (normal_elim _ (normal_norm s)).
  - apply single_squeeze.
Qed.

Lemma lettery_only_letters s :
  lettery (_only_letters_spaces unidecode s) = true.
Proof.
  rewrite only_letters_eq. unfold lettery.
  match goal with |- all ?g (strip ?q) = true =>
    destruct (strip_piece q) as (pre & tail & E);
    assert (H : all g q = true); [|rewrite E in H;
      apply (all_app_l _ _ _ (all_app_r _ _ _ H))] end.
  apply all_squeeze; [reflexivity|].
  apply (all_squeeze_compl _ plain); [reflexivity | |].
  - now destruct (normal_elim _ (normal_norm s)).
  - intros c Hp Hc. pose proof (letter_class c) as L.
    rewrite Hp, Hc in L. exact L.
Qed.

Lemma only_letters_fixed w :
  normal w = true -> lettery w = true -> _only_letters_spaces unidecode w = w.
Proof.
  intros Hn Hl. rewrite only_letters_eq, (norm_normal w Hn).
  rewrite (squeeze_none (in_class true LETTERS_SPACE)).
  - destruct (normal_elim _ Hn) as (_ & Hs & _ & _).
    rewrite (squeeze_single _ Hs). now apply strip_normal.
  - revert Hl. unfold lettery. apply all_impl.
    intros c Hc. pose proof (letter_in_class c) as L.
    rewrite Hc in L. exact L.
Qed.

Lemma only_letters_idem s :
  _only_letters_spaces unidecode (_only_letters_spaces unidecode s)
  = _only_letters_spaces unidecode s.
Proof.
  apply only_letters_fixed;
    [apply normal_only_letters | apply lettery_only_letters].
Qed.

(** ** The catalogue of states *)

Lemma first_window_member parts n : forall count i cand,
  first_window parts n i count = Some cand -> member cand ESTADOS = true.
Proof.
  induction count as [|count IH]; intros i cand; cbn [first_window];
    [discriminate|].
  destruct (member (join " " (firstn n (skipn i parts))) ESTADOS) eqn:E.
  - intros [= E']. now rewrite <- E'.
  - apply IH.
Qed.

Lemma state_in_member parts :
  state_in parts = "" \/ member (state_in parts) ESTADOS = true.
Proof.
  unfold state_in.
  destruct (first_window parts 3 0 _) eqn:E3;
    [right; eapply first_window_member; eauto|].
  destruct (first_window parts 2 0 _) eqn:E2;
    [right; eapply first_window_member; eauto|].
  destruct (first_window parts 1 0 _) eqn:E1;
    [right; eapply first_window_member; eauto|].
  now left.
Qed.

Lemma pick_state_eq s :
  _pick_first_state_in_text unidecode s
  = state_in (split_ws (_only_letters_spaces unidecode s)).
Proof. reflexivity. Qed.

Lemma states_fixed :
  forallb (fun st => normal st && lettery st
                     && String.eqb (state_in (split_ws st)) st)
          ESTADOS = true.
Proof. vm_compute. reflexivity. Qed.

Lemma member_state st :
  member st ESTADOS = true ->
  normal st = true /\ _pick_first_state_in_text unidecode st = st.
Proof.
  unfold member. intros H. apply existsb_exists in H.
  destruct H as (x & Hin & Hx). apply String.eqb_eq in Hx. subst x.
  pose proof states_fixed as F. rewrite forallb_forall in F.
  specialize (F st Hin).
  apply andb_true_iff in F. destruct F as [F F3].
  apply andb_true_iff in F. destruct F as [F1 F2].
  split; auto.
  rewrite pick_state_eq, (only_letters_fixed st F1 F2).
  now apply String.eqb_eq.
Qed.

Lemma pick_state_cases s :
  _pick_first_state_in_text unidecode s = ""
  \/ (normal (_pick_first_state_in_text unidecode s) = true
      /\ truthy (_pick_first_state_in_text unidecode s) = true
      /\ _pick_first_state_in_text unidecode
           (_pick_first_state_in_text unidecode s)
         = _pick_first_state_in_text unidecode s).
Proof.
  rewrite (pick_state_eq s).
  destruct (state_in_member (split_ws (_only_letters_spaces unidecode s)))
    as [E|M]; [now left|].
  destruct (state_in (split_ws (_only_letters_spaces unidecode s))) as [|c st] eqn:E;
    [now left|].
  right. destruct (member_state _ M) as [H1 H2]. auto.
Qed.

Lemma pick_state_only_letters s :
  _pick_first_state_in_text unidecode (_only_letters_spaces unidecode s)
  = _pick_first_state_in_text unidecode s.
Proof. now rewrite !pick_state_eq, only_letters_idem. Qed.

(** ** The address line *)

Lemma space_not_alnum c :
  implb (is_space c) (in_class true [(65, 90); (48, 57)] c) = true.
Proof. by_cases_on_ascii c. Qed.

Lemma alnum_word c :
  implb (negb (in_class true [(65, 90); (48, 57)] c))
        (plain c && is_word c) = true.
Proof. by_cases_on_ascii c. Qed.

Lemma address_eq s :
  _clean_address_line unidecode s
  = strip (sub (Seq space (Seq space spaces)) " "
               (dropwhile (in_class true [(65, 90); (48, 57)]) (norm s))).
Proof. unfold _clean_address_line. cbv zeta. now rewrite sub_bol_plus. Qed.

Lemma normal_dropwhile_alnum t :
  normal t = true ->
  normal (dropwhile (in_class true [(65, 90); (48, 57)]) t) = true.
Proof.
  intros H. destruct (normal_elim _ H) as (Hp & Hs & _ & Hl).
  set (f := in_class true [(65, 90); (48, 57)]).
  destruct (dropwhile_suffix f t) as [pre E].
  pose proof (dropwhile_head f t) as Hh.
  destruct (dropwhile f t) as [|c d] eqn:D; [reflexivity|].
  apply normal_intro.
  - rewrite E in Hp. apply (all_app_r _ _ _ Hp).
  - rewrite E in Hs. apply (single_app_r _ _ Hs).
  - simpl in *. pose proof (space_not_alnum c) as S.
    fold f in S. rewrite Hh in S. now destruct (is_space c).
  - rewrite E, last_is_app in Hl by discriminate. exact Hl.
Qed.

Lemma address_of_normal t :
  normal t = true ->
  _clean_address_line unidecode t
  = dropwhile (in_class true [(65, 90); (48, 57)]) t.
Proof.
  intros H. rewrite address_eq, (norm_normal t H).
  pose proof (normal_dropwhile_alnum t H) as Hd.
  destruct (normal_elim _ Hd) as (_ & Hs & _ & _).
  unfold sub. rewrite (sub_from_double_space _ _ _ Hs).
  now apply strip_normal.
Qed.

Lemma address_norm s :
  _clean_address_line unidecode s = _clean_address_line unidecode (norm s).
Proof. now rewrite !address_eq, (norm_normal _ (normal_norm s)). Qed.

Lemma normal_address s : normal (_clean_address_line unidecode s) = true.
Proof.
  rewrite address_norm, (address_of_normal _ (normal_norm s)).
  apply normal_dropwhile_alnum, normal_norm.
Qed.

Lemma address_idem s :
  _clean_address_line unidecode (_clean_address_line unidecode s)
  = _clean_address_line unidecode s.
Proof.
  rewrite (address_of_normal _ (normal_address s)).
  apply dropwhile_id.
  rewrite address_norm, (address_of_normal _ (normal_norm s)).
  apply dropwhile_head.
Qed.

(** ** The elector key *)

Lemma normal_all_word y :
  all (fun c => plain c && is_word c) y = true -> normal y = true.
Proof.
  intros H.
  assert (Hp : all plain y = true).
  { revert H. apply all_impl. intros c Hc. apply andb_true_iff in Hc. tauto. }
  assert (Hw : all is_word y = true).
  { revert H. apply all_impl. intros c Hc. apply andb_true_iff in Hc. tauto. }
  apply normal_intro; auto.
  - clear H Hp. induction y as [|c y IH]; simpl in *; auto.
    apply andb_true_iff in Hw. destruct Hw as [H1 H2].
    now rewrite (is_word_not_space c H1), IH.
  - destruct y as [|c y]; simpl in *; auto.
    apply andb_true_iff in Hw. destruct Hw as [H1 _].
    now apply is_word_not_space.
  - destruct y as [|c y]; auto.
    destruct (last_char_all is_word (String c y) None Hw ltac:(discriminate))
      as (d & Hd & Hdw).
    unfold last_is. rewrite Hd. now apply is_word_not_space.
Qed.

(** A pattern between two [\b] finds, in a text made of word characters,
    nothing but the whole text. *)
Lemma search_all_word r y m :
  self_contained r = true ->
  starts_with_wordb r = true -> ends_with_wordb r = true ->
  all is_word y = true -> search r y = Some m -> m = y.
Proof.
  unfold self_contained. intros Hr Hsw Hew Hy Hs.
  apply andb_true_iff in Hr. destruct Hr as [Hr _].
  apply andb_true_iff in Hr. destruct Hr as [Hr Hlast].
  apply andb_true_iff in Hr. destruct Hr as [_ Hfirst].
  destruct (search_from_sound _ _ _ _ Hs) as (pre & post & p' & Ht & HM & _).
  destruct (first_word_sound _ _ _ _ _ HM Hfirst) as (c & u & E & Hc).
  pose proof (starts_with_wordb_sound _ _ _ _ _ HM Hsw) as B1.
  pose proof (ends_with_wordb_sound _ _ _ _ _ HM Hew) as B2.
  pose proof (ends_word_sound _ _ _ _ _ HM false Hlast ltac:(discriminate)) as W2.
  unfold at_boundary in B1, B2. rewrite W2 in B2.
  rewrite E in B1. simpl in B1. rewrite Hc in B1.
  rewrite Ht in Hy.
  assert (pre = "") as ->.
  { destruct pre as [|a pre]; auto.
    destruct (last_char_all is_word (String a pre) None
                (all_app_l _ _ _ Hy) ltac:(discriminate)) as (d & Hd & Hdw).
    rewrite Hd in B1. simpl in B1. rewrite Hdw in B1. discriminate. }
  assert (post = "") as ->.
  { destruct post as [|a post]; auto.
    pose proof (all_app_r _ _ _ (all_app_r _ _ _ Hy)) as Hp.
    simpl in Hp, B2. apply andb_true_iff in Hp. destruct Hp as [Ha _].
    rewrite Ha in B2. discriminate. }
  simpl in Ht. now rewrite str_app_empty_r in Ht.
Qed.

Lemma clave_eq v :
  clave_elector v
  = or_else (pick v CLAVE_REGEX)
            (keep (fun c => negb (in_class true [(65, 90); (48, 57)] c)) (norm v)).
Proof. unfold clave_elector. cbv zeta. now rewrite sub_chars. Qed.

Lemma CLAVE_self_contained : self_contained CLAVE_REGEX = true.
Proof. vm_compute. reflexivity. Qed.

Lemma clave_cases v :
  (exists m, search CLAVE_REGEX (norm v) = Some m /\ truthy m = true
             /\ clave_elector v = m)
  \/ (clave_elector v
      = keep (fun c => negb (in_class true [(65, 90); (48, 57)] c)) (norm v)).
Proof.
  rewrite clave_eq, pick_eq.
  destruct (search CLAVE_REGEX (norm v)) as [m|] eqn:E; [|now right].
  left. exists m.
  destruct (search_stable _ _ _ CLAVE_self_contained E) as (_ & Hw & _).
  destruct m; [discriminate|]. auto.
Qed.

Lemma normal_clave v : normal (clave_elector v) = true.
Proof.
  destruct (clave_cases v) as [(m & E & _ & ->) | ->].
  - apply (normal_match _ _ _ CLAVE_self_contained (normal_norm v) E).
  - apply normal_all_word.
    eapply all_impl; [|apply all_keep].
    intros c Hc. pose proof (alnum_word c) as A. cbv beta in Hc.
    rewrite Hc in A. exact A.
Qed.

Lemma clave_idem v : clave_elector (clave_elector v) = clave_elector v.
Proof.
  pose proof (normal_clave v) as Hn.
  destruct (clave_cases v) as [(m & E & Hm & Ev) | Ev]; rewrite Ev in *.
  - rewrite clave_eq, pick_eq, (norm_normal m Hn).
    destruct (search_stable _ _ _ CLAVE_self_contained E) as (-> & _).
    unfold or_else. now rewrite Hm.
  - set (alnum := fun c => negb (in_class true [(65, 90); (48, 57)] c)) in *.
    set (y := keep alnum (norm v)) in *.
    assert (Hy : all alnum y = true) by apply all_keep.
    assert (Hw : all is_word y = true).
    { revert Hy. apply all_impl. intros c Hc.
      pose proof (alnum_word c) as A. fold (alnum c) in A.
      rewrite Hc in A. simpl in A. apply andb_true_iff in A. tauto. }
    rewrite clave_eq, pick_eq, (norm_normal y Hn).
    destruct (search CLAVE_REGEX y) as [m|] eqn:E.
    + rewrite (search_all_word CLAVE_REGEX y m CLAVE_self_contained
                 eq_refl eq_refl Hw E).
      unfold or_else. destruct y; [|reflexivity].
      simpl. reflexivity.
    + unfold or_else. simpl. apply keep_all, Hy.
Qed.

(** ** The sex *)

Lemma sexo_ine_values s :
  _clean_ine_sexo unidecode s = "" \/ _clean_ine_sexo unidecode s = "M"
  \/ _clean_ine_sexo unidecode s = "H".
Proof.
  unfold _clean_ine_sexo. cbv zeta.
  destruct (search SEXO_REGEX (norm s)) as [m|]; auto.
  destruct (startswith m "M"); auto.
Qed.

Lemma sexo_ine_idem s :
  _clean_ine_sexo unidecode (_clean_ine_sexo unidecode s)
  = _clean_ine_sexo unidecode s.
Proof.
  destruct (sexo_ine_values s) as [-> | [-> | ->]];
    unfold _clean_ine_sexo; cbv zeta;
    rewrite norm_normal by reflexivity; vm_compute; reflexivity.
Qed.

Lemma sexo_acta_values s :
  sexo_acta s = "" \/ sexo_acta s = "M" \/ sexo_acta s = "H".
Proof.
  unfold sexo_acta. cbv zeta.
  destruct (startswith _ "M"); auto.
  destruct (truthy _); auto.
Qed.

Lemma sexo_acta_idem s : sexo_acta (sexo_acta s) = sexo_acta s.
Proof.
  destruct (sexo_acta_values s) as [-> | [-> | ->]];
    unfold sexo_acta; cbv zeta; rewrite pick_any_eq, pick_eq;
    rewrite norm_normal by reflexivity; vm_compute; reflexivity.
Qed.

Lemma normal_sexo_acta s : normal (sexo_acta s) = true.
Proof. destruct (sexo_acta_values s) as [-> | [-> | ->]]; reflexivity. Qed.

(** ** The state of registration *)

Lemma entidad_curp_cases x :
  (_pick_first_state_in_text unidecode x = ""
   /\ entidad_curp unidecode x = _only_letters_spaces unidecode x)
  \/ (normal (entidad_curp unidecode x) = true
      /\ truthy (entidad_curp unidecode x) = true
      /\ _pick_first_state_in_text unidecode (entidad_curp unidecode x)
         = entidad_curp unidecode x).
Proof.
  unfold entidad_curp. cbv zeta.
  destruct (pick_state_cases x) as [E | (H1 & H2 & H3)].
  - left. rewrite E. auto.
  - right. unfold or_else. rewrite H2. auto.
Qed.

Lemma normal_entidad_curp x : normal (entidad_curp unidecode x) = true.
Proof.
  destruct (entidad_curp_cases x) as [[_ ->] | (H & _)]; auto.
  apply normal_only_letters.
Qed.

Lemma entidad_curp_idem x :
  entidad_curp unidecode (entidad_curp unidecode x) = entidad_curp unidecode x.
Proof.
  destruct (entidad_curp_cases x) as [[E ->] | (_ & H2 & H3)].
  - unfold entidad_curp. cbv zeta.
    rewrite pick_state_only_letters, E. unfold or_else. simpl.
    apply only_letters_idem.
  - unfold entidad_curp at 1. cbv zeta. rewrite H3.
    unfold or_else. now rewrite H2.
Qed.

Lemma normal_entidad_acta x :
  normal x = true -> normal (entidad_acta unidecode x) = true.
Proof.
  intros Hx. unfold entidad_acta. cbv zeta.
  destruct (pick_state_cases x) as [-> | (H1 & H2 & _)]; auto.
  now rewrite H2.
Qed.

Lemma entidad_acta_idem x :
  entidad_acta unidecode (entidad_acta unidecode x) = entidad_acta unidecode x.
Proof.
  unfold entidad_acta. cbv zeta.
  destruct (pick_state_cases x) as [E | (H1 & H2 & H3)].
  - rewrite E. simpl. now rewrite E.
  - rewrite H2, H3. now rewrite H2.
Qed.

(** ** Stripping the label, then cleaning *)

Lemma normal_stripped tipo k v : normal (stripped unidecode tipo k v) = true.
Proof.
  unfold stripped. destruct v; [reflexivity|].
  apply normal_strip_any_prefix.
Qed.

Lemma stripped_fixed tipo k w :
  normal w = true -> leftover unidecode tipo k w = false ->
  stripped unidecode tipo k w = w.
Proof.
  intros Hn Hl. unfold stripped. destruct (truthy w); auto.
  now apply strip_any_prefix_fixed.
Qed.

(** A cleaning that is idempotent on normalised values stays so behind
    the removal of the label, unless a label is left. *)
Lemma stripped_then_idem (G : string -> string) tipo k v :
  (forall x, normal x = true -> normal (G x) = true) ->
  (forall x, normal x = true -> G (G x) = G x) ->
  leftover unidecode tipo k (G (stripped unidecode tipo k v)) = false ->
  G (stripped unidecode tipo k (G (stripped unidecode tipo k v)))
  = G (stripped unidecode tipo k v).
Proof.
  intros HN HI HL.
  pose proof (normal_stripped tipo k v) as Hs.
  rewrite (stripped_fixed tipo k _ (HN _ Hs) HL). now apply HI.
Qed.

(** ** The cleaner as a change of values *)

Lemma post_process_stages tipo d :
  _post_process_document_fields unidecode tipo d
  = fold_left (fun d st => run_stage st d) (stages unidecode tipo) d.
Proof.
  unfold _post_process_document_fields, stages.
  destruct (String.eqb tipo "ine");
    [|destruct (String.eqb tipo "curp"); [|destruct (String.eqb tipo "acta")]];
    cbv [fold_left map app run_stage strip_stage nonempty skey sfun
         strip_prefixes]; reflexivity.
Qed.

Lemma post_process_on_values tipo d :
  wf d ->
  _post_process_document_fields unidecode tipo d
  = on_values (clean_value unidecode tipo) d.
Proof.
  intros H. rewrite post_process_stages.
  apply (run_stages_on_values (stages unidecode tipo) d H).
Qed.

(** What becomes of the value of each field. *)

Ltac by_stages :=
  intros; unfold stripped;
  match goal with v : string |- _ => destruct v end;
  cbv [clean_value stages fold_left map app value_stage strip_stage
       nonempty skey sfun String.eqb Ascii.eqb Bool.eqb andb negb truthy];
  reflexivity.

Ltac by_stage :=
  intros;
  cbv [clean_value stages fold_left map app value_stage strip_stage
       nonempty skey sfun String.eqb Ascii.eqb Bool.eqb andb negb];
  reflexivity.

Lemma clean_ine_nombre v :
  clean_value unidecode "ine" "nombre" v = stripped unidecode "ine" "nombre" v.
Proof. by_stages. Qed.

Lemma clean_ine_domicilio v :
  clean_value unidecode "ine" "domicilio" v
  = _clean_address_line unidecode (stripped unidecode "ine" "domicilio" v).
Proof. by_stages. Qed.

Lemma clean_ine_clave_elector v :
  clean_value unidecode "ine" "clave_elector" v
  = clave_elector (stripped unidecode "ine" "clave_elector" v).
Proof. by_stages. Qed.

Lemma clean_ine_fecha_nacimiento v :
  clean_value unidecode "ine" "fecha_nacimiento" v
  = pick (stripped unidecode "ine" "fecha_nacimiento" v) DATE_REGEX.
Proof. by_stages. Qed.

Lemma clean_ine_vigencia v :
  clean_value unidecode "ine" "vigencia" v
  = pick (stripped unidecode "ine" "vigencia" v) VIG_REGEX.
Proof. by_stages. Qed.

Lemma clean_ine_seccion v :
  clean_value unidecode "ine" "seccion" v
  = pick (stripped unidecode "ine" "seccion" v) SECCION_REGEX.
Proof. by_stages. Qed.

Lemma clean_ine_sexo v :
  clean_value unidecode "ine" "sexo" v = _clean_ine_sexo unidecode v.
Proof. by_stage. Qed.

Lemma clean_ine_anio_registro v :
  clean_value unidecode "ine" "anio_registro" v = pick v YEAR_REGEX.
Proof. by_stage. Qed.

Lemma clean_ine_curp v :
  clean_value unidecode "ine" "curp" v = pick v CURP_REGEX.
Proof. by_stage. Qed.

Lemma clean_curp_curp v :
  clean_value unidecode "curp" "curp" v = pick v CURP_REGEX.
Proof. by_stage. Qed.

Lemma clean_curp_nombre v :
  clean_value unidecode "curp" "nombre" v
  = _only_letters_spaces unidecode
      (_strip_any_prefix unidecode v (prefixes_of "curp" "nombre")).
Proof. by_stage. Qed.

Lemma clean_curp_entidad_registro v :
  clean_value unidecode "curp" "entidad_registro" v
  = entidad_curp unidecode
      (_strip_any_prefix unidecode v (prefixes_of "curp" "entidad_registro")).
Proof. by_stage. Qed.

Lemma clean_acta_curp v :
  clean_value unidecode "acta" "curp" v = pick v CURP_REGEX.
Proof. by_stage. Qed.

Lemma clean_acta_nombres v :
  clean_value unidecode "acta" "nombres" v
  = _only_letters_spaces unidecode (stripped unidecode "acta" "nombres" v).
Proof. by_stages. Qed.

Lemma clean_acta_primer_apellido v :
  clean_value unidecode "acta" "primer_apellido" v
  = _only_letters_spaces unidecode
      (stripped unidecode "acta" "primer_apellido" v).
Proof. by_stages. Qed.

Lemma clean_acta_segundo_apellido v :
  clean_value unidecode "acta" "segundo_apellido" v
  = _only_letters_spaces unidecode
      (stripped unidecode "acta" "segundo_apellido" v).
Proof. by_stages. Qed.

Lemma clean_acta_lugar_nacimiento v :
  clean_value unidecode "acta" "lugar_nacimiento" v
  = _only_letters_spaces unidecode
      (stripped unidecode "acta" "lugar_nacimiento" v).
Proof. by_stages. Qed.

Lemma clean_acta_municipio_registro v :
  clean_value unidecode "acta" "municipio_registro" v
  = _only_letters_spaces unidecode
      (stripped unidecode "acta" "municipio_registro" v).
Proof. by_stages. Qed.

Lemma clean_acta_entidad_registro v :
  clean_value unidecode "acta" "entidad_registro" v
  = entidad_acta unidecode (stripped unidecode "acta" "entidad_registro" v).
Proof. by_stages. Qed.

Lemma clean_acta_sexo v :
  clean_value unidecode "acta" "sexo" v
  = sexo_acta (stripped unidecode "acta" "sexo" v).
Proof. by_stages. Qed.

Lemma clean_acta_fecha_nacimiento v :
  clean_value unidecode "acta" "fecha_nacimiento" v
  = pick (stripped unidecode "acta" "fecha_nacimiento" v) DATE_REGEX.
Proof. by_stages. Qed.

(** ** One value, cleaned twice *)

Lemma pick_then_idem r tipo k v :
  self_contained r = true ->
  leftover unidecode tipo k (pick (stripped unidecode tipo k v) r) = false ->
  pick (stripped unidecode tipo k (pick (stripped unidecode tipo k v) r)) r
  = pick (stripped unidecode tipo k v) r.
Proof.
  intros Hr. apply (stripped_then_idem (fun x => pick x r)).
  - intros x _. now apply normal_pick.
  - intros x _. now apply pick_idem.
Qed.

Lemma only_letters_then_idem tipo k v :
  leftover unidecode tipo k
           (_only_letters_spaces unidecode (stripped unidecode tipo k v)) = false ->
  _only_letters_spaces unidecode
    (stripped unidecode tipo k
       (_only_letters_spaces unidecode (stripped unidecode tipo k v)))
  = _only_letters_spaces unidecode (stripped unidecode tipo k v).
Proof.
  apply (stripped_then_idem (_only_letters_spaces unidecode)).
  - intros x _. apply normal_only_letters.
  - intros x _. apply only_letters_idem.
Qed.

Lemma clean_value_idem_ine k v :
  leftover unidecode "ine" k (clean_value unidecode "ine" k v) = false ->
  clean_value unidecode "ine" k (clean_value unidecode "ine" k v)
  = clean_value unidecode "ine" k v.
Proof.
  destruct (in_dec string_dec k (map skey (stages unidecode "ine")))
    as [Hin|Hout].
  2:{ intros _. unfold clean_value. now rewrite !value_stages_other. }
  cbv [stages String.eqb Ascii.eqb Bool.eqb map app skey strip_stage In] in Hin.
  repeat (destruct Hin as [<-|Hin]); try contradiction.
  - rewrite !clean_ine_nombre.
    apply (stripped_then_idem (fun x => x)); auto.
  - rewrite !clean_ine_domicilio.
    apply (stripped_then_idem (_clean_address_line unidecode)).
    + intros x _. apply normal_address.
    + intros x _. apply address_idem.
  - rewrite !clean_ine_clave_elector.
    apply (stripped_then_idem clave_elector).
    + intros x _. apply normal_clave.
    + intros x _. apply clave_idem.
  - rewrite !clean_ine_fecha_nacimiento. now apply pick_then_idem.
  - rewrite !clean_ine_vigencia. now apply pick_then_idem.
  - rewrite !clean_ine_seccion. now apply pick_then_idem.
  - rewrite !clean_ine_sexo. intros _. apply sexo_ine_idem.
  - rewrite !clean_ine_anio_registro. intros _. now apply pick_idem.
  - rewrite !clean_ine_seccion. now apply pick_then_idem.
  - rewrite !clean_ine_vigencia. now apply pick_then_idem.
  - rewrite !clean_ine_fecha_nacimiento. now apply pick_then_idem.
  - rewrite !clean_ine_clave_elector.
    apply (stripped_then_idem clave_elector).
    + intros x _. apply normal_clave.
    + intros x _. apply clave_idem.
  - rewrite !clean_ine_curp. intros _. now apply pick_idem.
  - rewrite !clean_ine_domicilio.
    apply (stripped_then_idem (_clean_address_line unidecode)).
    + intros x _. apply normal_address.
    + intros x _. apply address_idem.
Qed.

Lemma clean_value_idem_curp k v :
  leftover unidecode "curp" k (clean_value unidecode "curp" k v) = false ->
  clean_value unidecode "curp" k (clean_value unidecode "curp" k v)
  = clean_value unidecode "curp" k v.
Proof.
  destruct (in_dec string_dec k (map skey (stages unidecode "curp")))
    as [Hin|Hout].
  2:{ intros _. unfold clean_value. now rewrite !value_stages_other. }
  cbv [stages String.eqb Ascii.eqb Bool.eqb map app skey strip_stage In] in Hin.
  repeat (destruct Hin as [<-|Hin]); try contradiction.
  - rewrite !clean_curp_curp. intros _. now apply pick_idem.
  - rewrite !clean_curp_nombre. intros H.
    rewrite (strip_any_prefix_fixed _ _ (normal_only_letters _) H).
    apply only_letters_idem.
  - rewrite !clean_curp_entidad_registro. intros H.
    rewrite (strip_any_prefix_fixed _ _ (normal_entidad_curp _) H).
    apply entidad_curp_idem.
Qed.

Lemma clean_value_idem_acta k v :
  leftover unidecode "acta" k (clean_value unidecode "acta" k v) = false ->
  clean_value unidecode "acta" k (clean_value unidecode "acta" k v)
  = clean_value unidecode "acta" k v.
Proof.
  destruct (in_dec string_dec k (map skey (stages unidecode "acta")))
    as [Hin|Hout].
  2:{ intros _. unfold clean_value. now rewrite !value_stages_other. }
  cbv [stages String.eqb Ascii.eqb Bool.eqb map app skey strip_stage In] in Hin.
  repeat (destruct Hin as [<-|Hin]); try contradiction;
    try (rewrite !clean_acta_curp; intros _; now apply pick_idem);
    try (rewrite !clean_acta_nombres; now apply only_letters_then_idem);
    try (rewrite !clean_acta_primer_apellido; now apply only_letters_then_idem);
    try (rewrite !clean_acta_segundo_apellido; now apply only_letters_then_idem);
    try (rewrite !clean_acta_lugar_nacimiento; now apply only_letters_then_idem);
    try (rewrite !clean_acta_municipio_registro;
         now apply only_letters_then_idem);
    try (rewrite !clean_acta_fecha_nacimiento; now apply pick_then_idem).
  - rewrite !clean_acta_entidad_registro.
    apply (stripped_then_idem (entidad_acta unidecode)).
    + intros x. apply normal_entidad_acta.
    + intros x _. apply entidad_acta_idem.
  - rewrite !clean_acta_sexo.
    apply (stripped_then_idem sexo_acta).
    + intros x _. apply normal_sexo_acta.
    + intros x _. apply sexo_acta_idem.
  - rewrite !clean_acta_sexo.
    apply (stripped_then_idem sexo_acta).
    + intros x _. apply normal_sexo_acta.
    + intros x _. apply sexo_acta_idem.
  - rewrite !clean_acta_entidad_registro.
    apply (stripped_then_idem (entidad_acta unidecode)).
    + intros x. apply normal_entidad_acta.
    + intros x _. apply entidad_acta_idem.
Qed.

(** A value cleaned once is not changed by a second cleaning, unless it
    still begins with a label of its field. *)
Lemma clean_value_idem tipo k v :
  leftover unidecode tipo k (clean_value unidecode tipo k v) = false ->
  clean_value unidecode tipo k (clean_value unidecode tipo k v)
  = clean_value unidecode tipo k v.
Proof.
  destruct (String.eqb tipo "ine") eqn:Ei.
  { apply String.eqb_eq in Ei. subst. apply clean_value_idem_ine. }
  destruct (String.eqb tipo "curp") eqn:Ec.
  { apply String.eqb_eq in Ec. subst. apply clean_value_idem_curp. }
  destruct (String.eqb tipo "acta") eqn:Ea.
  { apply String.eqb_eq in Ea. subst. apply clean_value_idem_acta. }
  intros _. unfold clean_value, stages. now rewrite Ei, Ec, Ea.
Qed.

End Cleaner.
End CleanFacts.

(* ===================================================================== *)
(** * The Field Cleaner applied twice *)
(* ===================================================================== *)

Module CleanTheorems.
Import PyStr PyDict Extractor TextSpec CleanSpec TextFacts CleanFacts.

Lemma ascii_only_ascii s : all is_ascii (ascii_only s) = true.
Proof. apply all_keep. Qed.

Lemma ascii_only_id s : all is_ascii s = true -> ascii_only s = s.
Proof. apply keep_all. Qed.

(** C4 fails as stated: a value that carries the label of its field twice
    loses one label at each pass, so the output of the cleaner is not left
    unchanged by a second pass. *)
Lemma C4_repeated_label_counterexample :
  _post_process_document_fields ascii_only "ine"
    [("nombre", "NOMBRE NOMBRE JUAN")]
  = [("nombre", "NOMBRE JUAN")]
  /\ _post_process_document_fields ascii_only "ine"
       [("nombre", "NOMBRE JUAN")]
     = [("nombre", "JUAN")].
Proof. split; vm_compute; reflexivity. Qed.

(** C4, amended: for every document type and every field map, when no
    value of the cleaner's output still begins with a label prefix
    configured for its field, the cleaner returns that output unchanged.
    [unidecode] is any function that returns ASCII text and leaves ASCII
    text as it is. *)
Theorem C4_cleaner_idempotent_without_leftover_label
        (unidecode : string -> string) (tipo : string) (fields : dict) :
  (forall s, all is_ascii (unidecode s) = true) ->
  (forall s, all is_ascii s = true -> unidecode s = s) ->
  wf fields ->
  no_leftover_label unidecode tipo
    (_post_process_document_fields unidecode tipo fields) = true ->
  _post_process_document_fields unidecode tipo
    (_post_process_document_fields unidecode tipo fields)
  = _post_process_document_fields unidecode tipo fields.
Proof.
  intros U1 U2 Hwf.
  rewrite (post_process_on_values unidecode tipo fields Hwf). intros Hno.
  rewrite post_process_on_values by now apply wf_on_values.
  rewrite on_values_twice. apply on_values_ext.
  intros k v Hin. apply (clean_value_idem unidecode U1 U2).
  unfold no_leftover_label in Hno. rewrite forallb_forall in Hno.
  apply negb_true_iff.
  apply (Hno (k, clean_value unidecode tipo k v)).
  unfold on_values. apply in_map_iff. exists (k, v). auto.
Qed.

Lemma C4_witness :
  _post_process_document_fields ascii_only "ine"
    [("nombre", "NOMBRE  Juan  Perez"); ("sexo", "hombre");
     ("vigencia", "VIGENCIA 2019 - 2029"); ("folio", "a-1")]
  = [("nombre", "JUAN PEREZ"); ("sexo", "H");
     ("vigencia", "2019 - 2029"); ("folio", "a-1")]
  /\ _post_process_document_fields ascii_only "ine"
       (_post_process_document_fields ascii_only "ine"
          [("nombre", "NOMBRE  Juan  Perez"); ("sexo", "hombre");
           ("vigencia", "VIGENCIA 2019 - 2029"); ("folio", "a-1")])
     = _post_process_document_fields ascii_only "ine"
         [("nombre", "NOMBRE  Juan  Perez"); ("sexo", "hombre");
          ("vigencia", "VIGENCIA 2019 - 2029"); ("folio", "a-1")].
Proof.
  split; [vm_compute; reflexivity|].
  apply (C4_cleaner_idempotent_without_leftover_label ascii_only "ine").
  - apply ascii_only_ascii.
  - apply ascii_only_id.
  - repeat constructor; simpl; intuition discriminate.
  - vm_compute. reflexivity.
Defined.

End CleanTheorems.

(* ===================================================================== *)
(** * More about the merge engine *)
(* ===================================================================== *)

Module MergeMore.
Import PyStr PyDict Patterns OcrMerge MergeSpec DictFacts MergeFacts MergeTheorems.

(** The pattern branch, first rule, first source. *)
Lemma chosen_template_validates name pat tpl auto text :
  _ok (Some pat) (read tpl name) = true ->
  chosen name (Some pat) tpl auto text
  = mkDecision name "template" (read tpl name).
Proof.
  intros Ht. unfold chosen, _choose. cbv zeta. now rewrite Ht.
Qed.

(** The branch without a pattern. *)
Lemma chosen_no_pattern name tpl auto text :
  chosen name None tpl auto text
  = if truthy (read tpl name) then mkDecision name "template" (read tpl name)
    else if truthy (read auto name) then mkDecision name "auto" (read auto name)
    else mkDecision name "text" (read text name).
Proof.
  unfold chosen, _choose. cbv zeta.
  destruct (truthy (read tpl name)); [reflexivity|].
  destruct (truthy (read auto name)); reflexivity.
Qed.

(** Whatever [_choose] records, the value is the trimmed value of the
    source it names. *)
Lemma chosen_provenance name pat tpl auto text :
  let d := chosen name pat tpl auto text in
  (chosen_from d = "template" /\ value d = read tpl name)
  \/ (chosen_from d = "auto" /\ value d = read auto name)
  \/ (chosen_from d = "text" /\ value d = read text name)
  \/ (chosen_from d = "none" /\ value d = "").
Proof.
  unfold chosen, _choose. cbv zeta.
  destruct pat;
    repeat match goal with
           | |- context [if ?b then _ else _] => destruct b
           end; simpl; auto 10.
Qed.

(** With nothing in the auto map, [_choose] never names it. *)
Lemma chosen_without_auto name pat tpl text :
  String.eqb (chosen_from (chosen name pat tpl empty text)) "auto" = false.
Proof.
  unfold chosen, _choose. cbv zeta.
  change (read empty name) with "".
  destruct pat; cbn [_ok truthy negb];
    repeat match goal with
           | |- context [if ?b then _ else _] => destruct b
           end; reflexivity.
Qed.

Lemma In_field_decisions l tpl auto text d :
  In d (field_decisions l tpl auto text) ->
  exists k p, In (k, p) l /\ d = chosen k p tpl auto text.
Proof.
  unfold field_decisions. rewrite in_map_iff.
  intros ([k p] & <- & Hin). now exists k, p.
Qed.

Lemma In_otros_decisions tpl auto text d :
  In d (otros_decisions tpl auto text) ->
  exists k v, In (k, v) (otros_merged tpl auto text)
              /\ d = mkDecision k (otros_src tpl auto text k) v.
Proof.
  unfold otros_decisions. rewrite in_map_iff.
  intros ([k v] & <- & Hin). now exists k, v.
Qed.

(** The document types the merge knows. *)
Lemma tipo_cases tipo :
  In tipo fixed_types \/ tipo = "otros"
  \/ (String.eqb tipo "ine" = false /\ String.eqb tipo "curp" = false
      /\ String.eqb tipo "acta" = false /\ String.eqb tipo "otros" = false).
Proof.
  unfold fixed_types.
  destruct (String.eqb tipo "ine") eqn:E1;
    [apply String.eqb_eq in E1; subst; simpl; auto|].
  destruct (String.eqb tipo "curp") eqn:E2;
    [apply String.eqb_eq in E2; subst; simpl; auto|].
  destruct (String.eqb tipo "acta") eqn:E3;
    [apply String.eqb_eq in E3; subst; simpl; auto|].
  destruct (String.eqb tipo "otros") eqn:E4;
    [apply String.eqb_eq in E4; subst; simpl; auto|].
  auto 10.
Qed.

(** A type with no branch and no declared keys: nothing is merged. *)
Lemma smart_merge_unknown tipo tpl auto text :
  String.eqb tipo "ine" = false -> String.eqb tipo "curp" = false ->
  String.eqb tipo "acta" = false -> String.eqb tipo "otros" = false ->
  smart_merge_fields tipo tpl auto text = (empty, []).
Proof.
  intros E1 E2 E3 E4. unfold smart_merge_fields. rewrite E1, E2, E3, E4.
  unfold skip, expected_keys_map. cbn [expected_keys].
  rewrite (String.eqb_sym "ine"), (String.eqb_sym "curp"),
    (String.eqb_sym "acta"), (String.eqb_sym "otros"), E1, E2, E3, E4.
  reflexivity.
Qed.

Lemma declared_unknown tipo :
  String.eqb tipo "ine" = false -> String.eqb tipo "curp" = false ->
  String.eqb tipo "acta" = false -> declared_fields tipo = [].
Proof. intros E1 E2 E3. unfold declared_fields. now rewrite E1, E2, E3. Qed.

Lemma get_with_defaults_other (d : dict) (ks : list string) (k : string) :
  ~ In k ks -> get (with_defaults d ks) k = get d k.
Proof.
  unfold with_defaults. revert d.
  induction ks as [|k0 ks IH]; intros d H; simpl; auto.
  rewrite IH by (intros Hin; apply H; now right).
  unfold setdefault. destruct (mem d k0); auto.
  apply get_set_other. intros ->. apply H. now left.
Qed.

Lemma decisions_for_absent tpl auto text (l : dict) k :
  get l k = None ->
  decisions_for k
    (map (fun kv => mkDecision (fst kv) (otros_src tpl auto text (fst kv)) (snd kv)) l)
  = [].
Proof.
  unfold decisions_for.
  induction l as [|[k0 v0] l IH]; simpl; auto.
  destruct (String.eqb k0 k); [discriminate | exact IH].
Qed.

(** The catch-all branch: the last writer wins. *)
Lemma get_otros_merged tpl auto text k :
  wf tpl -> wf auto -> wf text ->
  get (otros_merged tpl auto text) k
  = match get text k with
    | Some v => Some v
    | None =>
        match get auto k with
        | Some v => Some v
        | None => get tpl k
        end
    end.
Proof.
  intros Ht Ha Hx. unfold otros_merged.
  destruct (get text k) as [v|] eqn:Ex.
  - now apply get_update_present.
  - rewrite (get_update_absent _ _ _ Ex).
    destruct (get auto k) as [v|] eqn:Ea.
    + now apply get_update_present.
    + rewrite (get_update_absent _ _ _ Ea). now apply get_update_empty.
Qed.

End MergeMore.

Module MergeExtras.
Import PyStr PyDict Patterns OcrMerge MergeSpec DictFacts MergeFacts MergeTheorems.
Import MergeMore.

(** X1.  For a field with a validation pattern, a template value that is
    ASCII text once trimmed and validates (after trimming and
    upper-casing) is chosen whatever the auto and text maps hold. *)
Theorem X1_validating_template_wins tipo k pat tpl auto text :
  In (k, Some pat) (declared_fields tipo) ->
  all is_ascii (read tpl k) = true ->
  validates pat (read tpl k) ->
  get (fst (smart_merge_fields tipo tpl auto text)) k = Some (read tpl k)
  /\ decisions_for k (snd (smart_merge_fields tipo tpl auto text))
     = [mkDecision k "template" (read tpl k)].
Proof.
  intros Hin _ Hv.
  destruct (merge_declared_field tipo k (Some pat) tpl auto text Hin) as [H1 H2].
  apply ok_validates in Hv.
  rewrite (chosen_template_validates k pat tpl auto text Hv) in H1, H2.
  split; assumption.
Qed.

Lemma X1_witness :
  get (fst (smart_merge_fields "ine" [("sexo", " m ")] [("sexo", "H")]
                               [("sexo", "HOMBRE")])) "sexo"
  = Some (read [("sexo", " m ")] "sexo")
  /\ decisions_for "sexo"
       (snd (smart_merge_fields "ine" [("sexo", " m ")] [("sexo", "H")]
                                [("sexo", "HOMBRE")]))
     = [mkDecision "sexo" "template" (read [("sexo", " m ")] "sexo")].
Proof.
  apply (X1_validating_template_wins "ine" "sexo" SEXO_REGEX).
  - simpl. tauto.
  - vm_compute. reflexivity.
  - split; [vm_compute; discriminate | exists "M"; vm_compute; reflexivity].
Defined.

(** X2.  For a field without a validation pattern the merge takes the
    first non-empty trimmed value among template, auto and text, in that
    order; when the first two are empty the text value is recorded, empty
    or not. *)
Theorem X2_field_without_pattern_takes_first_non_empty tipo k tpl auto text :
  In (k, None) (declared_fields tipo) ->
  let d :=
    if truthy (read tpl k) then mkDecision k "template" (read tpl k)
    else if truthy (read auto k) then mkDecision k "auto" (read auto k)
    else mkDecision k "text" (read text k) in
  get (fst (smart_merge_fields tipo tpl auto text)) k = Some (value d)
  /\ decisions_for k (snd (smart_merge_fields tipo tpl auto text)) = [d].
Proof.
  intros Hin d.
  destruct (merge_declared_field tipo k None tpl auto text Hin) as [H1 H2].
  rewrite (chosen_no_pattern k tpl auto text) in H1, H2.
  split; assumption.
Qed.

Lemma X2_witness :
  get (fst (smart_merge_fields "curp" [("nombre", "  ")] [("nombre", " ANA ")]
                               [("nombre", "EVA")])) "nombre"
  = Some "ANA"
  /\ decisions_for "nombre"
       (snd (smart_merge_fields "curp" [("nombre", "  ")] [("nombre", " ANA ")]
                                [("nombre", "EVA")]))
     = [mkDecision "nombre" "auto" "ANA"].
Proof.
  apply (X2_field_without_pattern_takes_first_non_empty
           "curp" "nombre" [("nombre", "  ")] [("nombre", " ANA ")]
           [("nombre", "EVA")]).
  simpl. tauto.
Defined.

(** X3.  For the fixed-field types the merge never invents a value: the
    value of every decision is the trimmed value that the source it names
    holds for the field, and a decision that names no source has the empty
    value. *)
Theorem X3_decision_value_comes_from_its_source tipo tpl auto text d :
  In tipo fixed_types ->
  In d (snd (smart_merge_fields tipo tpl auto text)) ->
  (chosen_from d = "template" /\ value d = read tpl (field d))
  \/ (chosen_from d = "auto" /\ value d = read auto (field d))
  \/ (chosen_from d = "text" /\ value d = read text (field d))
  \/ (chosen_from d = "none" /\ value d = "").
Proof.
  intros Ht Hd. rewrite (smart_merge_fixed tipo tpl auto text Ht) in Hd.
  simpl in Hd. apply In_field_decisions in Hd.
  destruct Hd as (k & p & _ & ->). rewrite chosen_field.
  apply chosen_provenance.
Qed.

Lemma X3_witness :
  (chosen_from (mkDecision "curp" "text" "GOMC900101HDFRRL09") = "template"
   /\ value (mkDecision "curp" "text" "GOMC900101HDFRRL09")
      = read [("curp", "x")] (field (mkDecision "curp" "text" "GOMC900101HDFRRL09")))
  \/ (chosen_from (mkDecision "curp" "text" "GOMC900101HDFRRL09") = "auto"
      /\ value (mkDecision "curp" "text" "GOMC900101HDFRRL09")
         = read [] (field (mkDecision "curp" "text" "GOMC900101HDFRRL09")))
  \/ (chosen_from (mkDecision "curp" "text" "GOMC900101HDFRRL09") = "text"
      /\ value (mkDecision "curp" "text" "GOMC900101HDFRRL09")
         = read [("curp", " GOMC900101HDFRRL09 "); ("nombre", "ANA")]
                (field (mkDecision "curp" "text" "GOMC900101HDFRRL09")))
  \/ (chosen_from (mkDecision "curp" "text" "GOMC900101HDFRRL09") = "none"
      /\ value (mkDecision "curp" "text" "GOMC900101HDFRRL09") = "").
Proof.
  apply (X3_decision_value_comes_from_its_source
           "curp" [("curp", "x")] []
           [("curp", " GOMC900101HDFRRL09 "); ("nombre", "ANA")]).
  - simpl. tauto.
  - vm_compute. tauto.
Defined.

(** X4.  The decision log explains the field map: whatever the document
    type, every decision's value is the value the merged map holds for the
    decision's field. *)
Theorem X4_decisions_agree_with_fields tipo tpl auto text d :
  In d (snd (smart_merge_fields tipo tpl auto text)) ->
  get (fst (smart_merge_fields tipo tpl auto text)) (field d) = Some (value d).
Proof.
  destruct (tipo_cases tipo) as [Hf | [-> | (E1 & E2 & E3 & E4)]].
  - intros Hd.
    assert (Hd' := Hd). rewrite (smart_merge_fixed tipo tpl auto text Hf) in Hd'.
    simpl in Hd'. apply In_field_decisions in Hd'.
    destruct Hd' as (k & p & Hin & ->). rewrite chosen_field.
    apply (merge_declared_field tipo k p tpl auto text Hin).
  - rewrite smart_merge_otros. cbn [fst snd]. intros Hd.
    apply In_otros_decisions in Hd. destruct Hd as (k & v & Hin & ->).
    cbn [field value].
    apply get_with_defaults_present.
    rewrite get_update_empty by apply wf_otros_merged.
    apply In_get; [apply wf_otros_merged | exact Hin].
  - rewrite (smart_merge_unknown tipo tpl auto text E1 E2 E3 E4). simpl. tauto.
Qed.

Lemma X4_witness :
  get (fst (smart_merge_fields "otros" [("folio", "T9")] [("folio", "A1")]
                               [("emisor", "SEP")]))
      (field (mkDecision "folio" "auto" "A1"))
  = Some (value (mkDecision "folio" "auto" "A1")).
Proof.
  apply (X4_decisions_agree_with_fields
           "otros" [("folio", "T9")] [("folio", "A1")] [("emisor", "SEP")]).
  vm_compute. tauto.
Defined.

(** X5.  The decision log lists the fields in a fixed order: one decision
    per declared field, in declaration order, for ine, curp and acta; one
    per key of the merged inputs, in insertion order, for otros; none for
    any other type. *)
Theorem X5_decisions_follow_the_declared_order tipo tpl auto text :
  map field (snd (smart_merge_fields tipo tpl auto text))
  = if String.eqb tipo "otros" then keys (otros_merged tpl auto text)
    else map fst (declared_fields tipo).
Proof.
  destruct (tipo_cases tipo) as [Hf | [-> | (E1 & E2 & E3 & E4)]].
  - rewrite (smart_merge_fixed tipo tpl auto text Hf). simpl snd.
    assert (E : String.eqb tipo "otros" = false).
    { unfold fixed_types in Hf. simpl in Hf.
      destruct Hf as [<-|[<-|[<-|[]]]]; reflexivity. }
    rewrite E. unfold field_decisions. rewrite map_map.
    apply map_ext. intros [k p]. apply chosen_field.
  - rewrite smart_merge_otros. cbn [snd]. rewrite String.eqb_refl.
    unfold otros_decisions, keys. rewrite map_map. reflexivity.
  - rewrite (smart_merge_unknown tipo tpl auto text E1 E2 E3 E4), E4.
    now rewrite (declared_unknown tipo E1 E2 E3).
Qed.

(** X6.  For otros the last writer wins, key by key: a key of the text map
    takes the text value, else a key of the auto map takes the auto value,
    else a key of the template map takes the template value, and the
    decision names that source; a key in none of them is in the result
    only if it is one of the six declared keys, with the empty value and
    no decision. *)
Theorem X6_otros_last_writer_wins tpl auto text k :
  wf tpl -> wf auto -> wf text ->
  get (fst (smart_merge_fields "otros" tpl auto text)) k
  = match get text k with
    | Some v => Some v
    | None =>
        match get auto k with
        | Some v => Some v
        | None =>
            match get tpl k with
            | Some v => Some v
            | None => if existsb (String.eqb k) otros_keys then Some "" else None
            end
        end
    end
  /\ decisions_for k (snd (smart_merge_fields "otros" tpl auto text))
     = match get text k with
       | Some v => [mkDecision k "text" v]
       | None =>
           match get auto k with
           | Some v => [mkDecision k "auto" v]
           | None =>
               match get tpl k with
               | Some v => [mkDecision k "template" v]
               | None => []
               end
           end
       end.
Proof.
  intros Ht Ha Hx. rewrite smart_merge_otros. cbn [fst snd].
  pose proof (get_otros_merged tpl auto text k Ht Ha Hx) as G.
  split.
  - destruct (get (otros_merged tpl auto text) k) as [v|] eqn:E.
    + rewrite (get_with_defaults_present _ _ k v)
        by (rewrite get_update_empty by apply wf_otros_merged; exact E).
      destruct (get text k); [exact G|].
      destruct (get auto k); [exact G|].
      destruct (get tpl k); [exact G | discriminate].
    + assert (E' : get (update empty (otros_merged tpl auto text)) k = None).
      { rewrite get_update_empty by apply wf_otros_merged. exact E. }
      destruct (get text k); [discriminate|].
      destruct (get auto k); [discriminate|].
      destruct (get tpl k); [discriminate|].
      destruct (existsb (String.eqb k) otros_keys) eqn:M.
      * apply get_with_defaults_absent; auto.
        apply existsb_exists in M. destruct M as (x & Hin & Hx').
        apply String.eqb_eq in Hx'. now subst x.
      * rewrite get_with_defaults_other; auto.
        intros Hin. assert (existsb (String.eqb k) otros_keys = true).
        { apply existsb_exists. exists k. split; auto. apply String.eqb_refl. }
        congruence.
  - destruct (get (otros_merged tpl auto text) k) as [v|] eqn:E.
    + rewrite (decisions_for_otros tpl auto text k v E).
      unfold otros_src, mem.
      destruct (get text k); [congruence|].
      destruct (get auto k); [congruence|].
      destruct (get tpl k); [congruence | discriminate].
    + unfold otros_decisions. rewrite (decisions_for_absent _ _ _ _ _ E).
      destruct (get text k); [discriminate|].
      destruct (get auto k); [discriminate|].
      destruct (get tpl k); [discriminate | reflexivity].
Qed.

Lemma X6_witness :
  get (fst (smart_merge_fields "otros" [("folio", "T9"); ("rfc", "R")]
                               [("folio", "A1")] [("emisor", "SEP")])) "folio"
  = Some "A1"
  /\ decisions_for "folio"
       (snd (smart_merge_fields "otros" [("folio", "T9"); ("rfc", "R")]
                                [("folio", "A1")] [("emisor", "SEP")]))
     = [mkDecision "folio" "auto" "A1"].
Proof.
  apply (X6_otros_last_writer_wins
           [("folio", "T9"); ("rfc", "R")] [("folio", "A1")] [("emisor", "SEP")]
           "folio").
  - repeat constructor; simpl; intuition discriminate.
  - repeat constructor; simpl; intuition discriminate.
  - repeat constructor; simpl; intuition discriminate.
Defined.

(** X7.  In the endpoint, the auto map handed to the merge is always
    empty ([extract_fields] returns [None] or [{}], and the call site reads
    [... or {}]), so no decision of the merge ever names the auto source. *)
Theorem X7_endpoint_never_merges_an_auto_value
        unidecode float_of_str tipo raw_text export tpl text :
  Router.fields_auto unidecode float_of_str tipo raw_text export = empty
  /\ forallb (fun d => negb (String.eqb (chosen_from d) "auto"))
             (snd (smart_merge_fields
                     tipo tpl
                     (Router.fields_auto unidecode float_of_str tipo raw_text export)
                     text)) = true.
Proof.
  assert (E : Router.fields_auto unidecode float_of_str tipo raw_text export
              = empty).
  { unfold Router.fields_auto. destruct export; reflexivity. }
  rewrite E. split; [reflexivity|].
  apply forallb_forall. intros d Hd. apply negb_true_iff.
  destruct (tipo_cases tipo) as [Hf | [-> | (E1 & E2 & E3 & E4)]].
  - rewrite (smart_merge_fixed tipo tpl empty text Hf) in Hd. simpl in Hd.
    apply In_field_decisions in Hd. destruct Hd as (k & p & _ & ->).
    apply chosen_without_auto.
  - rewrite smart_merge_otros in Hd. cbn [snd] in Hd.
    apply In_otros_decisions in Hd. destruct Hd as (k & v & _ & ->).
    cbn [chosen_from].
    unfold otros_src. change (mem empty k) with false.
    destruct (mem text k); [reflexivity|].
    destruct (mem tpl k); reflexivity.
  - rewrite (smart_merge_unknown tipo tpl empty text E1 E2 E3 E4) in Hd.
    destruct Hd.
Qed.

End MergeExtras.

(* ===================================================================== *)
(** * More about the normaliser and the field cleaner *)
(* ===================================================================== *)

Module CleanMore.
Import PyStr PyDict Re Patterns Extractor.
Import TextSpec ReSpec CleanSpec PieceSpec StrFacts ReFacts PatternFacts TextFacts.
Import DictFacts CleanFacts.

Lemma single_strip q : single q = true -> single (strip q) = true.
Proof.
  intros H. destruct (strip_piece q) as (pre & tail & E).
  rewrite E in H. apply (single_app_l _ _ (single_app_r _ _ H)).
Qed.

(** Whatever [_norm_text] returns has single blanks only. *)
Lemma single_norm unidecode s : single (_norm_text unidecode s) = true.
Proof. rewrite norm_eq. apply single_strip, single_squeeze. Qed.

(** ** The keys of a cleaned map *)

Lemma keys_set_present (d : dict) (k v v0 : string) :
  get d k = Some v0 -> keys (set d k v) = keys d.
Proof.
  unfold keys. induction d as [|[k' v'] d IH]; simpl; [discriminate|].
  destruct (String.eqb k' k) eqn:E; simpl; [reflexivity|].
  intros H. now rewrite IH.
Qed.

Lemma keys_adjust k f d : keys (adjust k f d) = keys d.
Proof.
  unfold adjust. destruct (get d k) eqn:E; auto.
  now apply keys_set_present with (v0 := s).
Qed.

Lemma keys_adjust_nonempty k f d : keys (adjust_nonempty k f d) = keys d.
Proof.
  unfold adjust_nonempty. destruct (get d k) eqn:E; auto.
  destruct (truthy s); auto. now apply keys_set_present with (v0 := s).
Qed.

Lemma keys_run_stage st d : keys (run_stage st d) = keys d.
Proof.
  unfold run_stage. destruct (nonempty st);
    [apply keys_adjust_nonempty | apply keys_adjust].
Qed.

Lemma keys_run_stages l : forall d,
  keys (fold_left (fun d st => run_stage st d) l d) = keys d.
Proof.
  induction l as [|st l IH]; intros d; simpl; auto.
  now rewrite IH, keys_run_stage.
Qed.

(** ** The values a step does not name *)

Lemma get_adjust_other k f d k' :
  k <> k' -> get (adjust k f d) k' = get d k'.
Proof.
  intros H. unfold adjust. destruct (get d k); auto.
  now apply get_set_other.
Qed.

Lemma get_adjust_nonempty_other k f d k' :
  k <> k' -> get (adjust_nonempty k f d) k' = get d k'.
Proof.
  intros H. unfold adjust_nonempty. destruct (get d k); auto.
  destruct (truthy s); auto. now apply get_set_other.
Qed.

Lemma get_run_stage_other st d k :
  skey st <> k -> get (run_stage st d) k = get d k.
Proof.
  intros H. unfold run_stage. destruct (nonempty st);
    [now apply get_adjust_nonempty_other | now apply get_adjust_other].
Qed.

Lemma get_run_stages_other l k : forall d,
  ~ In k (map skey l) ->
  get (fold_left (fun d st => run_stage st d) l d) k = get d k.
Proof.
  induction l as [|st l IH]; intros d H; simpl; auto.
  rewrite IH by (intros Hin; apply H; now right).
  apply get_run_stage_other. intros E. apply H. now left.
Qed.

(** ** [str.find] and [_truncate_on_tokens] *)

Lemma startswith_iff (t p : string) :
  startswith t p = true <-> exists rest, t = (p ++ rest)%string.
Proof.
  unfold startswith. revert t.
  induction p as [|a p IH]; intros t.
  - simpl. destruct t; split; eauto.
  - destruct t as [|b t].
    + simpl. split; [discriminate | intros [r H]; discriminate].
    + cbn [String.prefix]. destruct (ascii_dec a b) as [E|N].
      * subst b. split.
        -- intros H. apply IH in H. destruct H as [r H]. exists r.
           simpl. now rewrite H.
        -- intros [r H]. apply IH. exists r. simpl in H. now injection H.
      * split; [discriminate|]. intros [r H]. simpl in H.
        injection H as E _. congruence.
Qed.

Lemma take_drop (i : nat) : forall t, t = (take i t ++ drop i t)%string.
Proof.
  induction i as [|i IH]; intros [|c t]; simpl; auto.
  now rewrite <- IH.
Qed.

Lemma occurs_refl (t : string) : occurs t t.
Proof. exists "", "". simpl. now rewrite str_app_empty_r. Qed.

Lemma occurs_trans (x y z : string) : occurs x y -> occurs y z -> occurs x z.
Proof.
  intros (a & b & ->) (c & d & ->).
  exists (c ++ a)%string, (b ++ d)%string.
  now rewrite !str_app_assoc.
Qed.

Lemma occurs_strip (t : string) : occurs (strip t) t.
Proof. destruct (strip_piece t) as (pre & tail & E). now exists pre, tail. Qed.

Lemma occurs_take (i : nat) (t : string) : occurs (take i t) t.
Proof.
  exists "", (drop i t). simpl. apply take_drop.
Qed.

Lemma find_eq (t stop : string) :
  find t stop =
  if startswith t stop then Some 0
  else match t with
       | EmptyString => None
       | String _ t' =>
           match find t' stop with Some i => Some (S i) | None => None end
       end.
Proof. destruct t; reflexivity. Qed.

(** [find] answers [-1] only when the text does not hold the token. *)
Lemma find_none (t stop : string) :
  find t stop = None -> forall pre post, t <> (pre ++ stop ++ post)%string.
Proof.
  induction t as [|c t IH]; rewrite find_eq;
    destruct (startswith _ stop) eqn:E; try discriminate.
  - intros _ pre post H.
    assert (startswith "" stop = true); [|congruence].
    apply startswith_iff. destruct pre; [|discriminate]. now exists post.
  - destruct (find t stop) eqn:F; [discriminate|]. intros _ pre post H.
    destruct pre as [|a pre].
    + assert (startswith (String c t) stop = true); [|congruence].
      apply startswith_iff. now exists post.
    + simpl in H. injection H as _ H. apply (IH eq_refl pre post H).
Qed.

(** Before the index [find] answers, the text does not hold the token. *)
Lemma find_some (stop : string) : forall t i,
  find t stop = Some i -> stop <> "" ->
  forall pre post, take i t <> (pre ++ stop ++ post)%string.
Proof.
  assert (Z : forall pre post, stop <> "" -> "" <> (pre ++ stop ++ post)%string).
  { intros pre post Hne H. destruct pre; [|discriminate].
    destruct stop; [congruence | discriminate]. }
  induction t as [|c t IH]; intros i; rewrite find_eq;
    destruct (startswith _ stop) eqn:E; try discriminate.
  - intros [= <-] Hne pre post. simpl. now apply Z.
  - intros [= <-] Hne pre post. simpl. now apply Z.
  - destruct (find t stop) as [j|] eqn:F; [|discriminate].
    intros [= <-] Hne pre post H. cbn [take] in H.
    destruct pre as [|a pre].
    + assert (startswith (String c t) stop = true); [|congruence].
      apply startswith_iff. simpl in H.
      exists (post ++ drop j t)%string.
      rewrite (take_drop j t) at 1.
      change (String c (take j t ++ drop j t))
        with (String c (take j t) ++ drop j t)%string.
      rewrite H. now rewrite str_app_assoc.
    + simpl in H. injection H as _ H. apply (IH j eq_refl Hne pre post H).
Qed.

Lemma not_occurs_piece (stop x t : string) :
  occurs x t ->
  (forall pre post, t <> (pre ++ stop ++ post)%string) ->
  forall pre post, x <> (pre ++ stop ++ post)%string.
Proof.
  intros Hx Ht pre post E.
  destruct (occurs_trans stop x t) as (a & b & H); auto.
  - now exists pre, post.
  - apply (Ht a b H).
Qed.

Lemma find_none_intro (t stop : string) :
  (forall pre post, t <> (pre ++ stop ++ post)%string) -> find t stop = None.
Proof.
  induction t as [|c t IH]; intros H; rewrite find_eq;
    destruct (startswith _ stop) eqn:E.
  - apply startswith_iff in E. destruct E as [r E].
    exfalso. apply (H "" r). exact E.
  - reflexivity.
  - apply startswith_iff in E. destruct E as [r E].
    exfalso. apply (H "" r). exact E.
  - rewrite IH; auto. intros pre post E'.
    apply (H (String c pre) post). simpl. now rewrite E'.
Qed.

(** One turn of the loop of [_truncate_on_tokens]. *)
Lemma truncate_step_piece (t stop : string) :
  occurs (match find t stop with Some i => strip (take i t) | None => t end) t.
Proof.
  destruct (find t stop) as [i|]; [|apply occurs_refl].
  apply (occurs_trans _ (take i t)); [apply occurs_strip | apply occurs_take].
Qed.

Lemma truncate_loop_piece (stops : list string) : forall t,
  occurs (fold_left
            (fun t stop =>
               match find t stop with
               | Some i => strip (take i t)
               | None => t
               end) stops t) t.
Proof.
  induction stops as [|st stops IH]; intros t; simpl; [apply occurs_refl|].
  eapply occurs_trans; [apply IH | apply truncate_step_piece].
Qed.

Lemma truncate_loop_clear (stops : list string) (stop : string) : forall t,
  In stop stops -> stop <> "" ->
  forall pre post,
    fold_left
      (fun t stop =>
         match find t stop with
         | Some i => strip (take i t)
         | None => t
         end) stops t
    <> (pre ++ stop ++ post)%string.
Proof.
  induction stops as [|st stops IH]; intros t Hin Hne; simpl in *; [tauto|].
  destruct (string_dec st stop) as [->|Hd].
  - apply (not_occurs_piece stop _ _ (truncate_loop_piece stops _)).
    destruct (find t stop) as [i|] eqn:F.
    + apply (not_occurs_piece stop _ _ (occurs_strip _)).
      now apply find_some.
    + now apply find_none.
  - destruct Hin as [E|Hin]; [congruence|]. now apply IH.
Qed.

End CleanMore.

Module CleanExtras.
Import PyStr PyDict Re Patterns Extractor.
Import TextSpec ReSpec CleanSpec PieceSpec StrFacts ReFacts PatternFacts TextFacts.
Import DictFacts CleanFacts CleanTheorems CleanMore.

(** X8.  [_clean_inline] adds nothing to [_norm]: the text [_norm] returns
    has no two adjacent whitespace characters, so the second substitution
    finds nothing, whatever [unidecode] does. *)
Theorem X8_clean_inline_is_norm (unidecode : string -> string) (s : string) :
  Parsers._clean_inline unidecode s = Parsers._norm unidecode s.
Proof.
  unfold Parsers._clean_inline. cbv zeta.
  change (Parsers._norm unidecode s) with (_norm_text unidecode s).
  unfold sub. apply sub_from_double_space, single_norm.
Qed.

(** X9.  The text [_norm] (and [_norm_text], the same code) returns is
    ASCII without lower-case letters, its only whitespace is single blanks
    between words, and normalising it again changes nothing. *)
Theorem X9_norm_is_idempotent (unidecode : string -> string) (s : string) :
  (forall t, all is_ascii (unidecode t) = true) ->
  (forall t, all is_ascii t = true -> unidecode t = t) ->
  normal (Parsers._norm unidecode s) = true
  /\ Parsers._norm unidecode (Parsers._norm unidecode s)
     = Parsers._norm unidecode s.
Proof.
  intros U1 U2.
  change (Parsers._norm unidecode) with (_norm_text unidecode).
  split.
  - now apply normal_norm.
  - apply (norm_normal unidecode U2). now apply normal_norm.
Qed.

Lemma X9_witness :
  normal (Parsers._norm ascii_only "  Clave 	de
  elector: ab-12 ") = true
  /\ Parsers._norm ascii_only (Parsers._norm ascii_only "  Clave 	de
  elector: ab-12 ")
     = Parsers._norm ascii_only "  Clave 	de
  elector: ab-12 ".
Proof.
  apply (X9_norm_is_idempotent ascii_only).
  - apply ascii_only_ascii.
  - apply ascii_only_id.
Defined.

(** X10.  The cleaner neither adds nor removes a field: the keys of its
    output are the keys of its input, in the same order, for every
    document type. *)
Theorem X10_cleaner_keeps_the_keys
        (unidecode : string -> string) (tipo : string) (fields : dict) :
  keys (_post_process_document_fields unidecode tipo fields) = keys fields.
Proof. rewrite post_process_stages. apply keys_run_stages. Qed.

(** X11.  A field that no step of the cleaner names for the document type
    keeps its value; for a type other than ine, curp and acta that is
    every field. *)
Theorem X11_cleaner_leaves_other_fields_alone
        (unidecode : string -> string) (tipo : string) (fields : dict)
        (k : string) :
  existsb (String.eqb k) (map skey (stages unidecode tipo)) = false ->
  get (_post_process_document_fields unidecode tipo fields) k = get fields k.
Proof.
  intros H. rewrite post_process_stages. apply get_run_stages_other.
  intros Hin.
  assert (existsb (String.eqb k) (map skey (stages unidecode tipo)) = true).
  { apply existsb_exists. exists k. split; auto. apply String.eqb_refl. }
  congruence.
Qed.

Lemma X11_witness :
  get (_post_process_document_fields
         ascii_only "ine" [("nombre", "nombre ana"); ("folio", " a-1 ")]) "folio"
  = get [("nombre", "nombre ana"); ("folio", " a-1 ")] "folio".
Proof.
  apply (X11_cleaner_leaves_other_fields_alone ascii_only "ine").
  vm_compute. reflexivity.
Defined.

(** X12.  [_pick_first_state_in_text] never returns anything but the empty
    text or a state of the catalogue, and what it returns is found again in
    itself. *)
Theorem X12_state_is_from_the_catalogue (unidecode : string -> string) (s : string) :
  (forall t, all is_ascii t = true -> unidecode t = t) ->
  (_pick_first_state_in_text unidecode s = ""
   \/ In (_pick_first_state_in_text unidecode s) ESTADOS)
  /\ _pick_first_state_in_text unidecode (_pick_first_state_in_text unidecode s)
     = _pick_first_state_in_text unidecode s.
Proof.
  intros U2. split.
  - rewrite pick_state_eq.
    destruct (state_in_member (split_ws (_only_letters_spaces unidecode s)))
      as [E|M]; [now left|right].
    unfold member in M. apply existsb_exists in M.
    destruct M as (x & Hin & Hx). apply String.eqb_eq in Hx. now subst x.
  - destruct (pick_state_cases unidecode U2 s) as [E | (_ & _ & H)]; auto.
    rewrite E. rewrite pick_state_eq.
    rewrite (only_letters_fixed unidecode U2 "") by reflexivity.
    reflexivity.
Qed.

Lemma X12_witness :
  (_pick_first_state_in_text ascii_only "Entidad: baja california sur, 2001" = ""
   \/ In (_pick_first_state_in_text ascii_only
            "Entidad: baja california sur, 2001") ESTADOS)
  /\ _pick_first_state_in_text ascii_only
       (_pick_first_state_in_text ascii_only "Entidad: baja california sur, 2001")
     = _pick_first_state_in_text ascii_only "Entidad: baja california sur, 2001".
Proof.
  apply (X12_state_is_from_the_catalogue ascii_only). apply ascii_only_id.
Defined.

(** X13.  [_clean_ine_sexo] returns ["M"], ["H"] or the empty text, and
    nothing else; cleaning its result again gives the same result. *)
Theorem X13_sexo_is_M_H_or_empty (unidecode : string -> string) (s : string) :
  (forall t, all is_ascii t = true -> unidecode t = t) ->
  (_clean_ine_sexo unidecode s = "" \/ _clean_ine_sexo unidecode s = "M"
   \/ _clean_ine_sexo unidecode s = "H")
  /\ _clean_ine_sexo unidecode (_clean_ine_sexo unidecode s)
     = _clean_ine_sexo unidecode s.
Proof.
  intros U2. split.
  - apply sexo_ine_values.
  - now apply sexo_ine_idem.
Qed.

Lemma X13_witness :
  (_clean_ine_sexo ascii_only "sexo  mujer" = ""
   \/ _clean_ine_sexo ascii_only "sexo  mujer" = "M"
   \/ _clean_ine_sexo ascii_only "sexo  mujer" = "H")
  /\ _clean_ine_sexo ascii_only (_clean_ine_sexo ascii_only "sexo  mujer")
     = _clean_ine_sexo ascii_only "sexo  mujer".
Proof.
  apply (X13_sexo_is_M_H_or_empty ascii_only). apply ascii_only_id.
Defined.

(** X14.  [_only_letters_spaces] returns capital letters and single blanks
    only, with no blank at either end, and is idempotent. *)
Theorem X14_only_letters_spaces_is_idempotent
        (unidecode : string -> string) (s : string) :
  (forall t, all is_ascii (unidecode t) = true) ->
  (forall t, all is_ascii t = true -> unidecode t = t) ->
  lettery (_only_letters_spaces unidecode s) = true
  /\ normal (_only_letters_spaces unidecode s) = true
  /\ _only_letters_spaces unidecode (_only_letters_spaces unidecode s)
     = _only_letters_spaces unidecode s.
Proof.
  intros U1 U2. repeat split.
  - now apply lettery_only_letters.
  - now apply normal_only_letters.
  - now apply only_letters_idem.
Qed.

Lemma X14_witness :
  lettery (_only_letters_spaces ascii_only " Ana-Maria  2a. (lopez) ") = true
  /\ normal (_only_letters_spaces ascii_only " Ana-Maria  2a. (lopez) ") = true
  /\ _only_letters_spaces ascii_only
       (_only_letters_spaces ascii_only " Ana-Maria  2a. (lopez) ")
     = _only_letters_spaces ascii_only " Ana-Maria  2a. (lopez) ".
Proof.
  apply (X14_only_letters_spaces_is_idempotent ascii_only).
  - apply ascii_only_ascii.
  - apply ascii_only_id.
Defined.

(** X15.  [_clean_address_line] returns a normalised text that is empty or
    begins with a capital letter or a digit, and is idempotent. *)
Theorem X15_address_line_is_idempotent
        (unidecode : string -> string) (s : string) :
  (forall t, all is_ascii (unidecode t) = true) ->
  (forall t, all is_ascii t = true -> unidecode t = t) ->
  normal (_clean_address_line unidecode s) = true
  /\ head_is (in_class true [(65, 90); (48, 57)])
             (_clean_address_line unidecode s) = false
  /\ _clean_address_line unidecode (_clean_address_line unidecode s)
     = _clean_address_line unidecode s.
Proof.
  intros U1 U2. repeat split.
  - now apply normal_address.
  - rewrite (address_norm unidecode U1 U2),
      (address_of_normal unidecode U2 _ (normal_norm unidecode U1 s)).
    apply dropwhile_head.
  - now apply address_idem.
Qed.

Lemma X15_witness :
  normal (_clean_address_line ascii_only " - : c. 5 de mayo  #12 ") = true
  /\ head_is (in_class true [(65, 90); (48, 57)])
             (_clean_address_line ascii_only " - : c. 5 de mayo  #12 ") = false
  /\ _clean_address_line ascii_only
       (_clean_address_line ascii_only " - : c. 5 de mayo  #12 ")
     = _clean_address_line ascii_only " - : c. 5 de mayo  #12 ".
Proof.
  apply (X15_address_line_is_idempotent ascii_only).
  - apply ascii_only_ascii.
  - apply ascii_only_id.
Defined.

(** X16.  With one of the patterns of the module, what [_pick_first_regex]
    (and [_pick_first_regex_any]) returns is the empty text or a piece of
    the normalised input that begins and ends with a word character, and
    picking again in the result returns the result. *)
Theorem X16_picked_value_is_stable
        (unidecode : string -> string) (s : string) (r : regex) :
  (forall t, all is_ascii (unidecode t) = true) ->
  (forall t, all is_ascii t = true -> unidecode t = t) ->
  In r [CURP_REGEX; YEAR_REGEX; DATE_REGEX; VIG_REGEX; SECCION_REGEX;
        SEXO_REGEX; CLAVE_REGEX] ->
  (_pick_first_regex unidecode s r = ""
   \/ (word_after (_pick_first_regex unidecode s r) = true
       /\ word_before (last_char None (_pick_first_regex unidecode s r)) = true
       /\ exists pre post,
           _norm_text unidecode s
           = (pre ++ _pick_first_regex unidecode s r ++ post)%string))
  /\ _pick_first_regex unidecode (_pick_first_regex unidecode s r) r
     = _pick_first_regex unidecode s r
  /\ _pick_first_regex_any unidecode s r = _pick_first_regex unidecode s r.
Proof.
  intros U1 U2 Hin.
  assert (Hr : self_contained r = true).
  { pose proof self_contained_patterns as F. rewrite forallb_forall in F. auto. }
  repeat split.
  - rewrite pick_eq.
    destruct (search r (_norm_text unidecode s)) as [m|] eqn:E; [right|now left].
    destruct (search_stable r _ m Hr E) as (_ & Hw & Hl & Hp). auto.
  - now apply pick_idem.
Qed.

Lemma X16_witness :
  (_pick_first_regex ascii_only "vigencia 2019 - 2029 x" VIG_REGEX = ""
   \/ (word_after (_pick_first_regex ascii_only "vigencia 2019 - 2029 x" VIG_REGEX)
       = true
       /\ word_before
            (last_char None
               (_pick_first_regex ascii_only "vigencia 2019 - 2029 x" VIG_REGEX))
          = true
       /\ exists pre post,
           _norm_text ascii_only "vigencia 2019 - 2029 x"
           = (pre ++ _pick_first_regex ascii_only "vigencia 2019 - 2029 x" VIG_REGEX
                  ++ post)%string))
  /\ _pick_first_regex ascii_only
       (_pick_first_regex ascii_only "vigencia 2019 - 2029 x" VIG_REGEX) VIG_REGEX
     = _pick_first_regex ascii_only "vigencia 2019 - 2029 x" VIG_REGEX
  /\ _pick_first_regex_any ascii_only "vigencia 2019 - 2029 x" VIG_REGEX
     = _pick_first_regex ascii_only "vigencia 2019 - 2029 x" VIG_REGEX.
Proof.
  apply (X16_picked_value_is_stable ascii_only).
  - apply ascii_only_ascii.
  - apply ascii_only_id.
  - simpl. tauto.
Defined.

(** X25.  What [_truncate_on_tokens] returns holds none of the (non-empty)
    stop tokens, and is a piece of the normalised input. *)
Theorem X25_truncated_text_holds_no_stop_token
        (unidecode : string -> string) (s : string) (stops : list string)
        (stop : string) :
  In stop stops -> stop <> "" ->
  find (_truncate_on_tokens unidecode s stops) stop = None
  /\ occurs (_truncate_on_tokens unidecode s stops) (_norm_text unidecode s).
Proof.
  intros Hin Hne. unfold _truncate_on_tokens. cbv zeta. split.
  - apply find_none_intro. now apply truncate_loop_clear.
  - apply truncate_loop_piece.
Qed.

Lemma X25_witness :
  find (_truncate_on_tokens ascii_only "Juan  Perez sexo H domicilio c 5"
                            ["DOMICILIO"; "SEXO"]) "DOMICILIO" = None
  /\ occurs (_truncate_on_tokens ascii_only "Juan  Perez sexo H domicilio c 5"
                                 ["DOMICILIO"; "SEXO"])
            (_norm_text ascii_only "Juan  Perez sexo H domicilio c 5").
Proof.
  apply (X25_truncated_text_holds_no_stop_token
           ascii_only "Juan  Perez sexo H domicilio c 5" ["DOMICILIO"; "SEXO"]).
  - simpl. tauto.
  - discriminate.
Defined.

End CleanExtras.

(* ===================================================================== *)
(** * More about the geometry coercer *)
(* ===================================================================== *)

Module GeomMore.
Import PyFloat PyVal Parsers GeomSpec LayoutSpec FloatFacts GeomFacts.

Lemma leb_antisym (a b : float) :
  leb a b = true -> leb b a = true -> eqb a b = true.
Proof. intros H1 H2. float_order. Qed.

Lemma leb_self (a b : float) : leb a b = true -> eqb a a = true /\ eqb b b = true.
Proof. intros H. split; float_order. Qed.

Lemma in_unit_clamp (v : float) : in_unit (clamp v).
Proof. apply clamp_in_unit. Qed.

Lemma in_unit_not_nan (v : float) : in_unit v -> eqb v v = true.
Proof. intros [H _]. apply (leb_self _ _ H). Qed.

(** [==] goes through clamping. *)
Lemma clamp_eqb (a b : float) :
  leb a b = true -> leb b a = true -> eqb (clamp a) (clamp b) = true.
Proof.
  intros H1 H2. apply leb_antisym; now apply clamp_mono.
Qed.

Lemma clamp_refl (a : float) : eqb (clamp a) (clamp a) = true.
Proof. apply in_unit_not_nan, in_unit_clamp. Qed.

(** Every coordinate [order_and_clamp] returns is a clamped one. *)
Lemma order_and_clamp_in_unit (x0 y0 x1 y1 a b c d : float) :
  order_and_clamp x0 y0 x1 y1 = (a, b, c, d) ->
  in_unit a /\ in_unit b /\ in_unit c /\ in_unit d.
Proof.
  unfold order_and_clamp.
  destruct (leb x0 x1); destruct (leb y0 y1); intros [= <- <- <- <-];
    repeat split; apply clamp_in_unit.
Qed.

(** Whatever [_coerce_geom] returns went through [order_and_clamp]. *)
Lemma coerce_returns float_of_str (geom : value) (r : rect) :
  _coerce_geom float_of_str geom = Returns r ->
  exists x0 y0 x1 y1, r = order_and_clamp x0 y0 x1 y1.
Proof.
  unfold _coerce_geom.
  destruct geom as [| | | | | l | d];
    try (intros [= <-]; do 4 eexists; reflexivity).
  destruct ((length l =? 4) && forallb is_number l).
  - destruct (map (to_float float_of_str) l)
      as [|[x0|] [|[y0|] [|[x1|] [|[y1|] [|? ?]]]]]; try discriminate.
    intros [= <-]. do 4 eexists. reflexivity.
  - destruct ((length l =? 2) && forallb is_pair l).
    + intros [= <-]. do 4 eexists. reflexivity.
    + cbv zeta.
      destruct (4 <=? length (numeric_leaves float_of_str (_flatten (VSeq l)))).
      * destruct (firstn 4 (numeric_leaves float_of_str (_flatten (VSeq l))))
          as [|x0 [|y0 [|x1 [|y1 [|? ?]]]]]; try discriminate.
        intros [= <-]. do 4 eexists. reflexivity.
      * intros [= <-]. do 4 eexists. reflexivity.
Qed.

(** The two corners can be given in either order. *)
Lemma order_and_clamp_swap (x0 y0 x1 y1 : float) :
  is_nan x0 = false -> is_nan y0 = false ->
  is_nan x1 = false -> is_nan y1 = false ->
  rect_eq (order_and_clamp x0 y0 x1 y1) (order_and_clamp x1 y1 x0 y0).
Proof.
  rewrite !not_nan_iff. intros Nx0 Ny0 Nx1 Ny1.
  unfold order_and_clamp, rect_eq, feq.
  destruct (leb x0 x1) eqn:Ex; destruct (leb x1 x0) eqn:Ex';
    destruct (leb y0 y1) eqn:Ey; destruct (leb y1 y0) eqn:Ey';
    repeat split;
    try apply clamp_refl; try (apply clamp_eqb; assumption);
    exfalso;
    try (pose proof (leb_total _ _ Nx0 Nx1 Ex); congruence);
    try (pose proof (leb_total _ _ Ny0 Ny1 Ey); congruence).
Qed.

End GeomMore.

Module GeomExtras.
Import PyFloat PyVal Parsers GeomSpec LayoutSpec FloatFacts GeomFacts GeomMore.

(** X17.  Whatever the input, a box that [_coerce_geom] returns has its
    four coordinates between 0 and 1: no coordinate is out of range or
    NaN, even when the input holds NaN or infinite numbers. *)
Theorem X17_coerced_box_is_in_the_unit_square
        (float_of_str : string -> option float) (geom : value)
        (a b c d : float) :
  _coerce_geom float_of_str geom = Returns (a, b, c, d) ->
  in_unit a /\ in_unit b /\ in_unit c /\ in_unit d.
Proof.
  intros H. destruct (coerce_returns _ _ _ H) as (x0 & y0 & x1 & y1 & E).
  symmetry in E. apply (order_and_clamp_in_unit _ _ _ _ _ _ _ _ E).
Qed.

Lemma X17_witness :
  _coerce_geom (fun _ => None)
               (VDict [("x0", VFloat 0.5%float); ("x1", VFloat nan);
                       ("y1", VFloat infinity)])
  = Returns (1%float, 0%float, 0.5%float, 1%float)
  /\ (in_unit 1%float /\ in_unit 0%float /\ in_unit 0.5%float
      /\ in_unit 1%float).
Proof.
  split; [reflexivity|].
  apply (X17_coerced_box_is_in_the_unit_square
           (fun _ => None)
           (VDict [("x0", VFloat 0.5%float); ("x1", VFloat nan);
                   ("y1", VFloat infinity)])).
  reflexivity.
Defined.

(** X18.  The two corners of a box can be given in either order: for four
    numbers none of which is NaN, [_coerce_geom([x1, y1, x0, y0])] equals
    [_coerce_geom([x0, y0, x1, y1])]. *)
Theorem X18_corner_order_does_not_matter
        (float_of_str : string -> option float) (a b c d : value)
        (x0 y0 x1 y1 : float) :
  number float_of_str a x0 -> number float_of_str b y0 ->
  number float_of_str c x1 -> number float_of_str d y1 ->
  is_nan x0 = false -> is_nan y0 = false ->
  is_nan x1 = false -> is_nan y1 = false ->
  exists r r',
    _coerce_geom float_of_str (VSeq [a; b; c; d]) = Returns r
    /\ _coerce_geom float_of_str (VSeq [c; d; a; b]) = Returns r'
    /\ rect_eq r r'.
Proof.
  intros Ha Hb Hc Hd N0 N1 N2 N3.
  exists (order_and_clamp x0 y0 x1 y1), (order_and_clamp x1 y1 x0 y0).
  repeat split.
  - now apply GeomTheorems.coerce_four_numbers.
  - now apply GeomTheorems.coerce_four_numbers.
  - now apply order_and_clamp_swap.
Qed.

Lemma X18_witness :
  exists r r',
    _coerce_geom (fun _ => None)
                 (VSeq [VFloat 0.75%float; VInt 2; VFloat 0.25%float; VBool false])
    = Returns r
    /\ _coerce_geom (fun _ => None)
                    (VSeq [VFloat 0.25%float; VBool false; VFloat 0.75%float; VInt 2])
       = Returns r'
    /\ rect_eq r r'.
Proof.
  apply (X18_corner_order_does_not_matter
           (fun _ => None) _ _ _ _ 0.75%float 2%float 0.25%float 0%float);
    try (split; reflexivity); reflexivity.
Defined.

End GeomExtras.

(* ===================================================================== *)
(** * The layout model *)
(* ===================================================================== *)

Module LayoutFacts.
Import PyStr PyFloat PyVal Parsers GeomSpec LayoutSpec.
Import FloatFacts GeomFacts GeomMore.

(** ** Loops *)

Lemma fold_left_inv {A B : Type} (P : A -> Prop) (f : A -> B -> A) (l : list B) :
  (forall acc x, In x l -> P acc -> P (f acc x)) ->
  forall init, P init -> P (fold_left f l init).
Proof.
  induction l as [|x l IH]; intros Hstep init Hinit; simpl; auto.
  apply IH.
  - intros acc y Hy. apply Hstep. now right.
  - apply Hstep; auto. now left.
Qed.

(** ** [list.sort] *)

Section Sorting.
Context {A : Type}.
Variable lt : A -> A -> bool.

Lemma insert_by_perm (x : A) (l : list A) :
  Permutation (insert_by lt x l) (x :: l).
Proof.
  induction l as [|y l IH]; simpl; auto.
  destruct (lt x y); auto.
  rewrite IH. apply perm_swap.
Qed.

Lemma sort_into_perm (l acc : list A) :
  Permutation (fold_left (fun acc x => insert_by lt x acc) l acc) (l ++ acc).
Proof.
  revert acc. induction l as [|x l IH]; intros acc; simpl; auto.
  rewrite IH, insert_by_perm. symmetry. apply Permutation_middle.
Qed.

Lemma sort_by_perm (l : list A) : Permutation (sort_by lt l) l.
Proof. unfold sort_by. rewrite sort_into_perm. now rewrite app_nil_r. Qed.

Lemma sort_by_Forall (P : A -> Prop) (l : list A) :
  Forall P l -> Forall P (sort_by lt l).
Proof.
  intros H. apply Forall_forall. intros x Hx.
  rewrite Forall_forall in H. apply H.
  apply (Permutation_in _ (sort_by_perm l) Hx).
Qed.

(** The sort orders the list by any transitive relation that the
    comparison decides on the elements at hand. *)
Variables (R : A -> A -> Prop) (D : A -> Prop).
Hypothesis R_trans : forall a b c, R a b -> R b c -> R a c.
Hypothesis lt_R : forall x y, D x -> D y -> lt x y = true -> R x y.
Hypothesis not_lt_R : forall x y, D x -> D y -> lt x y = false -> R y x.

Lemma insert_by_sorted (x : A) (l : list A) :
  D x -> Forall D l -> StronglySorted R l ->
  StronglySorted R (insert_by lt x l).
Proof.
  intros Dx. induction l as [|y l IH]; intros Dl Hs; simpl.
  - constructor; constructor.
  - inversion Dl as [|? ? Dy Dl']; subst.
    inversion Hs as [|? ? Hs' Hf]; subst.
    destruct (lt x y) eqn:E.
    + constructor; auto. constructor.
      * now apply lt_R.
      * rewrite Forall_forall in *. intros z Hz.
        apply (R_trans x y z); auto.
    + constructor; auto.
      apply Forall_forall. intros z Hz.
      apply (Permutation_in _ (insert_by_perm x l)) in Hz.
      destruct Hz as [<-|Hz].
      * now apply not_lt_R.
      * rewrite Forall_forall in Hf. auto.
Qed.

Lemma sort_by_sorted (l : list A) :
  Forall D l -> StronglySorted R (sort_by lt l).
Proof.
  intros Dl. unfold sort_by.
  assert (G : forall acc,
             Forall D acc /\ StronglySorted R acc ->
             Forall D (fold_left (fun acc x => insert_by lt x acc) l acc)
             /\ StronglySorted R
                  (fold_left (fun acc x => insert_by lt x acc) l acc)).
  { apply (fold_left_inv (fun acc => Forall D acc /\ StronglySorted R acc)).
    intros acc x Hx [Da Sa].
    rewrite Forall_forall in Dl. split.
    - apply Forall_forall. intros z Hz.
      apply (Permutation_in _ (insert_by_perm x acc)) in Hz.
      destruct Hz as [<-|Hz]; auto.
      rewrite Forall_forall in Da. auto.
    - apply insert_by_sorted; auto. }
  apply G. split; constructor.
Qed.

End Sorting.

(** ** Comparing words and lines *)

Lemma word_lt_leb (u v : Word) :
  ltb (xmin u) (xmin v) || (eqb (xmin u) (xmin v) && ltb (cx u) (cx v)) = true ->
  leb (xmin u) (xmin v) = true.
Proof.
  intros H. apply orb_true_iff in H. destruct H as [H|H].
  - float_order.
  - apply andb_true_iff in H. destruct H as [H _]. float_order.
Qed.

Lemma word_not_lt_leb (u v : Word) :
  eqb (xmin u) (xmin u) = true -> eqb (xmin v) (xmin v) = true ->
  ltb (xmin u) (xmin v) || (eqb (xmin u) (xmin v) && ltb (cx u) (cx v)) = false ->
  leb (xmin v) (xmin u) = true.
Proof.
  intros Nu Nv H. apply orb_false_iff in H. destruct H as [H _]. float_order.
Qed.

Lemma min2_in_unit (a b : float) :
  in_unit a -> in_unit b ->
  in_unit (min2 a b) /\ leb (min2 a b) a = true /\ leb (min2 a b) b = true.
Proof.
  unfold in_unit, min2. intros [A0 A1] [B0 B1].
  destruct (ltb b a) eqn:E; repeat split; float_order.
Qed.

Lemma max2_in_unit (a b : float) :
  in_unit a -> in_unit b ->
  in_unit (max2 a b) /\ leb a (max2 a b) = true /\ leb b (max2 a b) = true.
Proof.
  unfold in_unit, max2. intros [A0 A1] [B0 B1].
  destruct (ltb a b) eqn:E; repeat split; float_order.
Qed.

Lemma in_unit_zero : in_unit zero.
Proof. split; reflexivity. Qed.

Lemma in_unit_one : in_unit one.
Proof. split; reflexivity. Qed.

(** ** [_match_sequence] *)

Lemma Subseq_tail x s l : Subseq (x :: s) l -> Subseq s l.
Proof.
  induction l as [|y l IH]; intros H; inversion H; subst.
  - apply Subseq_skip. auto.
  - now apply Subseq_skip.
Qed.

Lemma Subseq_weaken s p l : Subseq s l -> Subseq s (p ++ l).
Proof. intros H. induction p; simpl; auto. now apply Subseq_skip. Qed.

(** The first word that bears the token splits the list. *)
Lemma Subseq_first_word (t : string) (sq : list string) (l : list Word) :
  Subseq (t :: sq) (map norm l) ->
  exists pre w post,
    l = pre ++ w :: post /\ norm w = t
    /\ Forall (fun u => String.eqb (norm u) t = false) pre
    /\ Subseq sq (map norm post).
Proof.
  induction l as [|w l IH]; simpl; intros H; [inversion H|].
  destruct (String.eqb (norm w) t) eqn:E.
  - apply String.eqb_eq in E. exists [], w, l. repeat split; auto.
    inversion H; subst; auto. now apply Subseq_tail with (x := norm w).
  - inversion H; subst.
    + destruct (IH H2) as (pre & w' & post & -> & Hn & Hp & Hs).
      exists (w :: pre), w', post. repeat split; auto.
    + rewrite String.eqb_refl in E. discriminate.
Qed.

Lemma scan_token_found (pre : list Word) (w : Word) (post : list Word)
      (token : string) : forall k,
  norm w = token ->
  Forall (fun u => String.eqb (norm u) token = false) pre ->
  scan_token (pre ++ w :: post) k token = Some (k + length pre + 1).
Proof.
  induction pre as [|u pre IH]; intros k Hw Hp; simpl.
  - rewrite Hw, String.eqb_refl. f_equal. lia.
  - inversion Hp as [|? ? Hu Hp']; subst. rewrite Hu.
    rewrite (IH (S k)); auto; f_equal; lia.
Qed.

Lemma scan_token_some (ws : list Word) (token : string) : forall k k',
  scan_token ws k token = Some k' ->
  exists pre w post,
    ws = pre ++ w :: post /\ norm w = token
    /\ Forall (fun u => String.eqb (norm u) token = false) pre
    /\ k' = k + length pre + 1.
Proof.
  induction ws as [|u ws IH]; intros k k'; simpl; [discriminate|].
  destruct (String.eqb (norm u) token) eqn:E.
  - intros [= <-]. apply String.eqb_eq in E.
    exists [], u, ws. repeat split; auto; simpl; lia.
  - intros H. destruct (IH _ _ H) as (pre & w & post & -> & Hn & Hp & ->).
    exists (u :: pre), w, post. repeat split; auto; simpl; lia.
Qed.

Lemma skipn_after (ws pre : list Word) (w : Word) (post : list Word) (k : nat) :
  skipn k ws = pre ++ w :: post ->
  skipn (k + length pre + 1) ws = post
  /\ nth_error ws (k + length pre) = Some w
  /\ k + length pre + 1 <= length ws.
Proof.
  intros H. repeat split.
  - replace (k + length pre + 1) with ((length pre + 1) + k) by lia.
    rewrite <- skipn_skipn, H.
    change (pre ++ w :: post) with (pre ++ [w] ++ post).
    rewrite app_assoc.
    replace (length pre + 1) with (length (pre ++ [w]))
      by (rewrite length_app; simpl; lia).
    rewrite skipn_app, skipn_all, Nat.sub_diag. reflexivity.
  - rewrite <- (firstn_skipn k ws) at 1.
    assert (L : length (firstn k ws) = k).
    { apply firstn_length_le.
      assert (length (skipn k ws) = length ws - k) by apply length_skipn.
      rewrite H, length_app in H0. simpl in H0. lia. }
    rewrite nth_error_app2 by lia. rewrite L, H.
    replace (k + length pre - k) with (length pre) by lia.
    rewrite nth_error_app2 by lia. now rewrite Nat.sub_diag.
  - assert (length (skipn k ws) = length ws - k) by apply length_skipn.
    rewrite H, length_app in H0. simpl in H0. lia.
Qed.

Lemma match_tokens_complete (ws : list Word) (sq : list string) : forall k,
  Subseq sq (map norm (skipn k ws)) ->
  exists k', match_tokens ws sq k = Some k'.
Proof.
  induction sq as [|t sq IH]; intros k H; simpl; eauto.
  destruct (Subseq_first_word _ _ _ H) as (pre & w & post & E & Hn & Hp & Hs).
  rewrite E, (scan_token_found pre w post t k Hn Hp).
  apply IH. destruct (skipn_after _ _ _ _ _ E) as (-> & _ & _). exact Hs.
Qed.

Lemma match_tokens_sound (ws : list Word) (sq : list string) : forall k k',
  match_tokens ws sq k = Some k' ->
  Subseq sq (map norm (skipn k ws))
  /\ k <= k'
  /\ (sq <> [] ->
      k < k' /\ k' <= length ws
      /\ option_map norm (nth_error ws (k' - 1)) = Some (last sq "")).
Proof.
  induction sq as [|t sq IH]; intros k k'; simpl.
  - intros [= <-]. split; [constructor|]. split; [lia|].
    intros H. exfalso. now apply H.
  - destruct (scan_token (skipn k ws) k t) as [k1|] eqn:S; [|discriminate].
    intros H.
    destruct (scan_token_some _ _ _ _ S) as (pre & w & post & E & Hn & Hp & ->).
    destruct (skipn_after _ _ _ _ _ E) as (E1 & E2 & E3).
    destruct (IH _ _ H) as (Hs & Hle & Hlast).
    split; [|split].
    + rewrite E, map_app. apply Subseq_weaken. simpl. rewrite Hn.
      apply Subseq_take. now rewrite E1 in Hs.
    + lia.
    + intros _. destruct sq as [|t' sq].
      * simpl in H. injection H as <-.
        repeat split; try lia.
        replace (k + length pre + 1 - 1) with (k + length pre) by lia.
        rewrite E2. simpl. now rewrite Hn.
      * destruct (Hlast ltac:(discriminate)) as (H1 & H2 & H3).
        repeat split; try lia. exact H3.
Qed.

(** ** [_find_label] *)

Lemma try_aliases_some (L : Line) (i : nat) (w : Word)
      (aliases : list (list string)) (h : label_hit) :
  try_aliases L i w aliases = Some h ->
  exists sq,
    In sq aliases /\ hd_error sq = Some (norm w)
    /\ _match_sequence L sq i = Some (h_k0 h, h_k1 h, h_xmin h, h_xmax h)
    /\ h_line h = L /\ h_page h = lpage L /\ h_line_idx h = i
    /\ h_ymin h = lymin L /\ h_ymax h = lymax L.
Proof.
  induction aliases as [|sq aliases IH]; simpl; [discriminate|].
  assert (Later : try_aliases L i w aliases = Some h ->
                  exists sq0,
                    (sq = sq0 \/ In sq0 aliases) /\ hd_error sq0 = Some (norm w)
                    /\ _match_sequence L sq0 i
                       = Some (h_k0 h, h_k1 h, h_xmin h, h_xmax h)
                    /\ h_line h = L /\ h_page h = lpage L /\ h_line_idx h = i
                    /\ h_ymin h = lymin L /\ h_ymax h = lymax L).
  { intros H. destruct (IH H) as (sq0 & Hin & Rest). exists sq0. auto. }
  destruct sq as [|tok0 sq']; [exact Later|].
  destruct (String.eqb (norm w) tok0) eqn:E; [|exact Later].
  destruct (_match_sequence L (tok0 :: sq') i) as [[[[k0 k1] x0] x1]|] eqn:M;
    [|exact Later].
  intros [= <-]. apply String.eqb_eq in E.
  exists (tok0 :: sq'). cbn. rewrite E. repeat split; auto.
Qed.

Lemma try_words_some (L : Line) (aliases : list (list string)) (h : label_hit) :
  forall ws i,
    try_words L i ws aliases = Some h ->
    exists j w, nth_error ws j = Some w
                /\ try_aliases L (i + j) w aliases = Some h.
Proof.
  induction ws as [|w ws IH]; intros i; simpl; [discriminate|].
  destruct (try_aliases L i w aliases) as [h'|] eqn:E.
  - intros [= <-]. exists 0, w. rewrite Nat.add_0_r. auto.
  - intros H. destruct (IH _ H) as (j & w' & Hj & Ht).
    exists (S j), w'. split; auto.
    replace (i + S j) with (S i + j) by lia. exact Ht.
Qed.

Lemma find_label_some (lines : list Line) (aliases : list (list string))
      (h : label_hit) :
  _find_label lines aliases = Some h ->
  exists L j w,
    In L lines /\ nth_error (words L) j = Some w
    /\ try_aliases L j w aliases = Some h.
Proof.
  induction lines as [|L lines IH]; simpl; [discriminate|].
  destruct (try_words L 0 (words L) aliases) as [h'|] eqn:E.
  - intros [= <-]. destruct (try_words_some _ _ _ _ _ E) as (j & w & Hj & Ht).
    exists L, j, w. auto.
  - intros H. destruct (IH H) as (L' & j & w & Hin & Rest).
    exists L', j, w. auto.
Qed.

(** ** [_collect_below_until_next_label] *)

Lemma below_words_same_page (hit : label_hit) (first : list string) (n : nat) :
  forall ls was_found count,
    below_words ls hit first n was_found count
    = below_words (filter (fun L => lpage L =? h_page hit) ls)
                  hit first n was_found count.
Proof.
  induction ls as [|L ls IH]; intros was_found count; simpl; auto.
  destruct (lpage L =? h_page hit) eqn:E; simpl; [rewrite E; simpl|apply IH].
  destruct was_found; simpl.
  - destruct (n <=? count); auto.
    destruct (_line_contains_label L first); auto.
    now rewrite IH.
  - apply IH.
Qed.

Section Externals.
Variable unidecode : string -> string.
Variable float_of_str : string -> option float.

#[local] Abbreviation new_Word := (new_Word unidecode float_of_str).
#[local] Abbreviation add_words := (add_words unidecode float_of_str).
#[local] Abbreviation word_of_line := (word_of_line unidecode).

(** ** [Word] *)

Lemma new_Word_returns (val : string) (pidx : nat) (geom : value) (w : Word) :
  new_Word val pidx geom = Returns w ->
  text w = val /\ norm w = _norm unidecode val /\ page w = pidx /\ boxed w.
Proof.
  unfold Parsers.new_Word.
  destruct (_coerce_geom float_of_str geom) as [[[[a b] c] d]|e] eqn:E;
    [|discriminate].
  intros [= <-]. cbn [text norm page].
  split; [reflexivity|]. split; [reflexivity|]. split; [reflexivity|].
  unfold boxed. cbn [xmin ymin xmax ymax].
  destruct (coerce_returns _ _ _ E) as (x0 & y0 & x1 & y1 & E').
  symmetry in E'. apply (order_and_clamp_in_unit _ _ _ _ _ _ _ _ E').
Qed.

(** ** [Line] *)

(** What holds of a line under construction. *)
Lemma new_Line_inv (id pidx : nat) :
  in_unit (lymin (new_Line id pidx)) /\ in_unit (lymax (new_Line id pidx))
  /\ Forall (word_of_line (new_Line id pidx)) (words (new_Line id pidx)).
Proof.
  simpl. repeat split; try reflexivity. constructor.
Qed.

Lemma Line_add_inv (L : Line) (w : Word) :
  in_unit (lymin L) -> in_unit (lymax L) ->
  Forall (word_of_line L) (words L) ->
  text w <> "" -> norm w = _norm unidecode (text w) -> page w = lpage L ->
  boxed w ->
  in_unit (lymin (Line_add L w)) /\ in_unit (lymax (Line_add L w))
  /\ Forall (word_of_line (Line_add L w)) (words (Line_add L w)).
Proof.
  intros Hmin Hmax Hws Ht Hn Hp Hb.
  pose proof Hb as (Bx0 & By0 & Bx1 & By1).
  destruct (min2_in_unit (lymin L) (ymin w) Hmin By0) as (M1 & M2 & M3).
  destruct (max2_in_unit (lymax L) (ymax w) Hmax By1) as (X1 & X2 & X3).
  unfold Line_add. cbn [lymin lymax words lpage].
  split; [exact M1|]. split; [exact X1|].
  apply Forall_app. split.
  - rewrite Forall_forall in *. intros w' Hw'.
    destruct (Hws w' Hw') as (T & N & P & B & Lo & Hi).
    unfold LayoutSpec.word_of_line. cbn [lymin lymax lpage].
    split; [exact T|]. split; [exact N|]. split; [exact P|].
    split; [exact B|].
    split; [apply (leb_trans _ _ _ M2 Lo) | apply (leb_trans _ _ _ Hi X2)].
  - constructor; [|constructor].
    unfold LayoutSpec.word_of_line. cbn [lymin lymax lpage].
    split; [exact Ht|]. split; [exact Hn|]. split; [exact Hp|].
    split; [exact Hb|]. split; [exact M3 | exact X3].
Qed.

Lemma add_words_inv (pidx : nat) (ws : list ocr_word) : forall L,
  lpage L = pidx ->
  in_unit (lymin L) -> in_unit (lymax L) ->
  Forall (word_of_line L) (words L) ->
  lpage (add_words pidx L ws) = pidx
  /\ in_unit (lymin (add_words pidx L ws))
  /\ in_unit (lymax (add_words pidx L ws))
  /\ Forall (word_of_line (add_words pidx L ws)) (words (add_words pidx L ws)).
Proof.
  unfold Parsers.add_words.
  induction ws as [|w ws IH]; intros L Hp Hmin Hmax Hws; simpl; auto.
  destruct (negb (truthy (w_value w)) || is_None (w_geometry w)) eqn:E;
    [now apply IH|].
  apply orb_false_iff in E. destruct E as [E _].
  apply negb_false_iff in E.
  destruct (Parsers.new_Word unidecode float_of_str (w_value w) pidx
                             (w_geometry w)) as [wd|e] eqn:W;
    [|now apply IH].
  destruct (new_Word_returns _ _ _ _ W) as (T & N & P & B).
  assert (Hne : text wd <> "").
  { rewrite T. intros Z. rewrite Z in E. discriminate. }
  assert (N' : norm wd = _norm unidecode (text wd)) by congruence.
  assert (P' : page wd = lpage L) by congruence.
  destruct (Line_add_inv L wd Hmin Hmax Hws Hne N' P' B) as (I1 & I2 & I3).
  apply IH; assumption.
Qed.

(** ** [Line.sort] *)

Lemma Line_sort_perm (L : Line) : Permutation (words (Line_sort L)) (words L).
Proof. unfold Line_sort. cbn [words]. apply sort_by_perm. Qed.

Lemma Line_sort_sorted (L : Line) :
  Forall (fun w => eqb (xmin w) (xmin w) = true) (words L) ->
  left_to_right (words (Line_sort L)).
Proof.
  intros H. unfold Line_sort, left_to_right. cbn [words].
  apply (sort_by_sorted _ _ (fun w => eqb (xmin w) (xmin w) = true)); auto.
  - intros a b c. apply leb_trans.
  - intros x y _ _. apply word_lt_leb.
  - intros x y. apply word_not_lt_leb.
Qed.

Lemma Line_sort_built (n : nat) (L : Line) :
  words L <> [] -> lpage L < n ->
  in_unit (lymin L) -> in_unit (lymax L) ->
  Forall (word_of_line L) (words L) ->
  built_line unidecode n (Line_sort L).
Proof.
  intros Hne Hp Hmin Hmax Hws. unfold built_line.
  split; [|split; [exact Hp|split; [exact Hmin|split; [exact Hmax|split]]]].
  - intros E. apply Hne.
    pose proof (Line_sort_perm L) as P. rewrite E in P.
    now apply Permutation_nil.
  - apply Forall_forall. intros w Hw.
    apply (Permutation_in _ (Line_sort_perm L)) in Hw.
    rewrite Forall_forall in Hws. apply (Hws w Hw).
  - apply Line_sort_sorted.
    rewrite Forall_forall in *. intros w Hw.
    destruct (Hws w Hw) as (_ & _ & _ & (B & _) & _).
    now apply in_unit_not_nan.
Qed.

(** ** [_build_lines_from_export] *)

Lemma build_lines_built (export : ocr_export) :
  Forall (built_line unidecode (length (pages export)))
         (_build_lines_from_export unidecode float_of_str export).
Proof.
  unfold _build_lines_from_export. cbv zeta.
  apply sort_by_Forall.
  apply (fold_left_inv (Forall (built_line unidecode (length (pages export)))));
    [|constructor].
  intros lines [pidx pg] Hin Hlines. cbn [fst snd].
  assert (Hp : pidx < length (pages export)).
  { apply in_combine_l in Hin. apply in_seq in Hin. lia. }
  apply (fold_left_inv (Forall (built_line unidecode (length (pages export)))));
    [|exact Hlines].
  clear lines Hlines. intros lines block _ Hlines.
  apply (fold_left_inv (Forall (built_line unidecode (length (pages export)))));
    [|exact Hlines].
  clear lines Hlines. intros lines ln _ Hlines.
  destruct (add_words_inv pidx (l_words ln) (new_Line (length lines) pidx)
              eq_refl in_unit_one in_unit_zero (Forall_nil _))
    as (P & I1 & I2 & I3).
  destruct (words (Parsers.add_words unidecode float_of_str pidx
                     (new_Line (length lines) pidx) (l_words ln))) eqn:W;
    [exact Hlines|].
  apply Forall_app. split; [exact Hlines|].
  constructor; [|constructor].
  apply Line_sort_built; auto.
  - rewrite W. discriminate.
  - rewrite P. exact Hp.
  - rewrite W. exact I3.
Qed.

Lemma build_lines_page_order (export : ocr_export) :
  StronglySorted (fun L1 L2 => lpage L1 <= lpage L2)
                 (_build_lines_from_export unidecode float_of_str export).
Proof.
  unfold _build_lines_from_export. cbv zeta.
  apply (sort_by_sorted _ _ (fun _ => True)).
  - intros a b c. lia.
  - intros x y _ _ H. apply orb_true_iff in H. destruct H as [H|H].
    + apply Nat.ltb_lt in H. lia.
    + apply andb_true_iff in H. destruct H as [H _].
      apply Nat.eqb_eq in H. lia.
  - intros x y _ _ H. apply orb_false_iff in H. destruct H as [H _].
    apply Nat.ltb_ge in H. exact H.
  - apply Forall_forall. auto.
Qed.

End Externals.
End LayoutFacts.

Module LayoutExtras.
Import PyStr PyFloat PyVal Parsers GeomSpec LayoutSpec Samples.
Import FloatFacts GeomFacts GeomMore LayoutFacts.

(** X19.  [Line.sort] loses no word and adds none, leaves the page and the
    vertical extent of the line alone, and puts the words in reading
    order: no word begins left of an earlier one (the left edges are not
    NaN). *)
Theorem X19_line_sort_orders_words_left_to_right (L : Line) :
  Forall (fun w => is_nan (xmin w) = false) (words L) ->
  Permutation (words (Line_sort L)) (words L)
  /\ left_to_right (words (Line_sort L))
  /\ lpage (Line_sort L) = lpage L
  /\ lymin (Line_sort L) = lymin L
  /\ lymax (Line_sort L) = lymax L.
Proof.
  intros H. split; [apply Line_sort_perm|]. split; [|auto].
  apply Line_sort_sorted.
  rewrite Forall_forall in *. intros w Hw. apply not_nan_iff. auto.
Qed.

Lemma X19_witness :
  Permutation
    (words (Line_sort (line_of [word_at "c" "C" 0.75%float;
                                word_at "a" "A" 0.25%float;
                                word_at "b" "B" 0.5%float])))
    (words (line_of [word_at "c" "C" 0.75%float; word_at "a" "A" 0.25%float;
                     word_at "b" "B" 0.5%float]))
  /\ left_to_right
       (words (Line_sort (line_of [word_at "c" "C" 0.75%float;
                                   word_at "a" "A" 0.25%float;
                                   word_at "b" "B" 0.5%float])))
  /\ lpage (Line_sort (line_of [word_at "c" "C" 0.75%float;
                                word_at "a" "A" 0.25%float;
                                word_at "b" "B" 0.5%float])) = 0
  /\ lymin (Line_sort (line_of [word_at "c" "C" 0.75%float;
                                word_at "a" "A" 0.25%float;
                                word_at "b" "B" 0.5%float])) = 0.25%float
  /\ lymax (Line_sort (line_of [word_at "c" "C" 0.75%float;
                                word_at "a" "A" 0.25%float;
                                word_at "b" "B" 0.5%float])) = 0.5%float.
Proof.
  apply (X19_line_sort_orders_words_left_to_right
           (line_of [word_at "c" "C" 0.75%float; word_at "a" "A" 0.25%float;
                     word_at "b" "B" 0.5%float])).
  repeat constructor.
Defined.

(** X20.  Every line that [_build_lines_from_export] returns has at least
    one word and a page index below the number of pages; every word of it
    has a non-empty text, its normal form, the page of the line and a box
    inside the unit square; the vertical extent of the line covers the
    words; and the words are in reading order. *)
Theorem X20_built_lines_are_well_formed
        (unidecode : string -> string) (float_of_str : string -> option float)
        (export : ocr_export) :
  Forall (built_line unidecode (length (pages export)))
         (_build_lines_from_export unidecode float_of_str export).
Proof. apply build_lines_built. Qed.

Lemma X20_witness :
  Forall (built_line (fun s => s) 1)
         (_build_lines_from_export (fun s => s) (fun _ => None) one_line_export)
  /\ map (fun L => map text (words L))
         (_build_lines_from_export (fun s => s) (fun _ => None) one_line_export)
     = [["Clave"; "elector"]].
Proof.
  split.
  - apply (X20_built_lines_are_well_formed
             (fun s => s) (fun _ => None) one_line_export).
  - vm_compute. reflexivity.
Defined.

(** X21.  [_build_lines_from_export] returns the lines in page order: no
    line is followed by a line of an earlier page. *)
Theorem X21_built_lines_are_in_page_order
        (unidecode : string -> string) (float_of_str : string -> option float)
        (export : ocr_export) :
  StronglySorted (fun L1 L2 => lpage L1 <= lpage L2)
                 (_build_lines_from_export unidecode float_of_str export).
Proof. apply build_lines_page_order. Qed.

(** X22.  For a non-empty token sequence, [_match_sequence] succeeds
    exactly when the tokens occur in order, not necessarily side by side,
    among the normal forms of the words from [start_k] on (the gap bound
    [max_dx_gap] is never applied); the span it returns begins at
    [start_k] and ends at a word of the line that bears the last token. *)
Theorem X22_match_sequence_finds_tokens_in_order
        (L : Line) (sq : list string) (start_k : nat) :
  sq <> [] ->
  ((exists r, _match_sequence L sq start_k = Some r)
   <-> Subseq sq (map norm (skipn start_k (words L))))
  /\ (forall k0 k1 x0 x1,
         _match_sequence L sq start_k = Some (k0, k1, x0, x1) ->
         k0 = start_k /\ start_k <= k1 /\ k1 < length (words L)
         /\ option_map norm (nth_error (words L) k1) = Some (last sq "")).
Proof.
  intros Hne. unfold _match_sequence. split; [split|].
  - intros [r H].
    destruct (match_tokens (words L) sq start_k) as [k|] eqn:M; [|discriminate].
    apply (match_tokens_sound _ _ _ _ M).
  - intros H. destruct (match_tokens_complete _ _ _ H) as [k ->]. eauto.
  - intros k0 k1 x0 x1.
    destruct (match_tokens (words L) sq start_k) as [k|] eqn:M;
      [|intros; discriminate].
    cbv zeta. intros [= <- <- _ _].
    destruct (match_tokens_sound _ _ _ _ M) as (_ & _ & H).
    destruct (H Hne) as (H1 & H2 & H3).
    repeat split; try lia. exact H3.
Qed.

Lemma X22_witness :
  ((exists r,
       _match_sequence
         (line_of [word_at "Clave" "CLAVE" 0.125%float;
                   word_at "unica" "UNICA" 0.25%float;
                   word_at "de" "DE" 0.5%float;
                   word_at "elector" "ELECTOR" 0.75%float])
         ["CLAVE"; "DE"; "ELECTOR"] 0 = Some r)
   <-> Subseq ["CLAVE"; "DE"; "ELECTOR"]
              (map norm
                   (skipn 0 (words
                               (line_of [word_at "Clave" "CLAVE" 0.125%float;
                                         word_at "unica" "UNICA" 0.25%float;
                                         word_at "de" "DE" 0.5%float;
                                         word_at "elector" "ELECTOR" 0.75%float])))))
  /\ (forall k0 k1 x0 x1,
         _match_sequence
           (line_of [word_at "Clave" "CLAVE" 0.125%float;
                     word_at "unica" "UNICA" 0.25%float;
                     word_at "de" "DE" 0.5%float;
                     word_at "elector" "ELECTOR" 0.75%float])
           ["CLAVE"; "DE"; "ELECTOR"] 0 = Some (k0, k1, x0, x1) ->
         k0 = 0 /\ 0 <= k1
         /\ k1 < length (words
                           (line_of [word_at "Clave" "CLAVE" 0.125%float;
                                     word_at "unica" "UNICA" 0.25%float;
                                     word_at "de" "DE" 0.5%float;
                                     word_at "elector" "ELECTOR" 0.75%float]))
         /\ option_map norm
              (nth_error
                 (words (line_of [word_at "Clave" "CLAVE" 0.125%float;
                                  word_at "unica" "UNICA" 0.25%float;
                                  word_at "de" "DE" 0.5%float;
                                  word_at "elector" "ELECTOR" 0.75%float])) k1)
            = Some (last ["CLAVE"; "DE"; "ELECTOR"] "")).
Proof.
  apply (X22_match_sequence_finds_tokens_in_order
           (line_of [word_at "Clave" "CLAVE" 0.125%float;
                     word_at "unica" "UNICA" 0.25%float;
                     word_at "de" "DE" 0.5%float;
                     word_at "elector" "ELECTOR" 0.75%float])
           ["CLAVE"; "DE"; "ELECTOR"] 0).
  discriminate.
Defined.

(** X23.  A hit of [_find_label] is anchored in the lines it was given:
    its line is one of them, its page and vertical extent are those of
    that line, and the word at its index bears the first token of one of
    the aliases, whose tokens [_match_sequence] found from that word on;
    the span of the hit begins at that word. *)
Theorem X23_label_hit_is_anchored
        (lines : list Line) (aliases : list (list string)) (h : label_hit) :
  _find_label lines aliases = Some h ->
  In (h_line h) lines
  /\ h_page h = lpage (h_line h)
  /\ h_ymin h = lymin (h_line h) /\ h_ymax h = lymax (h_line h)
  /\ h_k0 h = h_line_idx h
  /\ exists sq,
      In sq aliases
      /\ sq <> []
      /\ option_map norm (nth_error (words (h_line h)) (h_line_idx h))
         = hd_error sq
      /\ _match_sequence (h_line h) sq (h_line_idx h)
         = Some (h_k0 h, h_k1 h, h_xmin h, h_xmax h).
Proof.
  intros H.
  destruct (find_label_some _ _ _ H) as (L & j & w & Hin & Hj & Ht).
  destruct (try_aliases_some _ _ _ _ _ Ht)
    as (sq & Hsq & Hhd & HM & -> & Hp & Hi & Hlo & Hhi).
  rewrite Hi.
  assert (Hk : h_k0 h = j).
  { unfold _match_sequence in HM.
    destruct (match_tokens (words L) sq j); [|discriminate].
    cbv zeta in HM. now injection HM. }
  repeat split; auto.
  exists sq. repeat split; auto.
  - intros ->. discriminate.
  - rewrite Hj. simpl. now rewrite Hhd.
Qed.

Lemma X23_witness :
  In (h_line (mkHit 0 (line_on 1 0 [word_at "x" "X" 0.125%float;
                                    word_at "Sexo" "SEXO" 0.5%float])
                    1 1 1 0.5%float 0.5%float 0.25%float 0.5%float))
     [line_on 0 0 [word_at "Nombre" "NOMBRE" 0.25%float];
      line_on 1 0 [word_at "x" "X" 0.125%float; word_at "Sexo" "SEXO" 0.5%float]]
  /\ h_page (mkHit 0 (line_on 1 0 [word_at "x" "X" 0.125%float;
                                   word_at "Sexo" "SEXO" 0.5%float])
                   1 1 1 0.5%float 0.5%float 0.25%float 0.5%float) = 0.
Proof.
  destruct (X23_label_hit_is_anchored
              [line_on 0 0 [word_at "Nombre" "NOMBRE" 0.25%float];
               line_on 1 0 [word_at "x" "X" 0.125%float;
                            word_at "Sexo" "SEXO" 0.5%float]]
              [["SEXO"]]
              (mkHit 0 (line_on 1 0 [word_at "x" "X" 0.125%float;
                                     word_at "Sexo" "SEXO" 0.5%float])
                     1 1 1 0.5%float 0.5%float 0.25%float 0.5%float))
    as (H1 & H2 & _).
  - reflexivity.
  - split; assumption.
Defined.

(** X24.  [_collect_below_until_next_label] takes its text from the page
    of the label only: the lines of the other pages never contribute. *)
Theorem X24_collect_below_reads_the_page_of_the_label
        (unidecode : string -> string) (lines : list Line) (hit : label_hit)
        (first : list string) (max_lines : nat) :
  _collect_below_until_next_label unidecode lines hit first max_lines
  = _collect_below_until_next_label
      unidecode (filter (fun L => lpage L =? h_page hit) lines)
      hit first max_lines.
Proof.
  unfold _collect_below_until_next_label.
  now rewrite below_words_same_page.
Qed.

End LayoutExtras.
